(** * Cognitive screening front end: heuristic scoring, task generation,
      result polling and the chat fallback

    A shallow embedding of the assessment page (the task generator, the
    local heuristic risk estimator and the remote polling path of
    [handleCognitiveComplete]) and of the chat widget ([fallbackAnswer],
    [handleSend]).

    Modelling conventions.
    - A JavaScript [number] is an exact rational ([Q]); equality of numbers
      is [Qeq].  IEEE rounding, infinities and NaN are outside the model.
    - A JavaScript string is a Rocq [string]: the bytes of its UTF-8
      encoding.  Strict equality of strings is equality of these bytes.
    - A record indexed by fixed keys is a finite map; a read of an object
      literal by a key that comes from outside also sees what the object
      inherits from [Object.prototype].
    - [Math.random] is an explicit random source threaded through the
      generator; asynchronous calls to collaborators are answered by an
      explicit world and leave events in a trace. *)

From Stdlib Require Import QArith Qminmax Lqa ZArith Lia.
From Stdlib Require Import String Ascii DecimalString.
From stdpp Require Import base option list gmap strings.

Local Open Scope Q_scope.

(** ** The numbers of the page *)

Module Num.

(** [a > b] on numbers. *)
Definition gtb (a b : Q) : bool := negb (Qle_bool a b).

(** Truthiness of a number: every number but zero. *)
Definition truthy (a : Q) : bool := negb (Qeq_bool a 0).

(** [Math.min] and [Math.max] on two numbers. *)
Definition Math_min (a b : Q) : Q := Qmin a b.
Definition Math_max (a b : Q) : Q := Qmax a b.

(** [xs.reduce((a, b, i) => f a b i, init)]. *)
Fixpoint reduce_from {A B : Type} (f : A -> B -> nat -> A)
    (i : nat) (acc : A) (xs : list B) : A :=
  match xs with
  | [] => acc
  | b :: xs' => reduce_from f (S i) (f acc b i) xs'
  end.

Definition reduce {A B : Type} (f : A -> B -> nat -> A) (init : A)
    (xs : list B) : A :=
  reduce_from f 0 init xs.

End Num.

(** ** The assessment page *)

Module Assessment.
Import Num.

(** [SpeechTask] is declared by the speech recorder component; the fields
    are those the literals of [SPEECH_TASKS] give.  [maxDurationMs] is
    optional, as the [?? 60_000] at its uses says. *)
Record SpeechTask := {
  st_id : string;
  st_title : string;
  st_description : string;
  st_prompt : string;
  maxDurationMs : option Q
}.

Definition SPEECH_TASKS : list SpeechTask := [
  {| st_id := "picture-description";
     st_title := "Picture Description";
     st_description :=
       "Describe the scene shown in the picture prompt in as much detail as possible.";
     st_prompt :=
       "Imagine you are looking at a photo of a family cooking together in a kitchen. Describe everything you see.";
     maxDurationMs := Some 90000 |};
  {| st_id := "story-recall";
     st_title := "Story Recall";
     st_description := "Listen to a short story and retell it in your own words.";
     st_prompt :=
       "Recall a memorable event from your life and describe what happened, who was involved, and how it made you feel.";
     maxDurationMs := Some 120000 |};
  {| st_id := "free-conversation";
     st_title := "Open Conversation";
     st_description :=
       "Speak freely about any topic of your choice for at least one minute.";
     st_prompt :=
       "Share your thoughts about how technology has changed communication in your lifetime.";
     maxDurationMs := Some 90000 |}
].

(** The [scores] of a [CognitiveCompletionPayload]: the four sub-scores
    the handler reads. *)
Record CognitiveScores := {
  memoryScore : Q;
  attentionScore : Q;
  languageScore : Q;
  executiveScore : Q
}.

Inductive RiskLevel := Low | Medium | High.

Inductive Direction := positive | negative.

Record FeatureImportance := {
  feature : string;
  contribution : Q;
  direction : Direction
}.

(** [AssessmentResult] is declared by the API client; the fields are those
    of the literal the heuristic branch builds. *)
Record AssessmentResult := {
  assessmentId : string;
  riskLevel : RiskLevel;
  probability : Q;
  featureImportances : list FeatureImportance;
  subScores : CognitiveScores;
  recommendations : list string;
  generatedAt : string
}.

(** *** The heuristic estimator (the [USE_LOCAL_HEURISTIC] branch) *)

Definition domainMax : CognitiveScores :=
  {| memoryScore := 2; attentionScore := 4;
     languageScore := 1; executiveScore := 1 |}.

(** [t.maxDurationMs ?? 60_000] *)
Definition expectedOf (t : SpeechTask) : Q := default 60000 (maxDurationMs t).

(** [SPEECH_TASKS.map((t) => t.maxDurationMs ?? 60_000)] *)
Definition expectedDurations (tasks : list SpeechTask) : list Q :=
  map expectedOf tasks.

(** [Math.min(speechDurations[t.id] ?? 0, t.maxDurationMs ?? 60_000)] *)
Definition recordedOf (speechDurations : gmap string Q) (t : SpeechTask) : Q :=
  Math_min (default 0 (speechDurations !! st_id t)) (expectedOf t).

Definition recordedDurations (tasks : list SpeechTask)
    (speechDurations : gmap string Q) : list Q :=
  map (recordedOf speechDurations) tasks.

(** The reducer [(a, b, i) => a + (expected[i] ? b / expected[i] : 0)];
    an index past the end of [expected] reads [undefined], which is
    falsy. *)
Definition coverageStep (expected : list Q) (a b : Q) (i : nat) : Q :=
  a + match expected !! i with
      | Some e => if truthy e then b / e else 0
      | None => 0
      end.

(** The coverage term, over the task table it is computed from. *)
Definition speechCoverage (tasks : list SpeechTask)
    (speechDurations : gmap string Q) : Q :=
  let expected := expectedDurations tasks in
  let recorded := recordedDurations tasks speechDurations in
  match length recorded with
  | O => 0.5
  | S _ =>
      reduce (coverageStep expected) 0 recorded
        / inject_Z (Z.of_nat (length recorded))
  end.

(** [Math.min(0.98, Math.max(0.02, probability))] *)
Definition clampProbability (p : Q) : Q := Math_min 0.98 (Math_max 0.02 p).

(** [probability > 0.66 ? "High" : probability > 0.33 ? "Medium" : "Low"] *)
Definition riskLevelOf (p : Q) : RiskLevel :=
  if gtb p 0.66 then High else if gtb p 0.33 then Medium else Low.

(** [(x < 0.5 ? "positive" : "negative")] *)
Definition directionOf (x : Q) : Direction :=
  if gtb 0.5 x then positive else negative.

Definition heuristicRecommendations : list string := [
  "Try a longer picture description (aim for ~60–90s).";
  "Practice digit span and word recall to boost attention and memory.";
  "Share this report with a clinician for guidance—this is not a diagnosis."
].

(** The result record the heuristic branch builds; [now] stands for
    [new Date().toISOString()]. *)
Definition heuristicResult (aid : string) (scores : CognitiveScores)
    (speechDurations : gmap string Q) (now : string) : AssessmentResult :=
  let mem := Math_min 1 (memoryScore scores / memoryScore domainMax) in
  let att := Math_min 1 (attentionScore scores / attentionScore domainMax) in
  let lang := Math_min 1 (languageScore scores / languageScore domainMax) in
  let exec := Math_min 1 (executiveScore scores / executiveScore domainMax) in
  let cognitiveAvg := (mem + att + lang + exec) / 4 in
  let coverage := speechCoverage SPEECH_TASKS speechDurations in
  let probability0 := 1 - (0.7 * cognitiveAvg + 0.3 * coverage) in
  let probability1 := clampProbability probability0 in
  {| assessmentId := aid;
     riskLevel := riskLevelOf probability1;
     probability := probability1;
     featureImportances := [
       {| feature := "memory_score"; contribution := 0.5 - mem;
          direction := directionOf mem |};
       {| feature := "attention_score"; contribution := 0.5 - att;
          direction := directionOf att |};
       {| feature := "language_score"; contribution := 0.5 - lang;
          direction := directionOf lang |};
       {| feature := "executive_score"; contribution := 0.5 - exec;
          direction := directionOf exec |};
       {| feature := "speech_coverage";
          contribution := 0.5 - Math_min 1 coverage;
          direction := directionOf coverage |} ];
     subScores := scores;
     recommendations := heuristicRecommendations;
     generatedAt := now |}.

(** *** The estimator as the specification words it

    These definitions follow the specification's sentences, not the code;
    the theorems compare them with the definitions above. *)

(** "Each sub-score is divided by its domain maximum and clamped to at most
    1.0." *)
Definition spec_normalized (score max : Q) : Q :=
  if gtb (score / max) 1 then 1 else score / max.

(** "Clamped to [lo, hi]". *)
Definition spec_clamp (lo hi x : Q) : Q :=
  if gtb lo x then lo else if gtb x hi then hi else x.

(** "Unweighted mean of the four normalized scores." *)
Definition spec_cognitive_aggregate (scores : CognitiveScores) : Q :=
  (spec_normalized (memoryScore scores) 2
   + spec_normalized (attentionScore scores) 4
   + spec_normalized (languageScore scores) 1
   + spec_normalized (executiveScore scores) 1) / 4.

(** "1 − (0.7 × cognitive_aggregate + 0.3 × coverage), clamped to
    [0.02, 0.98]." *)
Definition spec_probability (scores : CognitiveScores) (coverage : Q) : Q :=
  spec_clamp 0.02 0.98
    (1 - (0.7 * spec_cognitive_aggregate scores + 0.3 * coverage)).

Definition Qsum (xs : list Q) : Q := foldr Qplus 0 xs.

(** "Recorded duration divided by that task's maximum allowed duration
    (capped at 1.0 per task)"; a zero maximum "contributes 0". *)
Definition spec_ratio (maxDuration duration : Q) : Q :=
  if Qeq_bool maxDuration 0 then 0 else Math_min 1 (duration / maxDuration).

(** The tasks "actually attempted": those with a recorded duration. *)
Definition attempted (speechDurations : gmap string Q)
    (tasks : list SpeechTask) : list SpeechTask :=
  filter (fun t => is_Some (speechDurations !! st_id t)) tasks.

(** "Coverage is the mean ratio across tasks actually attempted, or a fixed
    neutral value of 0.5 if none were attempted." *)
Definition spec_coverage (tasks : list SpeechTask)
    (speechDurations : gmap string Q) : Q :=
  match attempted speechDurations tasks with
  | [] => 0.5
  | ts =>
      Qsum (map (fun t => spec_ratio (expectedOf t)
                            (default 0 (speechDurations !! st_id t))) ts)
        / inject_Z (Z.of_nat (length ts))
  end.

(** The mean of the per-task ratios over the whole task table, a task
    without a recording counting as duration 0. *)
Definition table_coverage (tasks : list SpeechTask)
    (speechDurations : gmap string Q) : Q :=
  Qsum (map (fun t => spec_ratio (expectedOf t)
                        (default 0 (speechDurations !! st_id t))) tasks)
    / inject_Z (Z.of_nat (length tasks)).

(** Risk levels in increasing order of severity. *)
Definition rank (l : RiskLevel) : nat :=
  match l with Low => 0 | Medium => 1 | High => 2 end.

(** One summand of the reducer, for a task with maximum [e] and capped
    recording [b]. *)
Definition coverageTerm (e b : Q) : Q := if truthy e then b / e else 0.

(** A recording of the first task alone, at its full length; of the
    second task alone, at half its maximum; of all three tasks, each at
    least as long as its maximum; and of all three at zero length. *)
Definition onlyPicture : gmap string Q := {[ "picture-description" := 90000 ]}.

Definition halfStory : gmap string Q := {[ "story-recall" := 60000 ]}.

Definition fullRecordings : gmap string Q :=
  {[ "picture-description" := 90000; "story-recall" := 150000;
     "free-conversation" := 95000 ]}.

Definition silentRecordings : gmap string Q :=
  {[ "picture-description" := 0; "story-recall" := 0;
     "free-conversation" := 0 ]}.

Definition zeroScores : CognitiveScores :=
  {| memoryScore := 0; attentionScore := 0;
     languageScore := 0; executiveScore := 0 |}.

(** *** Task generation *)

Inductive TaskType := word_recall | digit_span | attention | clock_drawing.

(** [CognitiveTask] is declared by the cognitive task component; the
    fields are those the literals of the generator give, an absent field
    being [None].  An index is a JavaScript number, here an integer. *)
Record CognitiveTask := {
  ct_id : string;
  ct_type : TaskType;
  ct_title : string;
  ct_description : string;
  ct_prompt : string;
  options : option (list string);
  correctAnswer : option Z;
  sequenceAnswer : option (list Z)
}.

(** The random source.  [[...arr].sort(() => Math.random() - 0.5)] ignores
    what it compares, so the order it leaves depends on the draws alone and
    is a rearrangement of [arr]; each call of [shuffle] takes one code from
    the source, and the code fixes the rearrangement: element by element,
    the next element is put at the drawn position among those already
    placed.  An exhausted source leaves the order as it is. *)
Definition RandomSource := list (list nat).

(** What is thrown: the [TypeError] of spreading a value that is not
    iterable, or the error a collaborator's call rejects with. *)
Inductive JsError := TypeError | CallFailed.

Inductive Completion (A : Type) :=
| Normal (a : A)
| Throw (e : JsError).
Arguments Normal {A} a.
Arguments Throw {A} e.

(** Computations that draw from the random source and may throw. *)
Definition Gen (A : Type) : Type := RandomSource -> Completion A * RandomSource.

Definition ret {A : Type} (a : A) : Gen A := fun src => (Normal a, src).

Definition throw {A : Type} (e : JsError) : Gen A := fun src => (Throw e, src).

Definition bind {A B : Type} (c : Gen A) (k : A -> Gen B) : Gen B :=
  fun src =>
    match c src with
    | (Normal a, src') => k a src'
    | (Throw e, src') => (Throw e, src')
    end.

Declare Scope gen_scope.
Delimit Scope gen_scope with gen.
Notation "x <- c ;; k" := (bind c (fun x => k))
  (at level 100, c at next level, right associativity) : gen_scope.

Fixpoint insertAt {T : Type} (n : nat) (x : T) (l : list T) : list T :=
  match n, l with
  | O, _ => x :: l
  | S _, [] => [x]
  | S n', y :: l' => y :: insertAt n' x l'
  end.

Fixpoint shuffleWith {T : Type} (code : list nat) (arr : list T) : list T :=
  match arr with
  | [] => []
  | x :: arr' =>
      match code with
      | [] => x :: shuffleWith [] arr'
      | c :: code' => insertAt c x (shuffleWith code' arr')
      end
  end.

Definition shuffle {T : Type} (arr : list T) : Gen (list T) :=
  fun src =>
    match src with
    | [] => (Normal arr, [])
    | code :: src' => (Normal (shuffleWith code arr), src')
    end.

(** [arr.indexOf(x)]: the first index holding [x], or -1. *)
Fixpoint indexOfFrom (i : Z) (x : string) (arr : list string) : Z :=
  match arr with
  | [] => (-1)%Z
  | y :: arr' => if decide (y = x) then i else indexOfFrom (i + 1)%Z x arr'
  end.

Definition indexOf (arr : list string) (x : string) : Z := indexOfFrom 0 x arr.

(** [arr[k]] for a number [k]: [None] stands for [undefined]. *)
Definition arrayGet {T : Type} (arr : list T) (k : Z) : option T :=
  if decide (0 <= k)%Z then arr !! Z.to_nat k else None.

(** [Array.from(new Set(xs))]: the elements in the order of their first
    occurrence. *)
Fixpoint setFrom (seen : list nat) (xs : list nat) : list nat :=
  match xs with
  | [] => []
  | x :: xs' =>
      if decide (x ∈ seen) then setFrom seen xs'
      else x :: setFrom (x :: seen) xs'
  end.

Definition arrayFromSet (xs : list nat) : list nat := setFrom [] xs.

(** [String(d)] for a non-negative integer [d]. *)
Definition stringOfNumber (d : nat) : string :=
  NilEmpty.string_of_uint (Nat.to_uint d).

(** [xs.join(", ")] *)
Definition join (sep : string) (xs : list string) : string :=
  String.concat sep xs.

Local Open Scope gen_scope.

Definition makeWordRecallTask (id title : string) (words : list string)
    : Gen CognitiveTask :=
  opts <- shuffle words ;;
  let sequence := map (indexOf opts) words in
  ret {| ct_id := id;
         ct_type := word_recall;
         ct_title := title;
         ct_description :=
           "Remember the list of words and tap them in the same order after Begin.";
         ct_prompt := "Remember the words: " +:+ join ", " words +:+ ".";
         options := Some opts;
         correctAnswer := None;
         sequenceAnswer := Some sequence |}.

Definition makeDigitSpanTask (id title : string) (digits : list nat)
    : Gen CognitiveTask :=
  distractors <- shuffle [0; 1; 2; 3; 4; 5; 6; 7; 8; 9]%nat ;;
  pool <- shuffle (arrayFromSet (digits ++ take 5 distractors)) ;;
  let opts := map stringOfNumber pool in
  let sequence := map (fun d => indexOf opts (stringOfNumber d)) digits in
  ret {| ct_id := id;
         ct_type := digit_span;
         ct_title := title;
         ct_description := "Tap the digits in the exact order after Begin.";
         ct_prompt := join ", " (map stringOfNumber digits);
         options := Some opts;
         correctAnswer := None;
         sequenceAnswer := Some sequence |}.

Definition WORDS_en : list string :=
  ["Apple"; "Train"; "Moon"; "Garden"; "Candle"; "Bridge"; "Star"; "Window";
   "River"; "Mirror"; "Bottle"].
Definition WORDS_hi : list string :=
  ["सेब"; "रेल"; "चाँद"; "बाग"; "मोमबत्ती"; "पुल"; "तारा"; "खिड़की"; "नदी"; "आईना"; "बोतल"].
Definition WORDS_bn : list string :=
  ["আপেল"; "ট্রেন"; "চাঁদ"; "উদ্যান"; "মোমবাতি"; "সেতু"; "তারকা"; "জানালা"; "নদী"; "আয়না"; "বোতল"].
Definition WORDS_ta : list string :=
  ["ஆப்பிள்"; "ரயில்"; "நிலா"; "தோட்டம்"; " மெழுகுவர்த்தி"; "பாலம்"; "நட்சத்திரம்"; "ஜன்னல்"; "நதி"; "கண்ணாடி"; "பாட்டில்"].

(** The own properties of the object literal [WORDS_BY_LANG]. *)
Definition WORDS_BY_LANG : gmap string (list string) :=
  {[ "en" := WORDS_en; "hi" := WORDS_hi; "bn" := WORDS_bn; "ta" := WORDS_ta ]}.

(** [WORDS_BY_LANG] is an object literal, so a property it does not own is
    looked up in [Object.prototype]: these are the names found there, each
    a function, [__proto__] the prototype object itself. *)
Definition Object_prototype_names : list string :=
  ["constructor"; "hasOwnProperty"; "isPrototypeOf"; "propertyIsEnumerable";
   "toLocaleString"; "toString"; "valueOf"; "__proto__";
   "__defineGetter__"; "__defineSetter__"; "__lookupGetter__";
   "__lookupSetter__"].

(** What [WORDS_BY_LANG[language]] evaluates to. *)
Inductive LexiconValue :=
| WordList (ws : list string)
| PrototypeMember (name : string)
| undefined.

Definition getLexicon (language : string) : LexiconValue :=
  match WORDS_BY_LANG !! language with
  | Some ws => WordList ws
  | None =>
      if decide (language ∈ Object_prototype_names)
      then PrototypeMember language
      else undefined
  end.

(** [v ?? d] *)
Definition nullish (v d : LexiconValue) : LexiconValue :=
  match v with
  | undefined => d
  | _ => v
  end.

Definition attention1 : CognitiveTask :=
  {| ct_id := "attention-sequence";
     ct_type := attention;
     ct_title := "Attention Pattern";
     ct_description := "Continue the color sequence.";
     ct_prompt := "Red → Blue → Red → Blue → ?";
     options := Some ["Red"; "Blue"; "Green"];
     correctAnswer := Some 0%Z;
     sequenceAnswer := None |}.

Definition visualSearch : CognitiveTask :=
  {| ct_id := "attention-visual";
     ct_type := attention;
     ct_title := "Visual Search";
     ct_description := "Find the odd-one-out.";
     ct_prompt := "Square, Square, Circle, Square → Which is different?";
     options := Some ["Circle"; "Square"; "Triangle"];
     correctAnswer := Some 0%Z;
     sequenceAnswer := None |}.

Definition clock : CognitiveTask :=
  {| ct_id := "clock-drawing";
     ct_type := clock_drawing;
     ct_title := "Clock Drawing";
     ct_description := "Imagine drawing a clock showing the time 10 past 11.";
     ct_prompt :=
       "Picture a clock and describe how you would place the numbers and hands for 11:10.";
     options := None;
     correctAnswer := None;
     sequenceAnswer := None |}.

(** [generateCognitiveTasks]: the first [shuffle(lex)] spreads [lex], which
    throws a [TypeError] when [lex] is not iterable. *)
Definition generateCognitiveTasks (language : string)
    : Gen (list CognitiveTask) :=
  match nullish (getLexicon language) (getLexicon "en") with
  | WordList lex =>
      shuffledA <- shuffle lex ;;
      let poolA := take 5 shuffledA in
      shuffledB <- shuffle (filter (fun w => w ∉ poolA) lex) ;;
      let poolB := take 5 shuffledB in
      word1 <- makeWordRecallTask "word-recall" "Word Recall" poolA ;;
      word2 <- makeWordRecallTask "word-recall-2" "Word Recall II" poolB ;;
      digit1 <- makeDigitSpanTask "digit-span" "Digit Span" [3; 9; 1; 4; 7]%nat ;;
      digit2 <- makeDigitSpanTask "digit-span-reverse" "Digit Span (Reverse)"
                  [7; 2; 9; 3]%nat ;;
      ret [word1; digit1; attention1; word2; digit2; visualSearch; clock]
  | _ => throw TypeError
  end.

Local Close Scope gen_scope.

(** *** What a generated task must satisfy *)

(** The items a task's correct sequence reads off its options list,
    position by position. *)
Definition recalled (t : CognitiveTask) : option (list string) :=
  match options t, sequenceAnswer t with
  | Some opts, Some sequence => mapM (arrayGet opts) sequence
  | _, _ => None
  end.

(** The prompt of a list-recall task that presents [items] in this order. *)
Definition listPrompt (ty : TaskType) (items : list string) : option string :=
  match ty with
  | word_recall => Some ("Remember the words: " +:+ join ", " items +:+ ".")
  | digit_span => Some (join ", " items)
  | _ => None
  end.

(** Reading the options by the correct sequence gives the items of the
    prompt, in the order of the prompt. *)
Definition reconstructsPrompt (t : CognitiveTask) : bool :=
  match recalled t with
  | Some items => bool_decide (listPrompt (ct_type t) items = Some (ct_prompt t))
  | None => false
  end.

(** Every entry of the correct sequence is an index into the options. *)
Definition indicesValid (t : CognitiveTask) : Prop :=
  match options t, sequenceAnswer t with
  | Some opts, Some sequence =>
      Forall (fun k => (0 <= k < Z.of_nat (length opts))%Z) sequence
  | _, _ => False
  end.

(** The words two tasks offer are disjoint. *)
Definition shareNoWord (t1 t2 : CognitiveTask) : Prop :=
  match options t1, options t2 with
  | Some o1, Some o2 => forall w, w ∈ o1 -> w ∉ o2
  | _, _ => False
  end.

(** The outcome of a run, leaving the rest of the random source aside. *)
Definition outcome {A : Type} (c : Gen A) (src : RandomSource) : Completion A :=
  fst (c src).

(** The value a run returned, if it returned. *)
Definition outcome_value {A : Type} (r : Completion A * RandomSource)
    : option A :=
  match fst r with
  | Normal a => Some a
  | Throw _ => None
  end.

(** *** Completing the cognitive stage

    [handleCognitiveComplete] sets page state, raises toasts and awaits
    collaborators; each of these leaves an event in a trace.  The answers
    of the collaborators come from a [World]. *)

Inductive Provider := firebase | local.

(** The fields of the session user the handler reads. *)
Record User := {
  user_id : string;
  accessToken : string
}.

Record Session := {
  session_assessmentId : option string;
  session_user : option User;
  session_auth : option Provider
}.

Inductive Event :=
| Toast (title : string)
| SetIsLoading (b : bool)
| AdvanceStep
| SetIsResultPending (b : bool)
| SubmitCognitiveData
| RequestRiskPrediction
| FetchAssessmentResult
| Sleep (ms : Z)
| SetResult (r : AssessmentResult)
| SaveReport (r : AssessmentResult)
| LoadReports
| SaveEncryptedAssessmentResult (r : AssessmentResult)
| LoadEncryptedAssessmentHistory
| SaveAssessmentResult (r : AssessmentResult)
| LoadAssessmentHistory
| SetHistory
| ConsoleError.

(** The collaborators: whether a call resolves, and what the [n]-th call
    of [fetchAssessmentResult] resolves with ([None]: it rejects). *)
Record World := {
  submitCognitiveData_ok : bool;
  requestRiskPrediction_ok : bool;
  fetchAssessmentResult_at : nat -> option AssessmentResult;
  save_ok : bool;
  load_ok : bool;
  now : string
}.

(** Computations that leave a trace and may throw. *)
Definition Eff (A : Type) : Type := list Event * Completion A.

Definition eret {A : Type} (a : A) : Eff A := ([], Normal a).

Definition ebind {A B : Type} (c : Eff A) (k : A -> Eff B) : Eff B :=
  match c with
  | (t, Normal a) => let '(t', r) := k a in (t ++ t', r)
  | (t, Throw e) => (t, Throw e)
  end.

(** A call that cannot fail. *)
Definition emit (e : Event) : Eff unit := ([e], Normal tt).

(** A call of a collaborator, awaited where it is asynchronous: the call
    is made; it returns or throws. *)
Definition call {A : Type} (e : Event) (answer : option A) : Eff A :=
  ([e], match answer with Some a => Normal a | None => Throw CallFailed end).

Definition ok (b : bool) : option unit := if b then Some tt else None.

(** [try { body } catch (e) { handler }] *)
Definition tryCatch {A : Type} (body : Eff A) (handler : JsError -> Eff A)
    : Eff A :=
  match body with
  | (t, Normal a) => (t, Normal a)
  | (t, Throw e) => let '(t', r) := handler e in (t ++ t', r)
  end.

(** [try { body } finally { final }], for a [final] that does not throw. *)
Definition tryFinally {A : Type} (body : Eff A) (final : Eff unit) : Eff A :=
  let '(t, r) := body in (t ++ fst final, r).

Declare Scope eff_scope.
Delimit Scope eff_scope with eff.
Notation "x <- c ;; k" := (ebind c (fun x => k))
  (at level 100, c at next level, right associativity) : eff_scope.
Notation "c ;;; k" := (ebind c (fun _ => k))
  (at level 100, right associativity) : eff_scope.

Local Open Scope eff_scope.

(** Temporary: enable local heuristic inference while backend model is
    unavailable. *)
Definition USE_LOCAL_HEURISTIC : bool := true.

(** Truthiness of [assessmentId]: neither [null] nor the empty string. *)
Definition truthyString (s : option string) : option string :=
  match s with
  | Some EmptyString => None
  | other => other
  end.

(** The best-effort save after a result is shown: whatever it throws is
    swallowed. *)
Definition persistResult (w : World) (s : Session) (u : User)
    (r : AssessmentResult) : Eff unit :=
  tryCatch
    (match session_auth s with
     | Some firebase =>
         call (SaveReport r) (ok (save_ok w)) ;;;
         call LoadReports (ok (load_ok w)) ;;;
         emit SetHistory
     | Some local =>
         call (SaveEncryptedAssessmentResult r) (ok (save_ok w)) ;;;
         call LoadEncryptedAssessmentHistory (ok (load_ok w)) ;;;
         emit SetHistory
     | None =>
         call (SaveAssessmentResult r) (ok (save_ok w)) ;;;
         call LoadAssessmentHistory (ok (load_ok w)) ;;;
         emit SetHistory
     end)
    (fun _ => eret tt).

(** One turn of the polling loop: [Some r] when the fetch resolved (the
    loop breaks), [None] after a failed fetch and its sleep. *)
Definition pollOnce (w : World) (i : nat) : Eff (option AssessmentResult) :=
  tryCatch
    (r <- call FetchAssessmentResult (fetchAssessmentResult_at w i) ;;
     eret (Some r))
    (fun _ => emit (Sleep 1000) ;;; eret None).

(** [for (let i = ...; i < ...; i++)] over the [remaining] turns that are
    left, the next one being turn [i]. *)
Fixpoint pollFrom (w : World) (remaining i : nat)
    : Eff (option AssessmentResult) :=
  match remaining with
  | O => eret None
  | S remaining' =>
      fetched <- pollOnce w i ;;
      match fetched with
      | Some r => eret (Some r)
      | None => pollFrom w remaining' (S i)
      end
  end.

(** The remote scoring path. *)
Definition remoteScoring (w : World) (s : Session) (u : User) : Eff unit :=
  tryCatch (call RequestRiskPrediction (ok (requestRiskPrediction_ok w)))
           (fun _ => eret tt) ;;;
  fetched <- pollFrom w 15 0 ;;
  match fetched with
  | Some r => emit (SetResult r) ;;; persistResult w s u r
  | None => emit (Toast "Prediction pending")
  end ;;;
  emit (SetIsResultPending false).

(** The heuristic path. *)
Definition localScoring (w : World) (s : Session) (u : User) (aid : string)
    (scores : CognitiveScores) (speechDurations : gmap string Q) : Eff unit :=
  let heuristic := heuristicResult aid scores speechDurations (now w) in
  emit (SetResult heuristic) ;;;
  persistResult w s u heuristic ;;;
  emit (SetIsResultPending false).

(** [handleCognitiveComplete], with the constant [USE_LOCAL_HEURISTIC] as
    a parameter. *)
Definition handleCognitiveCompleteWith (useLocalHeuristic : bool) (w : World)
    (s : Session) (scores : CognitiveScores)
    (speechDurations : gmap string Q) : Eff unit :=
  match truthyString (session_assessmentId s), session_user s with
  | Some aid, Some u =>
      tryFinally
        (tryCatch
           (emit (SetIsLoading true) ;;;
            emit AdvanceStep ;;;
            emit (SetIsResultPending true) ;;;
            tryCatch (call SubmitCognitiveData (ok (submitCognitiveData_ok w)))
                     (fun _ => eret tt) ;;;
            if useLocalHeuristic
            then localScoring w s u aid scores speechDurations
            else remoteScoring w s u)
           (fun _ =>
              emit ConsoleError ;;;
              emit (Toast "Prediction failed") ;;;
              emit (SetIsResultPending false)))
        (emit (SetIsLoading false))
  | _, _ => emit (Toast "Assessment not started")
  end.

Definition handleCognitiveComplete : World -> Session -> CognitiveScores ->
    gmap string Q -> Eff unit :=
  handleCognitiveCompleteWith USE_LOCAL_HEURISTIC.

Local Close Scope eff_scope.

(** [n] failed attempts, each followed by its sleep. *)
Definition failedAttempts (n : nat) : list Event :=
  concat (replicate n [FetchAssessmentResult; Sleep 1000]).

Definition isFetch (e : Event) : bool :=
  match e with FetchAssessmentResult => true | _ => false end.

(** The number of fetch attempts in a trace. *)
Definition fetches (t : list Event) : nat := length (List.filter isFetch t).

(** The events of the remote path before the polling starts. *)
Definition remotePrefix : list Event :=
  [SetIsLoading true; AdvanceStep; SetIsResultPending true;
   SubmitCognitiveData; RequestRiskPrediction].

(** A world in which the first two fetches fail and the third returns a
    result, and a session that has started an assessment. *)
Definition sampleScores : CognitiveScores :=
  {| memoryScore := 1; attentionScore := 3;
     languageScore := 1; executiveScore := 0 |}.

Definition sampleResult : AssessmentResult :=
  heuristicResult "assessment-1" sampleScores ∅ "2025-01-01T00:00:00.000Z".

Definition sampleWorld : World :=
  {| submitCognitiveData_ok := false;
     requestRiskPrediction_ok := true;
     fetchAssessmentResult_at :=
       fun i => if (i <? 2)%nat then None else Some sampleResult;
     save_ok := true;
     load_ok := true;
     now := "2025-01-01T00:00:00.000Z" |}.

Definition sampleUser : User :=
  {| user_id := "user-1"; accessToken := "token" |}.

Definition sampleSession : Session :=
  {| session_assessmentId := Some "assessment-1";
     session_user := Some sampleUser;
     session_auth := None |}.

End Assessment.

(** ** The chat widget *)

Module Chatbot.

(** *** Characters *)

Definition bytes (codes : list nat) : string :=
  string_of_list_ascii (map ascii_of_nat codes).

(** The characters [\s] matches and [trim] removes (white space and line
    terminators), each by the bytes of its UTF-8 encoding: U+0009 to
    U+000D, U+0020, U+00A0, U+1680, U+2000 to U+200A, U+2028, U+2029,
    U+202F, U+205F, U+3000 and U+FEFF. *)
Definition whiteSpace : list string :=
  map bytes
    [[9]; [10]; [11]; [12]; [13]; [32]; [194; 160]; [225; 154; 128];
     [226; 128; 128]; [226; 128; 129]; [226; 128; 130]; [226; 128; 131];
     [226; 128; 132]; [226; 128; 133]; [226; 128; 134]; [226; 128; 135];
     [226; 128; 136]; [226; 128; 137]; [226; 128; 138]; [226; 128; 168];
     [226; 128; 169]; [226; 128; 175]; [226; 129; 159]; [227; 128; 128];
     [239; 187; 191]]%nat.

(** The rest of [s] after the prefix [p], if [s] starts with [p]. *)
Fixpoint dropPrefix (p s : string) : option string :=
  match p, s with
  | EmptyString, _ => Some s
  | String a p', String b s' =>
      if Ascii.eqb a b then dropPrefix p' s' else None
  | String _ _, EmptyString => None
  end.

(** The first of the attempts that succeeded. *)
Fixpoint firstSome {A : Type} (attempts : list (option A)) : option A :=
  match attempts with
  | [] => None
  | Some x :: _ => Some x
  | None :: rest => firstSome rest
  end.

(** The rest of [s] after one leading white-space character. *)
Definition dropWhiteSpace (s : string) : option string :=
  firstSome (map (fun p => dropPrefix p s) whiteSpace).

(** [canonicalize] of the [i] flag on a byte: a lower-case ASCII letter
    becomes its capital; no character outside ASCII folds onto an ASCII
    letter. *)
Definition canonicalize (c : ascii) : ascii :=
  let n := nat_of_ascii c in
  if (97 <=? n)%nat && (n <=? 122)%nat then ascii_of_nat (n - 32) else c.

(** A string with its ASCII letters in capitals. *)
Fixpoint upper (s : string) : string :=
  match s with
  | EmptyString => EmptyString
  | String c s' => String (canonicalize c) (upper s')
  end.

(** A byte that is no ASCII letter. *)
Definition caseless (c : ascii) : bool :=
  let n := nat_of_ascii c in
  negb (((65 <=? n)%nat && (n <=? 90)%nat)
        || ((97 <=? n)%nat && (n <=? 122)%nat)).

Definition caselessText (s : string) : bool :=
  forallb caseless (list_ascii_of_string s).

(** The rest of [s] after the literal [p], compared under the [i] flag. *)
Fixpoint dropLiteral (p s : string) : option string :=
  match p, s with
  | EmptyString, _ => Some s
  | String a p', String b s' =>
      if Ascii.eqb (canonicalize a) (canonicalize b)
      then dropLiteral p' s' else None
  | String _ _, EmptyString => None
  end.

(** *** Regular expressions, as far as the knowledge base uses them *)

Inductive RegExp :=
| Lit (text : string)
| WhiteSpaces
| Cat (r1 r2 : RegExp)
| Or (r1 r2 : RegExp)
| Maybe (r : RegExp).

(** [\s+] at the head of [s]: one white-space character, then more of them
    or the continuation. *)
Fixpoint whiteSpaces (fuel : nat) (s : string) (k : string -> bool) : bool :=
  match fuel with
  | O => false
  | S fuel' =>
      match dropWhiteSpace s with
      | Some s' => whiteSpaces fuel' s' k || k s'
      | None => false
      end
  end.

(** The matcher of [r] at the head of [s], with the continuation [k] for
    what follows; all patterns carry the [i] flag. *)
Fixpoint matchAt (r : RegExp) (s : string) (k : string -> bool) : bool :=
  match r with
  | Lit text =>
      match dropLiteral text s with
      | Some s' => k s'
      | None => false
      end
  | WhiteSpaces => whiteSpaces (String.length s) s k
  | Cat r1 r2 => matchAt r1 s (fun s' => matchAt r2 s' k)
  | Or r1 r2 => matchAt r1 s k || matchAt r2 s k
  | Maybe r1 => matchAt r1 s k || k s
  end.

(** [r.test(s)] for a pattern without the [g] flag: a match at some
    position of [s]. *)
Fixpoint test (r : RegExp) (s : string) : bool :=
  matchAt r s (fun _ => true)
  || match s with
     | EmptyString => false
     | String _ s' => test r s'
     end.

(** *** The knowledge base and the fallback *)

Record KBItem := { q : RegExp; a : string }.

Definition KB : list KBItem := [
  {| q := Cat (Maybe (Cat (Lit "what")
                        (Cat WhiteSpaces (Cat (Lit "is") WhiteSpaces))))
              (Lit "dementia");
     a := "Dementia is a syndrome affecting memory, thinking, behavior and the ability to perform everyday activities. Alzheimer's disease is the most common cause." |};
  {| q := Or (Lit "symptom") (Or (Lit "sign") (Or (Lit "memory") (Lit "forget")));
     a := "Common signs: memory loss, difficulty planning, confusion about time/place, language problems, poor judgment, mood/behavior changes." |};
  {| q := Or (Lit "risk") (Lit "cause");
     a := "Risk factors: age, family history, cardiovascular disease, diabetes, head injury, low physical/social activity." |};
  {| q := Or (Lit "prevent") (Or (Lit "reduce") (Lit "lifestyle"));
     a := "Healthy diet, exercise, cognitive and social engagement, good sleep, and blood pressure control may reduce risk." |};
  {| q := Or (Lit "diagnos") (Or (Lit "test") (Lit "screen"));
     a := "Diagnosis: clinical history, cognitive tests, labs, and imaging. Early screening helps plan care. Always consult a clinician." |};
  {| q := Or (Lit "treat") (Or (Lit "cure") (Lit "medicat"));
     a := "No cure for most dementias, but medicines and therapies can help manage symptoms and enhance quality of life." |}
].

Definition disclaimer : string := " (This is general info, not medical advice)".

Definition genericAnswer : string :=
  "I can share general information about dementia (not medical advice). Ask about symptoms, risk factors, prevention, diagnosis, or treatment.".

(** [for (const item of kb) if (item.q.test(query)) return ...; return ...] *)
Fixpoint fallbackOver (kb : list KBItem) (query : string) : string :=
  match kb with
  | [] => genericAnswer
  | item :: kb' =>
      if test (q item) query then a item +:+ disclaimer
      else fallbackOver kb' query
  end.

Definition fallbackAnswer (query : string) : string := fallbackOver KB query.

(** The canned answers C3 speaks of, by their place in the list. *)
Definition dementiaAnswer : string :=
  "Dementia is a syndrome affecting memory, thinking, behavior and the ability to perform everyday activities. Alzheimer's disease is the most common cause.".

Definition riskAnswer : string :=
  "Risk factors: age, family history, cardiovascular disease, diabetes, head injury, low physical/social activity.".

(** *** [trim] *)

(** Removes leading white-space characters, at most [fuel] of them. *)
Fixpoint trimStartWith (fuel : nat) (s : string) : string :=
  match fuel with
  | O => s
  | S fuel' =>
      match dropWhiteSpace s with
      | Some s' => trimStartWith fuel' s'
      | None => s
      end
  end.

Definition trimStart (s : string) : string :=
  trimStartWith (String.length s) s.

(** The front of [s] before one trailing white-space character. *)
Definition dropWhiteSpaceEnd (s : string) : option string :=
  firstSome
    (map (fun p => String.rev <$> dropPrefix (String.rev p) (String.rev s))
         whiteSpace).

Fixpoint trimEndWith (fuel : nat) (s : string) : string :=
  match fuel with
  | O => s
  | S fuel' =>
      match dropWhiteSpaceEnd s with
      | Some s' => trimEndWith fuel' s'
      | None => s
      end
  end.

Definition trimEnd (s : string) : string := trimEndWith (String.length s) s.

(** [s.trim()] *)
Definition trim (s : string) : string := trimEnd (trimStart s).

(** *** The widget's state and [handleSend] *)

Inductive Role := user | bot.

Record Msg := { role : Role; text : string }.

Inductive ChatRole := system | assistant | chat_user.

(** [ChatMessage] is declared by the completion client; the fields are
    those of the literals [callDeepSeek] builds. *)
Record ChatMessage := { cm_role : ChatRole; content : string }.

(** The state [handleSend] reads and sets. *)
Record ChatState := {
  input : string;
  loading : bool;
  messages : list Msg
}.

(** The environment: the API key, and what the completion client's
    [chatDeepSeek] answers to a list of messages and a token budget
    ([None]: it throws). *)
Record ChatWorld := {
  VITE_DEEPSEEK_API_KEY : option string;
  chatDeepSeek : list ChatMessage -> nat -> option string
}.

(** A remote call that was made. *)
Inductive RemoteCall := ChatCompletion (msgs : list ChatMessage) (max_tokens : nat).

Definition systemPrompt : ChatMessage :=
  {| cm_role := system;
     content :=
       "You are a helpful dementia information assistant for a cognitive screening app. Answer concisely in 3–6 bullet points, plain language, India-friendly context, and always include: 'This is general information, not medical advice.' If user asks for diagnosis/treatment, recommend consulting a clinician. Avoid claiming to diagnose or store PII." |}.

(** Truthiness of a string: every string but the empty one. *)
Definition truthyText (s : string) : bool :=
  match s with EmptyString => false | _ => true end.

Definition callDeepSeek (w : ChatWorld) (history : list Msg) (question : string)
    : string * list RemoteCall :=
  match VITE_DEEPSEEK_API_KEY w with
  | None => (fallbackAnswer question, [])
  | Some apiKey =>
      if negb (truthyText apiKey) then (fallbackAnswer question, [])
      else
        let historyMsgs :=
          map (fun m => {| cm_role := match role m with
                                      | bot => assistant
                                      | user => chat_user
                                      end;
                           content := text m |}) history in
        let msgs :=
          [systemPrompt] ++ historyMsgs
            ++ [{| cm_role := chat_user; content := question |}] in
        match chatDeepSeek w msgs 300 with
        | Some reply => (reply, [ChatCompletion msgs 300])
        | None => (fallbackAnswer question, [ChatCompletion msgs 300])
        end
  end.

Definition setInput (v : string) (st : ChatState) : ChatState :=
  {| input := v; loading := loading st; messages := messages st |}.

Definition setLoading (v : bool) (st : ChatState) : ChatState :=
  {| input := input st; loading := v; messages := messages st |}.

(** [setMessages((m) => [...m, msg])] *)
Definition appendMessage (msg : Msg) (st : ChatState) : ChatState :=
  {| input := input st; loading := loading st;
     messages := messages st ++ [msg] |}.

(** One run of [handleSend] from the state its closure sees; the state
    after it and the remote calls it made. *)
Definition handleSend (w : ChatWorld) (st : ChatState)
    : ChatState * list RemoteCall :=
  let question := trim (input st) in
  if negb (truthyText question) || loading st then (st, [])
  else
    let st1 := setInput "" st in
    let st2 := appendMessage {| role := user; text := question |} st1 in
    let st3 := setLoading true st2 in
    let '(reply, calls) := callDeepSeek w (messages st) question in
    let st4 := appendMessage {| role := bot; text := reply |} st3 in
    (setLoading false st4, calls).

(** The greeting the transcript starts with. *)
Definition initialState : ChatState :=
  {| input := "";
     loading := false;
     messages := [
       {| role := bot;
          text := "Hi! How can I help you with dementia-related questions? This is general information, not medical advice." |} ] |}.

(** A world without an API key, and a state whose input is blank. *)
Definition offlineWorld : ChatWorld :=
  {| VITE_DEEPSEEK_API_KEY := None; chatDeepSeek := fun _ _ => None |}.

Definition blankInput : ChatState :=
  {| input := "   "; loading := false; messages := messages initialState |}.

End Chatbot.

(** ** Comparing performances

    Orders on the inputs of the heuristic estimator, to state how its
    result moves with them. *)

Module Performance.
Import Num Assessment.

(** Every sub-score of [s] is at most the one of [s']. *)
Definition scoresLe (s s' : CognitiveScores) : Prop :=
  memoryScore s <= memoryScore s'
  /\ attentionScore s <= attentionScore s'
  /\ languageScore s <= languageScore s'
  /\ executiveScore s <= executiveScore s'.

Definition scoresNonneg (s : CognitiveScores) : Prop :=
  0 <= memoryScore s /\ 0 <= attentionScore s
  /\ 0 <= languageScore s /\ 0 <= executiveScore s.

(** What the estimator reads for a task: its recording, or 0. *)
Definition durationOf (speechDurations : gmap string Q) (t : SpeechTask) : Q :=
  default 0 (speechDurations !! st_id t).

(** For every task of the table the recording in [d] is at most as long
    as the one in [d']. *)
Definition recordingsLe (d d' : gmap string Q) : Prop :=
  forall t, t ∈ SPEECH_TASKS -> durationOf d t <= durationOf d' t.

Definition recordingsNonneg (d : gmap string Q) : Prop :=
  forall t, t ∈ SPEECH_TASKS -> 0 <= durationOf d t.

(** The sub-scores cut down to their domain maxima. *)
Definition capScores (s : CognitiveScores) : CognitiveScores :=
  {| memoryScore := Math_min (memoryScore s) 2;
     attentionScore := Math_min (attentionScore s) 4;
     languageScore := Math_min (languageScore s) 1;
     executiveScore := Math_min (executiveScore s) 1 |}.

(** The recordings cut down to the maxima of their tasks, a task without a
    recording getting one of length 0. *)
Definition capRecordings (d : gmap string Q) : gmap string Q :=
  foldr (fun t acc => <[st_id t := Math_min (durationOf d t) (expectedOf t)]> acc)
        ∅ SPEECH_TASKS.

(** The features of a result, in the order the estimator lists them. *)
Definition featureNames : list string :=
  ["memory_score"; "attention_score"; "language_score"; "executive_score";
   "speech_coverage"].

(** Scores above the maxima, and recordings longer than the maxima. *)
Definition overScores : CognitiveScores :=
  {| memoryScore := 5; attentionScore := 9;
     languageScore := 1; executiveScore := 3 |}.

End Performance.

(** ** The page: its state and its handlers

    The state the assessment page keeps between renders, as far as its
    handlers read and set it (the loaded history, which is whatever the
    stores return, is not tracked), and the handlers as functions from
    state to state.  What a handler shows or calls is appended to the
    state's log. *)

Module Page.
Import Num Assessment.

Definition STEP_CONFIG : list (string * string) :=
  [("consent", "Onboarding & Consent"); ("speech", "Speech Assessment");
   ("cognitive", "Cognitive Tasks"); ("results", "AI Risk Summary")].

(** The user of the session, as [setUser] stores it. *)
Record PageUser := {
  id : string;
  name : string;
  age : Q;
  language : string;
  consent : bool;
  userAccessToken : string
}.

(** What [registerUser] resolves with. *)
Record Registration := {
  registeredUser : PageUser;
  registrationToken : string
}.

Record OnboardingFormValues := {
  formName : string;
  formAge : Q;
  formLanguage : string;
  formConsent : bool
}.

(** What a handler showed or called, oldest first. *)
Inductive PageEvent :=
| Toasted (title : string)
| ConsoleErrorLogged
| RegisterUserCalled (values : OnboardingFormValues)
| StartAssessmentCalled (token : string)
| UploadSpeechSampleCalled (taskId : string) (durationMs : Q)
| Cognitive (e : Event).

Record PageState := {
  user : option PageUser;
  assessmentId : option string;
  auth : option Provider;
  activeStepIndex : nat;
  isLoading : bool;
  isSpeechUploading : bool;
  result : option AssessmentResult;
  isResultPending : bool;
  speechDurations : gmap string Q;
  log : list PageEvent
}.

(** The collaborators of the page. *)
Record PageWorld := {
  registerUser : OnboardingFormValues -> option Registration;
  startAssessment : string -> option string;
  uploadSpeechSample : string -> Q -> bool;
  cognitiveWorld : World
}.

(** *** Setters *)

Definition setUser (v : option PageUser) (st : PageState) : PageState :=
  {| user := v; assessmentId := assessmentId st; auth := auth st;
     activeStepIndex := activeStepIndex st; isLoading := isLoading st;
     isSpeechUploading := isSpeechUploading st; result := result st;
     isResultPending := isResultPending st;
     speechDurations := speechDurations st; log := log st |}.

Definition setResult (v : option AssessmentResult) (st : PageState) : PageState :=
  {| user := user st; assessmentId := assessmentId st; auth := auth st;
     activeStepIndex := activeStepIndex st; isLoading := isLoading st;
     isSpeechUploading := isSpeechUploading st; result := v;
     isResultPending := isResultPending st;
     speechDurations := speechDurations st; log := log st |}.

(** [setAssessmentId(v)], with the effect that depends on [assessmentId]:
    when the id changes, the result is reset to [null]. *)
Definition setAssessmentId (v : option string) (st : PageState) : PageState :=
  {| user := user st; assessmentId := v; auth := auth st;
     activeStepIndex := activeStepIndex st; isLoading := isLoading st;
     isSpeechUploading := isSpeechUploading st;
     result := if decide (v = assessmentId st) then result st else None;
     isResultPending := isResultPending st;
     speechDurations := speechDurations st; log := log st |}.

Definition setActiveStepIndex (f : nat -> nat) (st : PageState) : PageState :=
  {| user := user st; assessmentId := assessmentId st; auth := auth st;
     activeStepIndex := f (activeStepIndex st); isLoading := isLoading st;
     isSpeechUploading := isSpeechUploading st; result := result st;
     isResultPending := isResultPending st;
     speechDurations := speechDurations st; log := log st |}.

Definition setIsLoading (v : bool) (st : PageState) : PageState :=
  {| user := user st; assessmentId := assessmentId st; auth := auth st;
     activeStepIndex := activeStepIndex st; isLoading := v;
     isSpeechUploading := isSpeechUploading st; result := result st;
     isResultPending := isResultPending st;
     speechDurations := speechDurations st; log := log st |}.

Definition setIsSpeechUploading (v : bool) (st : PageState) : PageState :=
  {| user := user st; assessmentId := assessmentId st; auth := auth st;
     activeStepIndex := activeStepIndex st; isLoading := isLoading st;
     isSpeechUploading := v; result := result st;
     isResultPending := isResultPending st;
     speechDurations := speechDurations st; log := log st |}.

Definition setIsResultPending (v : bool) (st : PageState) : PageState :=
  {| user := user st; assessmentId := assessmentId st; auth := auth st;
     activeStepIndex := activeStepIndex st; isLoading := isLoading st;
     isSpeechUploading := isSpeechUploading st; result := result st;
     isResultPending := v;
     speechDurations := speechDurations st; log := log st |}.

Definition setSpeechDurations (f : gmap string Q -> gmap string Q)
    (st : PageState) : PageState :=
  {| user := user st; assessmentId := assessmentId st; auth := auth st;
     activeStepIndex := activeStepIndex st; isLoading := isLoading st;
     isSpeechUploading := isSpeechUploading st; result := result st;
     isResultPending := isResultPending st;
     speechDurations := f (speechDurations st); log := log st |}.

Definition record (e : PageEvent) (st : PageState) : PageState :=
  {| user := user st; assessmentId := assessmentId st; auth := auth st;
     activeStepIndex := activeStepIndex st; isLoading := isLoading st;
     isSpeechUploading := isSpeechUploading st; result := result st;
     isResultPending := isResultPending st;
     speechDurations := speechDurations st; log := log st ++ [e] |}.

Definition toast (title : string) : PageState -> PageState :=
  record (Toasted title).

(** *** Steps *)

(** The updater of [advanceStep]:
    [(index) => Math.min(index + 1, STEP_CONFIG.length - 1)]. *)
Definition nextStep (index : nat) : nat :=
  Nat.min (index + 1) (length STEP_CONFIG - 1).

Definition advanceStep : PageState -> PageState := setActiveStepIndex nextStep.

(** [isCloudSignedIn]: [auth?.provider === "firebase"]. *)
Definition isCloudSignedIn (st : PageState) : bool :=
  match auth st with
  | Some firebase => true
  | _ => false
  end.

(** [requireCloudSignIn]: [None] when signed in to the cloud, else the
    state with the toast raised. *)
Definition requireCloudSignIn (st : PageState) : option PageState :=
  if isCloudSignedIn st then None else Some (toast "Sign in required" st).

(** *** Onboarding *)

(** The user [setUser] receives: the registered user's fields and the
    access token of the response. *)
Definition storedUser (response : Registration) : PageUser :=
  let u := registeredUser response in
  {| id := id u; name := name u; age := age u;
     language := language u; consent := consent u;
     userAccessToken := registrationToken response |}.

Definition handleOnboardingSubmit (w : PageWorld)
    (values : OnboardingFormValues) (st : PageState) : PageState :=
  match requireCloudSignIn st with
  | Some refused => refused
  | None =>
      let st1 := setIsLoading true st in
      let st2 := record (RegisterUserCalled values) st1 in
      let failed s := toast "Could not register" (record ConsoleErrorLogged s) in
      let st3 :=
        match registerUser w values with
        | None => failed st2
        | Some response =>
            let st' := setUser (Some (storedUser response)) st2 in
            let st'' := record (StartAssessmentCalled (registrationToken response)) st' in
            match startAssessment w (registrationToken response) with
            | None => failed st''
            | Some assessment =>
                advanceStep
                  (toast "Registration successful"
                     (setAssessmentId (Some assessment) st''))
            end
        end in
      setIsLoading false st3
  end.

(** *** Speech *)

Definition handleSpeechUpload (w : PageWorld) (taskId : string)
    (durationMs : Q) (st : PageState) : PageState :=
  match requireCloudSignIn st with
  | Some refused => refused
  | None =>
      match truthyString (assessmentId st), user st with
      | Some aid, Some u =>
          let st1 := setIsSpeechUploading true st in
          let st2 := record (UploadSpeechSampleCalled taskId durationMs) st1 in
          let st3 :=
            if uploadSpeechSample w taskId durationMs
            then setSpeechDurations (fun prev => <[taskId := durationMs]> prev)
                   (toast "Speech sample captured" st2)
            else toast "Upload failed" (record ConsoleErrorLogged st2) in
          setIsSpeechUploading false st3
      | _, _ => toast "Assessment not started" st
      end
  end.

Definition handleSpeechComplete (st : PageState) : PageState :=
  advanceStep (toast "Speech tasks done" st).

(** *** Cognitive tasks *)

(** What the cognitive handler's events do to the state; calls, toasts
    and the history leave the tracked fields as they are. *)
Definition applyEvent (st : PageState) (e : Event) : PageState :=
  record (Cognitive e)
    match e with
    | SetIsLoading b => setIsLoading b st
    | AdvanceStep => advanceStep st
    | SetIsResultPending b => setIsResultPending b st
    | SetResult r => setResult (Some r) st
    | _ => st
    end.

(** The session the cognitive handler's closure sees. *)
Definition sessionOf (st : PageState) : Session :=
  {| session_assessmentId := assessmentId st;
     session_user :=
       (fun u => {| user_id := id u; accessToken := userAccessToken u |})
         <$> user st;
     session_auth := auth st |}.

(** [handleCognitiveComplete] run from a state, with the flag as a
    parameter; the state it leaves and whether it threw. *)
Definition cognitiveCompleteWith (useLocalHeuristic : bool) (w : PageWorld)
    (scores : CognitiveScores) (st : PageState)
    : PageState * Completion unit :=
  let '(trace, outcome) :=
    handleCognitiveCompleteWith useLocalHeuristic (cognitiveWorld w)
      (sessionOf st) scores (speechDurations st) in
  (foldl applyEvent st trace, outcome).

Definition cognitiveComplete : PageWorld -> CognitiveScores -> PageState ->
    PageState * Completion unit :=
  cognitiveCompleteWith USE_LOCAL_HEURISTIC.

(** Uploads one after the other. *)
Definition uploadAll (w : PageWorld) (recordings : list (string * Q))
    (st : PageState) : PageState :=
  foldl (fun s r => handleSpeechUpload w (fst r) (snd r) s) st recordings.

(** The durations after recordings were stored one after the other. *)
Definition recordAll (recordings : list (string * Q)) (d : gmap string Q)
    : gmap string Q :=
  foldl (fun m r => <[fst r := snd r]> m) d recordings.

(** The page as it is first rendered for a visitor who is signed in to the
    cloud. *)
Definition signedInStart : PageState :=
  {| user := None; assessmentId := None; auth := Some firebase;
     activeStepIndex := 0; isLoading := false; isSpeechUploading := false;
     result := None; isResultPending := false; speechDurations := ∅;
     log := [] |}.

(** An event that leaves the tracked fields as they are. *)
Definition neutral (e : Event) : bool :=
  match e with
  | SetIsLoading _ | AdvanceStep | SetIsResultPending _ | SetResult _ => false
  | _ => true
  end.

(** An event that sets neither a flag nor the step. *)
Definition flagFree (e : Event) : bool :=
  match e with
  | SetIsLoading _ | AdvanceStep | SetIsResultPending _ => false
  | _ => true
  end.

Definition appendLog (events : list PageEvent) (st : PageState) : PageState :=
  {| user := user st; assessmentId := assessmentId st; auth := auth st;
     activeStepIndex := activeStepIndex st; isLoading := isLoading st;
     isSpeechUploading := isSpeechUploading st; result := result st;
     isResultPending := isResultPending st;
     speechDurations := speechDurations st; log := log st ++ events |}.

(** *** Runs of the page *)

(** What a visitor makes the page do. *)
Inductive Action :=
| SubmitOnboarding (values : OnboardingFormValues)
| UploadSpeech (taskId : string) (durationMs : Q)
| CompleteSpeech
| CompleteCognitive (scores : CognitiveScores).

Definition perform (useLocalHeuristic : bool) (w : PageWorld)
    (st : PageState) (a : Action) : PageState :=
  match a with
  | SubmitOnboarding values => handleOnboardingSubmit w values st
  | UploadSpeech taskId durationMs => handleSpeechUpload w taskId durationMs st
  | CompleteSpeech => handleSpeechComplete st
  | CompleteCognitive scores =>
      fst (cognitiveCompleteWith useLocalHeuristic w scores st)
  end.

Definition performAll (useLocalHeuristic : bool) (w : PageWorld)
    (actions : list Action) (st : PageState) : PageState :=
  foldl (perform useLocalHeuristic w) st actions.

(** The whole assessment: onboarding, uploads, end of the speech stage,
    end of the cognitive stage. *)
Definition wholeAssessment (values : OnboardingFormValues)
    (recordings : list (string * Q)) (scores : CognitiveScores) : list Action :=
  [SubmitOnboarding values]
    ++ map (fun r => UploadSpeech (fst r) (snd r)) recordings
    ++ [CompleteSpeech; CompleteCognitive scores].

(** The page is at a step of the table and waits for the visitor: nothing
    is loading, uploading or pending. *)
Definition settled (st : PageState) : Prop :=
  (activeStepIndex st < length STEP_CONFIG)%nat
  /\ isLoading st = false
  /\ isSpeechUploading st = false
  /\ isResultPending st = false.

(** An event of the log that contacts the remote prediction service. *)
Definition contactsPrediction (e : PageEvent) : bool :=
  match e with
  | Cognitive RequestRiskPrediction => true
  | Cognitive FetchAssessmentResult => true
  | Cognitive (Sleep _) => true
  | _ => false
  end.

(** The store an event saves a result to, if it saves one. *)
Inductive Store := cloudStore | encryptedStore | browserStore.

Definition savesTo (e : Event) : option Store :=
  match e with
  | SaveReport _ => Some cloudStore
  | SaveEncryptedAssessmentResult _ => Some encryptedStore
  | SaveAssessmentResult _ => Some browserStore
  | _ => None
  end.

Definition storeOf (provider : option Provider) : Store :=
  match provider with
  | Some firebase => cloudStore
  | Some local => encryptedStore
  | None => browserStore
  end.

Definition isSetHistory (e : Event) : bool :=
  match e with SetHistory => true | _ => false end.

(** Sample collaborators: every call succeeds; registration fails;
    registration succeeds but no assessment can be started. *)
Definition sampleRegistration : Registration :=
  {| registeredUser :=
       {| id := "user-1"; name := "Asha"; age := 67; language := "hi";
          consent := true; userAccessToken := EmptyString |};
     registrationToken := "token" |}.

Definition sampleValues : OnboardingFormValues :=
  {| formName := "Asha"; formAge := 67; formLanguage := "hi";
     formConsent := true |}.

Definition kindWorld : PageWorld :=
  {| registerUser := fun _ => Some sampleRegistration;
     startAssessment := fun _ => Some "assessment-1";
     uploadSpeechSample := fun _ _ => true;
     cognitiveWorld := sampleWorld |}.

Definition noAssessmentWorld : PageWorld :=
  {| registerUser := fun _ => Some sampleRegistration;
     startAssessment := fun _ => None;
     uploadSpeechSample := fun _ _ => true;
     cognitiveWorld := sampleWorld |}.

End Page.

(** ** The generated task set, once more *)

Module TaskSet.
Import Assessment.

(** The lexicons the object literal owns. *)
Definition lexicons : list (list string) :=
  [WORDS_en; WORDS_hi; WORDS_bn; WORDS_ta].

(** The word list a language code is served with: its own, or the English
    one. *)
Definition lexiconOf (language : string) : list string :=
  default WORDS_en (WORDS_BY_LANG !! language).

(** The ids of the generated tasks, in the order of the set. *)
Definition taskIds : list string :=
  ["word-recall"; "digit-span"; "attention-sequence"; "word-recall-2";
   "digit-span-reverse"; "attention-visual"; "clock-drawing"].

End TaskSet.

(** ** The account card *)

Module Account.
Import Assessment Chatbot.

(** *** [formatAuthError] *)

(** What a [catch] clause can receive, as far as [formatAuthError] tells
    values apart: an object with or without a [message] property (given by
    what [String] makes of it), a string, or anything else ([undefined],
    [null], numbers, booleans, ...). *)
Inductive ErrorValue :=
| ErrorObject (message : option string)
| ErrorString (s : string)
| ErrorOther.

(** [s.includes(searchString)] *)
Fixpoint includes (s searchString : string) : bool :=
  match dropPrefix searchString s with
  | Some _ => true
  | None =>
      match s with
      | EmptyString => false
      | String _ s' => includes s' searchString
      end
  end.

Definition messageOf (error : ErrorValue) : string :=
  match error with
  | ErrorObject (Some message) => message
  | ErrorObject None => ""
  | ErrorString s => s
  | ErrorOther => ""
  end.

Definition formatAuthError (error : ErrorValue) : string :=
  let message := messageOf error in
  if includes message "auth/email-already-in-use"
  then "This email is already registered. Try logging in instead."
  else if includes message "auth/invalid-email"
  then "That email address looks invalid."
  else if includes message "auth/wrong-password"
  then "Incorrect password. Please try again."
  else if includes message "auth/user-not-found"
  then "No account found with that email. Sign up first."
  else if includes message "network"
  then "Network issue—check your connection and try again."
  else "Something went wrong. Please try again.".

(** The markers [formatAuthError] looks for with the reply of each, in the
    order of its tests, and the reply when none is found. *)
Definition authReplies : list (string * string) :=
  [("auth/email-already-in-use",
    "This email is already registered. Try logging in instead.");
   ("auth/invalid-email", "That email address looks invalid.");
   ("auth/wrong-password", "Incorrect password. Please try again.");
   ("auth/user-not-found",
    "No account found with that email. Sign up first.");
   ("network", "Network issue—check your connection and try again.")].

Definition genericReply : string := "Something went wrong. Please try again.".

(** [marker] occurs somewhere in [s]. *)
Definition occursIn (marker s : string) : Prop :=
  exists before after, s = before +:+ marker +:+ after.

(** *** The sign-in buttons *)

Record CloudUser := { uid : string; email : option string }.

Record AuthSession := {
  auth_provider : Provider;
  userId : string;
  auth_email : string;
  password : option string
}.

Inductive AccountEvent :=
| AuthSet (a : AuthSession)
| HistorySet (reports : list AssessmentResult)
| Toasted (title : string) (description : option string).

(** How an awaited promise settles. *)
Inductive Settled (A : Type) :=
| Fulfilled (a : A)
| Rejected (reason : ErrorValue).
Arguments Fulfilled {A} a.
Arguments Rejected {A} reason.

(** The calls the card makes outside this file.  [fingerprintLowerCased]
    stands for [fingerprint(email.toLowerCase())]. *)
Record AccountWorld := {
  signInWithGoogle : Settled CloudUser;
  signInWithEmail : string -> string -> Settled CloudUser;
  signUpWithEmail : string -> string -> Settled CloudUser;
  loadReports : string -> Settled (list AssessmentResult);
  fingerprintLowerCased : string -> Settled string;
  loadEncryptedAssessmentHistory :
    string -> string -> Settled (list AssessmentResult)
}.

(** A run of a handler: what it did, and how it settled. *)
Definition Run (A : Type) : Type := list AccountEvent * Settled A.

Definition finish {A : Type} (a : A) : Run A := ([], Fulfilled a).
Definition await {A : Type} (p : Settled A) : Run A := ([], p).
Definition fire (e : AccountEvent) : Run unit := ([e], Fulfilled tt).

Definition andThen {A B : Type} (c : Run A) (k : A -> Run B) : Run B :=
  match c with
  | (t, Fulfilled a) => let (t', r) := k a in (t ++ t', r)
  | (t, Rejected e) => (t, Rejected e)
  end.

(** [try { c } catch (e) { h e }] *)
Definition catching (c : Run unit) (h : ErrorValue -> Run unit) : Run unit :=
  match c with
  | (t, Rejected e) => let (t', r) := h e in (t ++ t', r)
  | settled => settled
  end.

Declare Scope run_scope.
Delimit Scope run_scope with run.
Notation "x <~ c ;; k" := (andThen c (fun x => k))
  (at level 100, c at next level, right associativity) : run_scope.
Notation "c ;;; k" := (andThen c (fun _ => k))
  (at level 100, right associativity) : run_scope.
Local Open Scope run_scope.

(** [{ provider: "firebase", userId: u.uid, email: u.email || "" }] *)
Definition cloudSession (u : CloudUser) : AuthSession :=
  {| auth_provider := firebase;
     userId := uid u;
     auth_email := default "" (truthyString (email u));
     password := None |}.

Definition continueWithGoogle (w : AccountWorld) : Run unit :=
  catching
    (u <~ await (signInWithGoogle w) ;;
     fire (AuthSet (cloudSession u)) ;;;
     arr <~ await (loadReports w (uid u)) ;;
     fire (HistorySet arr) ;;;
     fire (Toasted "Signed in with Google" None))
    (fun e => fire (Toasted "Google sign-in failed" (Some (formatAuthError e)))).

Definition cloudLogIn (w : AccountWorld) (authEmail authPassword : string)
    : Run unit :=
  catching
    (u <~ await (signInWithEmail w authEmail authPassword) ;;
     fire (AuthSet (cloudSession u)) ;;;
     arr <~ await (loadReports w (uid u)) ;;
     fire (HistorySet arr) ;;;
     fire (Toasted "Logged in" None))
    (fun e => fire (Toasted "Login failed" (Some (formatAuthError e)))).

Definition cloudSignUp (w : AccountWorld) (authEmail authPassword : string)
    : Run unit :=
  catching
    (u <~ await (signUpWithEmail w authEmail authPassword) ;;
     fire (AuthSet (cloudSession u)) ;;;
     fire (HistorySet []) ;;;
     fire (Toasted "Account created" None))
    (fun e => fire (Toasted "Sign up failed" (Some (formatAuthError e)))).

(** [!s] for a string. *)
Definition emptyText (s : string) : bool :=
  match s with
  | EmptyString => true
  | String _ _ => false
  end.

Definition handleAuthLogin (w : AccountWorld) (authEmail authPassword : string)
    : Run unit :=
  if emptyText authEmail || emptyText authPassword
  then fire (Toasted "Enter email and password" None)
  else
    anon <~ await (fingerprintLowerCased w authEmail) ;;
    fire (AuthSet {| auth_provider := local; userId := anon;
                     auth_email := authEmail;
                     password := Some authPassword |}) ;;;
    catching
      (arr <~ await (loadEncryptedAssessmentHistory w anon authPassword) ;;
       fire (HistorySet arr))
      (fun _ => finish tt) ;;;
    fire (Toasted "Signed in"
            (Some "Your reports will be stored encrypted under this login.")).

Definition handleAuthSignup := handleAuthLogin.

(** The buttons of the card while nobody is signed in. *)
Inductive Button :=
| ContinueWithGoogle
| CloudLogIn
| CloudSignUp
| LocalLogIn
| LocalSignUp.

Definition press (w : AccountWorld) (authEmail authPassword : string)
    (b : Button) : Run unit :=
  match b with
  | ContinueWithGoogle => continueWithGoogle w
  | CloudLogIn => cloudLogIn w authEmail authPassword
  | CloudSignUp => cloudSignUp w authEmail authPassword
  | LocalLogIn => handleAuthLogin w authEmail authPassword
  | LocalSignUp => handleAuthSignup w authEmail authPassword
  end.

(** The sign-in call a cloud button awaits. *)
Definition cloudAttempt (w : AccountWorld) (authEmail authPassword : string)
    (b : Button) : option (Settled CloudUser) :=
  match b with
  | ContinueWithGoogle => Some (signInWithGoogle w)
  | CloudLogIn => Some (signInWithEmail w authEmail authPassword)
  | CloudSignUp => Some (signUpWithEmail w authEmail authPassword)
  | LocalLogIn | LocalSignUp => None
  end.

Definition isToast (e : AccountEvent) : bool :=
  match e with
  | Toasted _ _ => true
  | _ => false
  end.

Definition sessionsSet (trace : list AccountEvent) : list AuthSession :=
  omap (fun e => match e with AuthSet a => Some a | _ => None end) trace.

Definition historiesSet (trace : list AccountEvent)
    : list (list AssessmentResult) :=
  omap (fun e => match e with HistorySet arr => Some arr | _ => None end) trace.

(** A world in which the cloud is out of reach and the device works. *)
Definition offlineAccountWorld : AccountWorld :=
  {| signInWithGoogle :=
       Rejected (ErrorObject (Some "Firebase: Error (auth/network-request-failed)."));
     signInWithEmail := fun _ _ =>
       Rejected (ErrorObject (Some "Firebase: Error (auth/network-request-failed)."));
     signUpWithEmail := fun _ _ =>
       Rejected (ErrorObject (Some "Firebase: Error (auth/network-request-failed)."));
     loadReports := fun _ => Rejected (ErrorString "offline");
     fingerprintLowerCased := fun e => Fulfilled ("anon-" +:+ e);
     loadEncryptedAssessmentHistory := fun _ _ => Fulfilled [] |}.

End Account.

(** ** A conversation with the chat widget *)

Module Conversation.
Import Chatbot.

(** [query] mentions [word], in whatever letter case. *)
Definition mentions (word query : string) : Prop :=
  exists before w after,
    query = before +:+ w +:+ after /\ upper w = upper word.

(** The answers [fallbackAnswer] can give. *)
Definition cannedAnswers : list string :=
  genericAnswer :: map (fun item => a item +:+ disclaimer) KB.

(** Typing [value] into the field ([onChange]) and sending it. *)
Definition typeAndSend (w : ChatWorld) (value : string) (st : ChatState)
    : ChatState * list RemoteCall :=
  handleSend w (setInput value st).

(** A conversation: each text is typed and sent once the run for the one
    before it is over. *)
Fixpoint converse (w : ChatWorld) (values : list string) (st : ChatState)
    : ChatState * list RemoteCall :=
  match values with
  | [] => (st, [])
  | value :: rest =>
      let '(st1, calls1) := typeAndSend w value st in
      let '(st2, calls2) := converse w rest st1 in
      (st2, calls1 ++ calls2)
  end.

(** The questions among the texts: trimmed, the blank ones left out. *)
Definition asked (values : list string) : list string :=
  List.filter truthyText (map trim values).

(** A question with its reply, as the transcript shows them. *)
Definition exchange (question reply : string) : list Msg :=
  [{| role := user; text := question |}; {| role := bot; text := reply |}].

(** The widget has no assistant to turn to: there is no API key, or an
    empty one, or the completion client fails whatever it is asked. *)
Definition unassisted (w : ChatWorld) : Prop :=
  VITE_DEEPSEEK_API_KEY w = None
  \/ VITE_DEEPSEEK_API_KEY w = Some ""
  \/ forall msgs max_tokens, chatDeepSeek w msgs max_tokens = None.

(** The history [callDeepSeek] sends along. *)
Definition historyMsgs (history : list Msg) : list ChatMessage :=
  map (fun m => {| cm_role := match role m with
                              | bot => assistant
                              | user => chat_user
                              end;
                   content := text m |}) history.

(** A world whose key is set and whose client is down. *)
Definition unreachableWorld : ChatWorld :=
  {| VITE_DEEPSEEK_API_KEY := Some "sk-test"; chatDeepSeek := fun _ _ => None |}.

End Conversation.

(** * Properties *)

(** ** Comparisons and extrema of numbers *)

Module NumFacts.
Import Num.

Lemma gtb_lt (a b : Q) : gtb a b = true <-> b < a.
Proof.
  unfold gtb. rewrite negb_true_iff.
  destruct (Qle_bool a b) eqn:E.
  - apply Qle_bool_iff in E. split; [discriminate | intros H; lra].
  - split; [intros _ | reflexivity].
    destruct (Qlt_le_dec b a) as [H | H]; [exact H |].
    apply Qle_bool_iff in H. congruence.
Qed.

Lemma gtb_le (a b : Q) : gtb a b = false <-> a <= b.
Proof.
  unfold gtb. rewrite negb_false_iff. apply Qle_bool_iff.
Qed.

Lemma truthy_false (a : Q) : truthy a = false <-> a == 0.
Proof.
  unfold truthy. rewrite negb_false_iff. apply Qeq_bool_iff.
Qed.

Lemma truthy_true (a : Q) : truthy a = true <-> ~ a == 0.
Proof.
  unfold truthy. rewrite negb_true_iff. split.
  - intros E H. apply Qeq_bool_iff in H. congruence.
  - intros H. destruct (Qeq_bool a 0) eqn:E; [| reflexivity].
    apply Qeq_bool_iff in E. contradiction.
Qed.

Lemma Math_min_cases (a b : Q) :
  (a <= b /\ Math_min a b == a) \/ (b <= a /\ Math_min a b == b).
Proof.
  unfold Math_min.
  destruct (Q.min_spec a b) as [[H E] | [H E]]; [left | right];
    split; try exact E; lra.
Qed.

Lemma Math_max_cases (a b : Q) :
  (a <= b /\ Math_max a b == b) \/ (b <= a /\ Math_max a b == a).
Proof.
  unfold Math_max.
  destruct (Q.max_spec a b) as [[H E] | [H E]]; [left | right];
    split; try exact E; lra.
Qed.

End NumFacts.

(** ** The heuristic estimator *)

Module HeuristicFacts.
Import Num NumFacts Assessment.

(** Splits the goal on which argument each extremum returns. *)
Ltac extremum_cases :=
  repeat match goal with
    | |- context [Math_max ?a ?b] =>
        let H := fresh "Hmax" in
        destruct (Math_max_cases a b) as [[H ->] | [H ->]]
    | |- context [Math_min ?a ?b] =>
        let H := fresh "Hmin" in
        destruct (Math_min_cases a b) as [[H ->] | [H ->]]
    end.

(** Turns the comparisons that guard a branch into inequalities. *)
Ltac comparison_cases :=
  repeat match goal with
    | |- context [gtb ?a ?b] =>
        let E := fresh "Hcmp" in
        destruct (gtb a b) eqn:E;
        [apply gtb_lt in E | apply gtb_le in E]
    end.

Lemma spec_normalized_min (score max : Q) :
  spec_normalized score max == Math_min 1 (score / max).
Proof.
  unfold spec_normalized. comparison_cases; extremum_cases; lra.
Qed.

Lemma spec_clamp_min_max (lo hi x : Q) :
  lo <= hi -> spec_clamp lo hi x == Math_min hi (Math_max lo x).
Proof.
  intros Hlh. unfold spec_clamp. comparison_cases; extremum_cases; lra.
Qed.

Lemma clampProbability_bounds (p : Q) :
  0.02 <= clampProbability p /\ clampProbability p <= 0.98.
Proof.
  unfold clampProbability. extremum_cases; lra.
Qed.

(** C1: for every sub-score tuple and every speech-duration map, the
    probability of the heuristic result is the specification's formula:
    each sub-score divided by its maximum (2, 4, 1, 1) and capped at 1, the
    unweighted mean of the four, and 1 − (0.7 × mean + 0.3 × coverage)
    clamped to [0.02, 0.98], where coverage is the estimator's coverage
    term.  The sub-scores are passed through unchanged. *)
Theorem heuristic_probability_formula (aid : string) (scores : CognitiveScores)
    (speechDurations : gmap string Q) (now : string) :
  let r := heuristicResult aid scores speechDurations now in
  probability r
    == spec_probability scores (speechCoverage SPEECH_TASKS speechDurations)
  /\ subScores r = scores.
Proof.
  split; [| reflexivity].
  unfold heuristicResult, spec_probability, spec_cognitive_aggregate; simpl.
  rewrite spec_clamp_min_max by lra.
  rewrite !spec_normalized_min.
  reflexivity.
Qed.

(** C5: the probability of the heuristic result lies in [0.02, 0.98] for
    every sub-score tuple (in particular for every tuple within the domain
    maxima) and every speech-duration map. *)
Theorem heuristic_probability_in_range (aid : string) (scores : CognitiveScores)
    (speechDurations : gmap string Q) (now : string) :
  0.02 <= probability (heuristicResult aid scores speechDurations now)
  /\ probability (heuristicResult aid scores speechDurations now) <= 0.98.
Proof.
  unfold heuristicResult; simpl. apply clampProbability_bounds.
Qed.

Lemma riskLevelOf_cases (p : Q) :
  (0.66 < p /\ riskLevelOf p = High)
  \/ (0.33 < p /\ p <= 0.66 /\ riskLevelOf p = Medium)
  \/ (p <= 0.33 /\ riskLevelOf p = Low).
Proof.
  unfold riskLevelOf.
  destruct (gtb p 0.66) eqn:E1.
  - apply gtb_lt in E1. left. split; [exact E1 | reflexivity].
  - apply gtb_le in E1. destruct (gtb p 0.33) eqn:E2.
    + apply gtb_lt in E2. right; left. repeat split; assumption.
    + apply gtb_le in E2. right; right. split; [exact E2 | reflexivity].
Qed.

(** C6: the risk level of a heuristic result is a function of its
    probability alone: High exactly when the probability exceeds 0.66,
    Medium exactly when it exceeds 0.33 without exceeding 0.66, Low
    otherwise; hence the level never decreases when the probability
    grows. *)
Theorem risk_level_thresholds_monotone (p1 p2 : Q) :
  (forall aid scores speechDurations now,
      riskLevel (heuristicResult aid scores speechDurations now)
      = riskLevelOf (probability (heuristicResult aid scores speechDurations now)))
  /\ (riskLevelOf p1 = High <-> 0.66 < p1)
  /\ (riskLevelOf p1 = Medium <-> 0.33 < p1 /\ p1 <= 0.66)
  /\ (riskLevelOf p1 = Low <-> p1 <= 0.33)
  /\ (p1 <= p2 -> (rank (riskLevelOf p1) <= rank (riskLevelOf p2))%nat).
Proof.
  split; [reflexivity |].
  destruct (riskLevelOf_cases p1) as [[H1 E1] | [[H1 [H1' E1]] | [H1 E1]]];
    rewrite E1.
  - repeat split; try discriminate; try lra; try (intros; exfalso; lra).
    intros Hle.
    destruct (riskLevelOf_cases p2) as [[H2 E2] | [[H2 [H2' E2]] | [H2 E2]]];
      rewrite E2; simpl; try lia; exfalso; lra.
  - repeat split; try discriminate; try lra; try (intros; exfalso; lra).
    intros Hle.
    destruct (riskLevelOf_cases p2) as [[H2 E2] | [[H2 [H2' E2]] | [H2 E2]]];
      rewrite E2; simpl; try lia; exfalso; lra.
  - repeat split; try discriminate; try lra; try (intros; exfalso; lra).
    intros Hle. simpl. lia.
Qed.

(** The thresholds at work: 0.66 itself is still Medium and 0.33 itself
    still Low. *)
Lemma risk_level_monotone_example :
  riskLevelOf 0.33 = Low /\ riskLevelOf 0.66 = Medium
  /\ (rank (riskLevelOf 0.5) <= rank (riskLevelOf 0.7))%nat.
Proof.
  split; [reflexivity | split; [reflexivity |]].
  apply (risk_level_thresholds_monotone 0.5 0.7).
  unfold Qle. simpl. lia.
Defined.

(** *** Speech coverage *)

Lemma Qsum_ext {A : Type} (f g : A -> Q) (l : list A) :
  (forall x, x ∈ l -> f x == g x) -> Qsum (map f l) == Qsum (map g l).
Proof.
  induction l as [| x l IH]; intros H; simpl; [reflexivity |].
  rewrite (H x) by apply list_elem_of_here.
  rewrite IH; [reflexivity |].
  intros y Hy. apply H. apply list_elem_of_further. exact Hy.
Qed.

(** The indexed reduction adds up one term per task. *)
Lemma reduce_coverageStep (pre es rs : list Q) (acc : Q) :
  length es = length rs ->
  reduce_from (coverageStep (pre ++ es)) (length pre) acc rs
  == acc + Qsum (zip_with coverageTerm es rs).
Proof.
  revert pre es acc.
  induction rs as [| b rs IH]; intros pre es acc Hlen.
  - destruct es; [| discriminate]. simpl. lra.
  - destruct es as [| e es]; [discriminate |]. simpl in Hlen.
    simpl reduce_from.
    replace (pre ++ e :: es) with ((pre ++ [e]) ++ es)
      by (rewrite <- app_assoc; reflexivity).
    replace (S (length pre)) with (length (pre ++ [e]))
      by (rewrite length_app; simpl; lia).
    rewrite IH by lia.
    unfold coverageStep.
    rewrite <- app_assoc. simpl.
    rewrite list_lookup_middle by reflexivity.
    simpl. unfold coverageTerm. lra.
Qed.

Lemma zip_with_map_same {A B C D : Type} (h : B -> C -> D) (f : A -> B)
    (g : A -> C) (l : list A) :
  zip_with h (map f l) (map g l) = map (fun x => h (f x) (g x)) l.
Proof.
  induction l as [| x l IH]; simpl; [reflexivity | now rewrite IH].
Qed.

(** On a non-empty task table the coverage is the sum of the per-task
    terms divided by the number of tasks in the table. *)
Lemma speechCoverage_sum (tasks : list SpeechTask)
    (speechDurations : gmap string Q) :
  tasks <> [] ->
  speechCoverage tasks speechDurations
  == Qsum (map (fun t => coverageTerm (expectedOf t)
                           (recordedOf speechDurations t)) tasks)
     / inject_Z (Z.of_nat (length tasks)).
Proof.
  intros Hne. unfold speechCoverage, recordedDurations, expectedDurations.
  rewrite length_map.
  destruct tasks as [| t tasks]; [congruence |].
  cbn [length]. unfold reduce.
  pose proof (reduce_coverageStep [] (map expectedOf (t :: tasks))
                (map (recordedOf speechDurations) (t :: tasks)) 0) as H.
  cbn [app length] in H. rewrite H by (now rewrite !length_map).
  rewrite zip_with_map_same. rewrite Qplus_0_l. reflexivity.
Qed.

(** With a non-negative maximum the term of the code is the capped ratio
    of the specification, and it is 0 when the maximum is 0. *)
Lemma coverageTerm_ratio (e d : Q) :
  0 <= e -> coverageTerm e (Math_min d e) == spec_ratio e d.
Proof.
  intros He. unfold coverageTerm, spec_ratio.
  destruct (truthy e) eqn:T.
  - apply truthy_true in T.
    assert (Hpos : 0 < e) by (destruct (Qlt_le_dec 0 e); [assumption | exfalso; apply T; lra]).
    destruct (Qeq_bool e 0) eqn:Z0;
      [apply Qeq_bool_iff in Z0; contradiction |].
    assert (Hone : e / e == 1) by (field; exact T).
    assert (Hup : d <= e -> d / e <= 1)
      by (intros; apply Qle_shift_div_r; [exact Hpos | lra]).
    assert (Hdn : e <= d -> 1 <= d / e)
      by (intros; apply Qle_shift_div_l; [exact Hpos | lra]).
    destruct (Math_min_cases d e) as [[H E] | [H E]];
      destruct (Math_min_cases 1 (d / e)) as [[H' E'] | [H' E']];
      rewrite E, E'.
    + apply Qle_antisym; [apply Hup; exact H | exact H'].
    + reflexivity.
    + exact Hone.
    + rewrite Hone. apply Qle_antisym; [apply Hdn; exact H | exact H'].
  - apply truthy_false in T.
    destruct (Qeq_bool e 0) eqn:Z0; [reflexivity |].
    apply Qeq_bool_iff in T. congruence.
Qed.

Lemma attempted_nonempty (tasks : list SpeechTask)
    (speechDurations : gmap string Q) :
  attempted speechDurations tasks <> [] -> tasks <> [].
Proof.
  intros H ->. apply H. reflexivity.
Qed.

(** C2, as stated, fails: with one task recorded at full length the mean
    over the attempted tasks is 1, the code divides by the three tasks of
    the table and yields 1/3. *)
Lemma coverage_is_not_mean_over_attempted :
  speechCoverage SPEECH_TASKS onlyPicture == 1 # 3
  /\ spec_coverage SPEECH_TASKS onlyPicture == 1
  /\ ~ speechCoverage SPEECH_TASKS onlyPicture
       == spec_coverage SPEECH_TASKS onlyPicture.
Proof.
  assert (E1 : speechCoverage SPEECH_TASKS onlyPicture == 1 # 3)
    by (vm_compute; reflexivity).
  assert (E2 : spec_coverage SPEECH_TASKS onlyPicture == 1)
    by (vm_compute; reflexivity).
  split; [exact E1 | split; [exact E2 |]].
  rewrite E1, E2. intros H. vm_compute in H. discriminate H.
Qed.

(** Over a non-empty table of tasks with non-negative maxima the coverage
    is the mean, over the whole table, of the capped per-task ratios. *)
Lemma speechCoverage_table (tasks : list SpeechTask)
    (speechDurations : gmap string Q) :
  Forall (fun t => 0 <= expectedOf t) tasks ->
  tasks <> [] ->
  speechCoverage tasks speechDurations == table_coverage tasks speechDurations.
Proof.
  intros Hpos Hne.
  rewrite speechCoverage_sum by exact Hne.
  unfold table_coverage.
  rewrite (Qsum_ext _ (fun t => spec_ratio (expectedOf t)
                        (default 0 (speechDurations !! st_id t)))).
  - reflexivity.
  - intros t Ht. unfold recordedOf. apply coverageTerm_ratio.
    rewrite Forall_forall in Hpos. apply Hpos. exact Ht.
Qed.

(** A task whose maximum is zero leaves the running sum as it is. *)
Lemma coverageStep_zero_maximum (expected : list Q) (acc b e : Q) (i : nat) :
  expected !! i = Some e -> e == 0 -> coverageStep expected acc b i == acc.
Proof.
  intros Hi He. unfold coverageStep. rewrite Hi.
  apply truthy_false in He. rewrite He. lra.
Qed.

Lemma SPEECH_TASKS_maxima : Forall (fun t => 0 <= expectedOf t) SPEECH_TASKS.
Proof.
  repeat constructor; vm_compute; discriminate.
Qed.

(** C2 (amended): the coverage term is 0.5 for an empty task table;
    otherwise, when at least one task of the table has a recording, it is
    the sum over all tasks of the table, divided by the size of the table,
    of the per-task ratio: the recorded duration (0 for a task without a
    recording) divided by the task's maximum and capped at 1.  In the
    reduction a task whose maximum is zero adds nothing to the sum. *)
Theorem coverage_is_mean_over_table (tasks : list SpeechTask)
    (speechDurations : gmap string Q) :
  (tasks = [] -> speechCoverage tasks speechDurations == 0.5)
  /\ (Forall (fun t => 0 <= expectedOf t) tasks ->
      attempted speechDurations tasks <> [] ->
      speechCoverage tasks speechDurations
      == table_coverage tasks speechDurations)
  /\ (forall acc b e i,
        expectedDurations tasks !! i = Some e -> e == 0 ->
        coverageStep (expectedDurations tasks) acc b i == acc).
Proof.
  split; [intros ->; reflexivity | split].
  - intros Hpos Hatt. apply speechCoverage_table; [exact Hpos |].
    eapply attempted_nonempty; exact Hatt.
  - intros acc b e i. apply coverageStep_zero_maximum.
Qed.

(** The amended statement at the fixed table, with one task recorded for
    half of its maximum: coverage is (0 + 1/2 + 0) / 3. *)
Lemma coverage_is_mean_over_table_example :
  speechCoverage SPEECH_TASKS halfStory == table_coverage SPEECH_TASKS halfStory.
Proof.
  apply (coverage_is_mean_over_table SPEECH_TASKS halfStory).
  - exact SPEECH_TASKS_maxima.
  - vm_compute. discriminate.
Defined.

(** With the fixed table the 0.5 of the empty table is never the result:
    without any recording the coverage is 0. *)
Lemma coverage_without_recordings : speechCoverage SPEECH_TASKS ∅ == 0.
Proof.
  rewrite (speechCoverage_table SPEECH_TASKS ∅ SPEECH_TASKS_maxima)
    by discriminate.
  vm_compute. reflexivity.
Qed.

(** *** The ends of the probability range *)

Lemma clampProbability_proper (p p' : Q) :
  p == p' -> clampProbability p == clampProbability p'.
Proof.
  intros E. unfold clampProbability, Math_min, Math_max. now rewrite E.
Qed.

(** With all four sub-scores zero and a coverage of zero the probability
    is 0.98. *)
Theorem zero_performance_probability (aid : string)
    (speechDurations : gmap string Q) (now : string) :
  speechCoverage SPEECH_TASKS speechDurations == 0 ->
  probability (heuristicResult aid zeroScores speechDurations now) == 0.98
  /\ riskLevel (heuristicResult aid zeroScores speechDurations now) = High.
Proof.
  intros Hcov.
  assert (E : probability (heuristicResult aid zeroScores speechDurations now)
              == 0.98).
  { unfold heuristicResult; cbn [probability].
    rewrite (clampProbability_proper _ 1).
    - vm_compute. reflexivity.
    - rewrite Hcov. vm_compute. reflexivity. }
  split; [exact E |].
  unfold heuristicResult in *; cbn [probability riskLevel] in *.
  destruct (riskLevelOf_cases
              (clampProbability
                 (1 - (0.7 * ((Math_min 1 (memoryScore zeroScores / memoryScore domainMax)
                               + Math_min 1 (attentionScore zeroScores / attentionScore domainMax)
                               + Math_min 1 (languageScore zeroScores / languageScore domainMax)
                               + Math_min 1 (executiveScore zeroScores / executiveScore domainMax)) / 4)
                       + 0.3 * speechCoverage SPEECH_TASKS speechDurations))))
    as [[H1 E1] | [[H1 [H1' E1]] | [H1 E1]]]; try exact E1; exfalso; lra.
Qed.

Lemma zero_performance_probability_example :
  probability (heuristicResult "assessment-1" zeroScores silentRecordings
                 "2025-01-01T00:00:00.000Z") == 0.98
  /\ riskLevel (heuristicResult "assessment-1" zeroScores silentRecordings
                  "2025-01-01T00:00:00.000Z") = High.
Proof.
  apply (zero_performance_probability "assessment-1" silentRecordings).
  vm_compute. reflexivity.
Defined.

(** The ratio of a recording at least as long as a positive maximum is 1. *)
Lemma spec_ratio_full (e d : Q) : 0 < e -> e <= d -> spec_ratio e d == 1.
Proof.
  intros Hpos Hle. unfold spec_ratio.
  destruct (Qeq_bool e 0) eqn:Z0; [apply Qeq_bool_iff in Z0; lra |].
  assert (Hdn : 1 <= d / e) by (apply Qle_shift_div_l; [exact Hpos | lra]).
  destruct (Math_min_cases 1 (d / e)) as [[H ->] | [H ->]];
    [reflexivity | lra].
Qed.

(** With every sub-score at its maximum (2, 4, 1, 1) and every task
    recorded for at least its maximum duration the probability is 0.02. *)
Theorem full_performance_probability (aid : string)
    (speechDurations : gmap string Q) (now : string) :
  (forall t, t ∈ SPEECH_TASKS ->
     exists d, speechDurations !! st_id t = Some d /\ expectedOf t <= d) ->
  probability (heuristicResult aid domainMax speechDurations now) == 0.02
  /\ riskLevel (heuristicResult aid domainMax speechDurations now) = Low.
Proof.
  intros Hfull.
  assert (Hcov : speechCoverage SPEECH_TASKS speechDurations == 1).
  { rewrite (speechCoverage_table SPEECH_TASKS speechDurations
               SPEECH_TASKS_maxima) by discriminate.
    unfold table_coverage.
    rewrite (Qsum_ext _ (fun _ => 1)).
    - vm_compute. reflexivity.
    - intros t Ht. destruct (Hfull t Ht) as (d & -> & Hd). cbn [default].
      apply spec_ratio_full; [| exact Hd].
      unfold SPEECH_TASKS in Ht.
      repeat (apply elem_of_cons in Ht as [-> | Ht];
              [vm_compute; reflexivity |]).
      inversion Ht. }
  assert (E : probability (heuristicResult aid domainMax speechDurations now)
              == 0.02).
  { unfold heuristicResult; cbn [probability].
    rewrite (clampProbability_proper _ 0).
    - vm_compute. reflexivity.
    - rewrite Hcov. vm_compute. reflexivity. }
  split; [exact E |].
  unfold heuristicResult in *; cbn [probability riskLevel] in *.
  destruct (riskLevelOf_cases
              (clampProbability
                 (1 - (0.7 * ((Math_min 1 (memoryScore domainMax / memoryScore domainMax)
                               + Math_min 1 (attentionScore domainMax / attentionScore domainMax)
                               + Math_min 1 (languageScore domainMax / languageScore domainMax)
                               + Math_min 1 (executiveScore domainMax / executiveScore domainMax)) / 4)
                       + 0.3 * speechCoverage SPEECH_TASKS speechDurations))))
    as [[H1 E1] | [[H1 [H1' E1]] | [H1 E1]]]; try exact E1; exfalso; lra.
Qed.

Lemma full_performance_probability_example :
  probability (heuristicResult "assessment-1" domainMax fullRecordings
                 "2025-01-01T00:00:00.000Z") == 0.02
  /\ riskLevel (heuristicResult "assessment-1" domainMax fullRecordings
                  "2025-01-01T00:00:00.000Z") = Low.
Proof.
  apply (full_performance_probability "assessment-1" fullRecordings).
  intros t Ht. unfold SPEECH_TASKS in Ht.
  repeat (apply elem_of_cons in Ht as [-> | Ht];
          [eexists; split; [vm_compute; reflexivity | vm_compute; discriminate] |]).
  inversion Ht.
Defined.

End HeuristicFacts.
(** ** Task generation *)

Module GeneratorFacts.
Import Assessment.

(** *** The shuffle rearranges, and reaches every rearrangement *)

Lemma insertAt_perm {T : Type} (n : nat) (x : T) (l : list T) :
  insertAt n x l ≡ₚ x :: l.
Proof.
  revert n. induction l as [| y l IH]; intros [| n]; simpl; try reflexivity.
  rewrite IH. apply Permutation_swap.
Qed.

Lemma shuffleWith_perm {T : Type} (code : list nat) (arr : list T) :
  shuffleWith code arr ≡ₚ arr.
Proof.
  revert code. induction arr as [| x arr IH]; intros code; simpl.
  - reflexivity.
  - destruct code as [| c code].
    + now rewrite IH.
    + rewrite insertAt_perm. now rewrite IH.
Qed.

Lemma insertAt_middle {T : Type} (x : T) (l1 l2 : list T) :
  insertAt (length l1) x (l1 ++ l2) = l1 ++ x :: l2.
Proof.
  induction l1 as [| y l1 IH]; simpl.
  - destruct l2; reflexivity.
  - now rewrite IH.
Qed.

(** Every rearrangement of [arr] is the outcome of some draw. *)
Lemma shuffleWith_complete {T : Type} (arr p : list T) :
  p ≡ₚ arr -> exists code, shuffleWith code arr = p.
Proof.
  revert p. induction arr as [| x arr IH]; intros p Hp.
  - apply Permutation_nil_r in Hp. subst p. exists []. reflexivity.
  - symmetry in Hp. apply Permutation_cons_inv_l in Hp as (p1 & p2 & -> & Hp).
    destruct (IH (p1 ++ p2)) as [code Hcode]; [now symmetry |].
    exists (length p1 :: code). simpl. rewrite Hcode. apply insertAt_middle.
Qed.

Lemma shuffle_returns {T : Type} (arr : list T) (src : RandomSource) :
  exists arr' src', shuffle arr src = (Normal arr', src') /\ arr' ≡ₚ arr.
Proof.
  destruct src as [| code src]; simpl.
  - exists arr, []. split; reflexivity.
  - exists (shuffleWith code arr), src. split; [reflexivity |].
    apply shuffleWith_perm.
Qed.

(** *** [indexOf] and indexing *)

Lemma indexOfFrom_found (x : string) (arr : list string) (i : Z) :
  x ∈ arr ->
  exists n : nat,
    indexOfFrom i x arr = (i + Z.of_nat n)%Z /\ arr !! n = Some x.
Proof.
  revert i. induction arr as [| y arr IH]; intros i Hin.
  - inversion Hin.
  - simpl. destruct (decide (y = x)) as [-> | Hne].
    + exists 0%nat. split; [lia | reflexivity].
    + apply elem_of_cons in Hin as [-> | Hin]; [congruence |].
      destruct (IH (i + 1)%Z Hin) as (n & E & L).
      exists (S n). split; [rewrite E; lia | exact L].
Qed.

Lemma indexOfFrom_missing (x : string) (arr : list string) (i : Z) :
  x ∉ arr -> indexOfFrom i x arr = (-1)%Z.
Proof.
  revert i. induction arr as [| y arr IH]; intros i Hnin; simpl.
  - reflexivity.
  - apply not_elem_of_cons in Hnin as [Hne Hnin].
    destruct (decide (y = x)); [congruence | now apply IH].
Qed.

Lemma indexOf_found (arr : list string) (x : string) :
  x ∈ arr ->
  (0 <= indexOf arr x < Z.of_nat (length arr))%Z
  /\ arrayGet arr (indexOf arr x) = Some x.
Proof.
  intros Hin. unfold indexOf.
  destruct (indexOfFrom_found x arr 0 Hin) as (n & E & L).
  rewrite E. apply lookup_lt_Some in L as Hlt.
  split; [lia |].
  unfold arrayGet. rewrite decide_True by lia.
  replace (Z.to_nat (0 + Z.of_nat n)) with n by lia. exact L.
Qed.

(** Reading the options at the recorded indices gives the items back. *)
Lemma lookup_indexOf_all (opts items : list string) :
  (forall x, x ∈ items -> x ∈ opts) ->
  mapM (arrayGet opts) (map (indexOf opts) items) = Some items.
Proof.
  intros Hsub. apply mapM_Some.
  induction items as [| x items IH]; simpl; constructor.
  - apply indexOf_found. apply Hsub. apply list_elem_of_here.
  - apply IH. intros y Hy. apply Hsub. now apply list_elem_of_further.
Qed.

(** *** Running the generator *)

Lemma bind_normal {A B : Type} (c : Gen A) (k : A -> Gen B)
    (src src' : RandomSource) (a : A) :
  c src = (Normal a, src') -> bind c k src = k a src'.
Proof.
  intros E. unfold bind. now rewrite E.
Qed.

Lemma makeWordRecallTask_returns (id title : string) (words : list string)
    (src : RandomSource) :
  exists opts src',
    opts ≡ₚ words
    /\ makeWordRecallTask id title words src
       = (Normal {| ct_id := id;
                    ct_type := word_recall;
                    ct_title := title;
                    ct_description :=
                      "Remember the list of words and tap them in the same order after Begin.";
                    ct_prompt := "Remember the words: " +:+ join ", " words +:+ ".";
                    options := Some opts;
                    correctAnswer := None;
                    sequenceAnswer := Some (map (indexOf opts) words) |}, src').
Proof.
  destruct (shuffle_returns words src) as (opts & src' & E & Hp).
  exists opts, src'. split; [exact Hp |].
  unfold makeWordRecallTask. rewrite (bind_normal _ _ _ _ _ E). reflexivity.
Qed.

Lemma word_task_reconstructs (id title d : string) (words opts : list string) :
  opts ≡ₚ words ->
  reconstructsPrompt
    {| ct_id := id; ct_type := word_recall; ct_title := title;
       ct_description := d;
       ct_prompt := "Remember the words: " +:+ join ", " words +:+ ".";
       options := Some opts; correctAnswer := None;
       sequenceAnswer := Some (map (indexOf opts) words) |} = true.
Proof.
  intros Hp. unfold reconstructsPrompt, recalled. cbn [options sequenceAnswer].
  rewrite lookup_indexOf_all.
  - cbn [ct_type ct_prompt listPrompt]. now apply bool_decide_eq_true.
  - intros x Hx. now rewrite Hp.
Qed.

(** *** The set of option digits *)

Lemma setFrom_elem (seen xs : list nat) (x : nat) :
  x ∈ setFrom seen xs <-> x ∈ xs /\ x ∉ seen.
Proof.
  revert seen. induction xs as [| y xs IH]; intros seen; simpl.
  - split; [intros H; inversion H | intros [H _]; inversion H].
  - destruct (decide (y ∈ seen)) as [Hy | Hy].
    + rewrite IH, elem_of_cons. split.
      * intros [H1 H2]. split; [right; exact H1 | exact H2].
      * intros [[-> | H1] H2]; [contradiction | split; assumption].
    + rewrite !elem_of_cons, IH, not_elem_of_cons. split.
      * intros [-> | [H1 [H2 H3]]]; [split; [now left | exact Hy] |].
        split; [now right | exact H3].
      * intros [[-> | H1] H2]; [now left |].
        destruct (decide (x = y)) as [-> | Hne]; [now left | right].
        repeat split; assumption.
Qed.

Lemma setFrom_NoDup (seen xs : list nat) : NoDup (setFrom seen xs).
Proof.
  revert seen. induction xs as [| y xs IH]; intros seen; simpl.
  - constructor.
  - destruct (decide (y ∈ seen)); [apply IH |].
    apply NoDup_cons. split; [| apply IH].
    rewrite setFrom_elem, not_elem_of_cons. intros [_ [H _]]. congruence.
Qed.

Lemma arrayFromSet_elem (xs : list nat) (x : nat) :
  x ∈ arrayFromSet xs <-> x ∈ xs.
Proof.
  unfold arrayFromSet. rewrite setFrom_elem. split; [now intros [H _] |].
  intros H. split; [exact H | apply not_elem_of_nil].
Qed.

Lemma arrayFromSet_length (digits extra : list nat) :
  NoDup digits ->
  (length digits <= length (arrayFromSet (digits ++ extra))
   <= length digits + length extra)%nat.
Proof.
  intros Hnd. split.
  - apply submseteq_length, NoDup_submseteq; [exact Hnd |].
    intros x Hx. apply arrayFromSet_elem, elem_of_app. now left.
  - rewrite <- length_app.
    apply submseteq_length, NoDup_submseteq; [apply setFrom_NoDup |].
    intros x Hx. now apply arrayFromSet_elem.
Qed.

Lemma makeDigitSpanTask_returns (id title : string) (digits : list nat)
    (src : RandomSource) :
  exists distractors pool src',
    distractors ≡ₚ [0; 1; 2; 3; 4; 5; 6; 7; 8; 9]%nat
    /\ pool ≡ₚ arrayFromSet (digits ++ take 5 distractors)
    /\ makeDigitSpanTask id title digits src
       = (Normal {| ct_id := id;
                    ct_type := digit_span;
                    ct_title := title;
                    ct_description := "Tap the digits in the exact order after Begin.";
                    ct_prompt := join ", " (map stringOfNumber digits);
                    options := Some (map stringOfNumber pool);
                    correctAnswer := None;
                    sequenceAnswer :=
                      Some (map (fun d => indexOf (map stringOfNumber pool)
                                            (stringOfNumber d)) digits) |},
          src').
Proof.
  destruct (shuffle_returns [0; 1; 2; 3; 4; 5; 6; 7; 8; 9]%nat src)
    as (distractors & src1 & E1 & Hp1).
  destruct (shuffle_returns (arrayFromSet (digits ++ take 5 distractors)) src1)
    as (pool & src2 & E2 & Hp2).
  exists distractors, pool, src2. split; [exact Hp1 | split; [exact Hp2 |]].
  unfold makeDigitSpanTask.
  rewrite (bind_normal _ _ _ _ _ E1), (bind_normal _ _ _ _ _ E2). reflexivity.
Qed.

Lemma digit_in_pool (digits extra pool : list nat) (d : nat) :
  pool ≡ₚ arrayFromSet (digits ++ extra) -> d ∈ digits ->
  stringOfNumber d ∈ map stringOfNumber pool.
Proof.
  intros Hp Hd. apply list_elem_of_fmap_2. rewrite Hp.
  apply arrayFromSet_elem, elem_of_app. now left.
Qed.

Lemma digit_task_reconstructs (id title d : string) (digits extra pool : list nat) :
  pool ≡ₚ arrayFromSet (digits ++ extra) ->
  reconstructsPrompt
    {| ct_id := id; ct_type := digit_span; ct_title := title;
       ct_description := d;
       ct_prompt := join ", " (map stringOfNumber digits);
       options := Some (map stringOfNumber pool); correctAnswer := None;
       sequenceAnswer :=
         Some (map (fun d => indexOf (map stringOfNumber pool)
                               (stringOfNumber d)) digits) |} = true.
Proof.
  intros Hp. unfold reconstructsPrompt, recalled. cbn [options sequenceAnswer].
  rewrite <- (map_map stringOfNumber (indexOf (map stringOfNumber pool))).
  rewrite lookup_indexOf_all.
  - cbn [ct_type ct_prompt listPrompt]. now apply bool_decide_eq_true.
  - intros x Hx. apply list_elem_of_fmap in Hx as (n & -> & Hn).
    eapply digit_in_pool; eassumption.
Qed.

(** *** Digit-span tasks *)

(** C9: a digit-span task built from distinct digits always returns; its
    options contain every prompted digit, so every entry of the correct
    sequence is an index into the options (at least 0, never -1), one entry
    per prompted digit; the options number at least as many as the prompted
    digits and at most five more. *)
Theorem digit_span_indices_valid (id title : string) (digits : list nat)
    (src : RandomSource) :
  NoDup digits ->
  exists t src' opts sequence,
    makeDigitSpanTask id title digits src = (Normal t, src')
    /\ options t = Some opts
    /\ sequenceAnswer t = Some sequence
    /\ (forall d, d ∈ digits -> stringOfNumber d ∈ opts)
    /\ indicesValid t
    /\ length sequence = length digits
    /\ (length digits <= length opts <= length digits + 5)%nat.
Proof.
  intros Hnd.
  destruct (makeDigitSpanTask_returns id title digits src)
    as (distractors & pool & src' & Hd & Hp & E).
  eexists _, src', _, _. split; [exact E |].
  cbn [options sequenceAnswer].
  split; [reflexivity | split; [reflexivity |]].
  assert (Hin : forall d, d ∈ digits ->
                  stringOfNumber d ∈ map stringOfNumber pool)
    by (intros d; eapply digit_in_pool; exact Hp).
  split; [exact Hin | split; [| split]].
  - unfold indicesValid. cbn [options sequenceAnswer].
    apply Forall_forall. intros k Hk.
    apply list_elem_of_fmap in Hk as (d & -> & Hd').
    apply indexOf_found, Hin, Hd'.
  - apply length_map.
  - rewrite length_map, Hp.
    pose proof (arrayFromSet_length digits (take 5 distractors) Hnd) as [L U].
    split; [exact L |].
    assert (length (take 5 distractors) <= 5)%nat
      by (rewrite length_take; lia).
    lia.
Qed.

(** The first digit-span task of the generator, on a source whose first
    draw puts the distractors 3, 9, 1, 4, 7 in front. *)
Lemma digit_span_indices_valid_example :
  exists t src' opts sequence,
    makeDigitSpanTask "digit-span" "Digit Span" [3; 9; 1; 4; 7]%nat
      [[5; 2; 4; 0; 1; 2; 2; 1; 1; 0]%nat] = (Normal t, src')
    /\ options t = Some opts
    /\ sequenceAnswer t = Some sequence
    /\ (forall d, d ∈ [3; 9; 1; 4; 7]%nat -> stringOfNumber d ∈ opts)
    /\ indicesValid t
    /\ length sequence = length [3; 9; 1; 4; 7]%nat
    /\ (length [3; 9; 1; 4; 7]%nat <= length opts
        <= length [3; 9; 1; 4; 7]%nat + 5)%nat.
Proof.
  apply (digit_span_indices_valid "digit-span" "Digit Span" [3; 9; 1; 4; 7]%nat).
  apply (bool_decide_unpack _). vm_compute. exact I.
Defined.

(** Both ends of the range of the options' length are reached: five
    options when the distractors are the prompted digits themselves, ten
    when none of them is. *)
Lemma digit_span_options_length_extremes :
  (options <$> outcome_value
     (makeDigitSpanTask "digit-span" "Digit Span" [3; 9; 1; 4; 7]%nat
        [[5; 2; 4; 0; 1; 2; 2; 1; 1; 0]%nat]))
  = Some (Some ["3"; "9"; "1"; "4"; "7"])
  /\ (length <$> (outcome_value
        (makeDigitSpanTask "digit-span" "Digit Span" [3; 9; 1; 4; 7]%nat
           [[0; 4; 0; 3; 3; 0; 0; 1; 0; 0]%nat]) ≫= options))
     = Some 10%nat.
Proof.
  split; vm_compute; reflexivity.
Qed.

(** *** The task set *)

(** Which value the lexicon lookup yields. *)
Lemma getLexicon_inherited (language : string) :
  language ∈ Object_prototype_names ->
  WORDS_BY_LANG !! language = None
  /\ getLexicon language = PrototypeMember language.
Proof.
  intros H. unfold Object_prototype_names in H.
  repeat (apply elem_of_cons in H as [-> | H]; [split; reflexivity |]).
  inversion H.
Qed.

Lemma getLexicon_resolves (language : string) :
  language ∉ Object_prototype_names ->
  exists lex,
    nullish (getLexicon language) (getLexicon "en") = WordList lex
    /\ lex = default WORDS_en (WORDS_BY_LANG !! language).
Proof.
  intros H. unfold getLexicon at 1.
  destruct (WORDS_BY_LANG !! language) as [ws |] eqn:E.
  - exists ws. split; reflexivity.
  - rewrite decide_False by exact H. exists WORDS_en. split; reflexivity.
Qed.

(** Whenever the lookup (after the fallback) yields a word list, the
    generator returns seven tasks in the fixed arrangement, with the
    properties of its four list-recall tasks. *)
Lemma generateCognitiveTasks_returns (language : string) (lex : list string)
    (src : RandomSource) :
  nullish (getLexicon language) (getLexicon "en") = WordList lex ->
  exists word1 digit1 word2 digit2 src',
    generateCognitiveTasks language src
    = (Normal [word1; digit1; attention1; word2; digit2; visualSearch; clock],
       src')
    /\ ct_type word1 = word_recall /\ ct_type word2 = word_recall
    /\ ct_type digit1 = digit_span /\ ct_type digit2 = digit_span
    /\ shareNoWord word1 word2
    /\ reconstructsPrompt word1 = true /\ reconstructsPrompt word2 = true
    /\ reconstructsPrompt digit1 = true /\ reconstructsPrompt digit2 = true.
Proof.
  intros Hlex. unfold generateCognitiveTasks. rewrite Hlex.
  destruct (shuffle_returns lex src) as (sa & s1 & E1 & P1).
  rewrite (bind_normal _ _ _ _ _ E1). cbv beta zeta.
  destruct (shuffle_returns (filter (fun w => w ∉ take 5 sa) lex) s1)
    as (sb & s2 & E2 & P2).
  rewrite (bind_normal _ _ _ _ _ E2). cbv beta zeta.
  destruct (makeWordRecallTask_returns "word-recall" "Word Recall"
              (take 5 sa) s2) as (o1 & s3 & Q1 & E3).
  rewrite (bind_normal _ _ _ _ _ E3). cbv beta zeta.
  destruct (makeWordRecallTask_returns "word-recall-2" "Word Recall II"
              (take 5 sb) s3) as (o2 & s4 & Q2 & E4).
  rewrite (bind_normal _ _ _ _ _ E4). cbv beta zeta.
  destruct (makeDigitSpanTask_returns "digit-span" "Digit Span"
              [3; 9; 1; 4; 7]%nat s4) as (d1 & p1 & s5 & _ & R1 & E5).
  rewrite (bind_normal _ _ _ _ _ E5). cbv beta zeta.
  destruct (makeDigitSpanTask_returns "digit-span-reverse"
              "Digit Span (Reverse)" [7; 2; 9; 3]%nat s5)
    as (d2 & p2 & s6 & _ & R2 & E6).
  rewrite (bind_normal _ _ _ _ _ E6). cbv beta zeta.
  eexists _, _, _, _, s6. split; [reflexivity |].
  repeat (split; [reflexivity |]).
  split; [| repeat split].
  - unfold shareNoWord. cbn [options]. intros w Hw1 Hw2.
    rewrite Q1 in Hw1. rewrite Q2 in Hw2.
    apply subseteq_take in Hw2. rewrite P2 in Hw2.
    apply list_elem_of_filter in Hw2 as [Hnot _]. contradiction.
  - now apply word_task_reconstructs.
  - now apply word_task_reconstructs.
  - eapply digit_task_reconstructs; exact R1.
  - eapply digit_task_reconstructs; exact R2.
Qed.

(** For every language code other than the names [Object.prototype]
    defines, task generation returns exactly seven tasks; the two
    word-recall tasks share no word; and reading each list-recall task's
    options by its correct sequence, position by position, gives back the
    items of its prompt in the order of the prompt. *)
Theorem generated_tasks_well_formed (language : string) (src : RandomSource) :
  language ∉ Object_prototype_names ->
  exists word1 digit1 word2 digit2 src',
    generateCognitiveTasks language src
    = (Normal [word1; digit1; attention1; word2; digit2; visualSearch; clock],
       src')
    /\ length [word1; digit1; attention1; word2; digit2; visualSearch; clock]
       = 7%nat
    /\ ct_type word1 = word_recall /\ ct_type word2 = word_recall
    /\ ct_type digit1 = digit_span /\ ct_type digit2 = digit_span
    /\ shareNoWord word1 word2
    /\ reconstructsPrompt word1 = true /\ reconstructsPrompt word2 = true
    /\ reconstructsPrompt digit1 = true /\ reconstructsPrompt digit2 = true
    /\ sequenceAnswer attention1 = None /\ sequenceAnswer visualSearch = None
    /\ sequenceAnswer clock = None.
Proof.
  intros Hnot.
  destruct (getLexicon_resolves language Hnot) as (lex & Hlex & _).
  destruct (generateCognitiveTasks_returns language lex src Hlex)
    as (w1 & d1 & w2 & d2 & src' & Hrun & T1 & T2 & T3 & T4 & Hdis
        & R1 & R2 & R3 & R4).
  exists w1, d1, w2, d2, src'.
  repeat split; assumption.
Qed.

Lemma generated_tasks_well_formed_example :
  exists word1 digit1 word2 digit2 src',
    generateCognitiveTasks "hi" [[3; 1; 4; 1; 5; 9; 2; 6; 5; 3; 5]%nat]
    = (Normal [word1; digit1; attention1; word2; digit2; visualSearch; clock],
       src')
    /\ length [word1; digit1; attention1; word2; digit2; visualSearch; clock]
       = 7%nat
    /\ ct_type word1 = word_recall /\ ct_type word2 = word_recall
    /\ ct_type digit1 = digit_span /\ ct_type digit2 = digit_span
    /\ shareNoWord word1 word2
    /\ reconstructsPrompt word1 = true /\ reconstructsPrompt word2 = true
    /\ reconstructsPrompt digit1 = true /\ reconstructsPrompt digit2 = true
    /\ sequenceAnswer attention1 = None /\ sequenceAnswer visualSearch = None
    /\ sequenceAnswer clock = None.
Proof.
  apply (generated_tasks_well_formed "hi").
  apply (bool_decide_unpack _). vm_compute. exact I.
Defined.

(** A language code the lexicon does not own and [Object.prototype] does
    not define is served exactly as English is, draw for draw. *)
Theorem unknown_language_generates_as_english (language : string)
    (src : RandomSource) :
  WORDS_BY_LANG !! language = None ->
  language ∉ Object_prototype_names ->
  generateCognitiveTasks language src = generateCognitiveTasks "en" src
  /\ exists tasks src',
       generateCognitiveTasks language src = (Normal tasks, src')
       /\ length tasks = 7%nat.
Proof.
  intros Hnone Hnot.
  assert (E : nullish (getLexicon language) (getLexicon "en")
              = WordList WORDS_en).
  { destruct (getLexicon_resolves language Hnot) as (lex & -> & ->).
    now rewrite Hnone. }
  split.
  - unfold generateCognitiveTasks. rewrite E. reflexivity.
  - destruct (generateCognitiveTasks_returns language WORDS_en src E)
      as (w1 & d1 & w2 & d2 & src' & -> & _).
    eexists _, src'. split; reflexivity.
Qed.

Lemma unknown_language_generates_as_english_example :
  generateCognitiveTasks "xx" [] = generateCognitiveTasks "en" []
  /\ exists tasks src',
       generateCognitiveTasks "xx" [] = (Normal tasks, src')
       /\ length tasks = 7%nat.
Proof.
  apply (unknown_language_generates_as_english "xx" []).
  - reflexivity.
  - apply (bool_decide_unpack _). vm_compute. exact I.
Defined.

(** C4 fails on the code: for the language code "constructor" the lookup
    in the lexicon object finds the member inherited from
    [Object.prototype], the fallback to English is not taken, and the
    generator throws before it produces any task. *)
Theorem generation_throws_for_constructor (src : RandomSource) :
  getLexicon "constructor" = PrototypeMember "constructor"
  /\ generateCognitiveTasks "constructor" src = (Throw TypeError, src)
  /\ outcome_value (generateCognitiveTasks "constructor" src) = None.
Proof.
  destruct (getLexicon_inherited "constructor") as [_ E].
  { unfold Object_prototype_names. apply list_elem_of_here. }
  split; [exact E |].
  unfold outcome_value, generateCognitiveTasks. rewrite E.
  split; reflexivity.
Qed.

(** C8 fails on the code: each name that [Object.prototype] defines is a
    language code the lexicon does not own, yet for it the generator
    throws, where for English it returns. *)
Theorem fallback_missed_for_inherited_names :
  Forall (fun language =>
            WORDS_BY_LANG !! language = None
            /\ forall src,
                 outcome (generateCognitiveTasks language) src = Throw TypeError
                 /\ outcome (generateCognitiveTasks "en") src <> Throw TypeError)
         Object_prototype_names.
Proof.
  apply Forall_forall. intros language Hin.
  destruct (getLexicon_inherited language Hin) as [Hnone E].
  split; [exact Hnone |]. intros src. split.
  - unfold outcome, generateCognitiveTasks. rewrite E. reflexivity.
  - destruct (generateCognitiveTasks_returns "en" WORDS_en src eq_refl)
      as (w1 & d1 & w2 & d2 & src' & Hrun & _).
    unfold outcome. rewrite Hrun. discriminate.
Qed.

End GeneratorFacts.
(** ** The remote scoring path *)

Module PollingFacts.
Import Assessment.

Local Open Scope nat_scope.

Lemma swallowed_call (e : Event) (b : bool) :
  tryCatch (call e (ok b)) (fun _ => eret tt) = ([e], Normal tt).
Proof.
  destruct b; reflexivity.
Qed.

Lemma fetches_app (t1 t2 : list Event) :
  fetches (t1 ++ t2) = fetches t1 + fetches t2.
Proof.
  unfold fetches. now rewrite List.filter_app, length_app.
Qed.

(** The collaborators are fixed while one run lasts. *)
Section OneRun.
Context (w : World).

Lemma persistResult_normal (s : Session) (u : User)
    (r : AssessmentResult) :
  snd (persistResult w s u r) = Normal tt
  /\ fetches (fst (persistResult w s u r)) = 0.
Proof.
  unfold persistResult.
  destruct (session_auth s) as [[|] |], (save_ok w), (load_ok w);
    split; reflexivity.
Qed.

Lemma pollOnce_cases (i : nat) :
  pollOnce w i
  = match fetchAssessmentResult_at w i with
    | Some r => ([FetchAssessmentResult], Normal (Some r))
    | None => ([FetchAssessmentResult; Sleep 1000], Normal None)
    end.
Proof.
  unfold pollOnce. destruct (fetchAssessmentResult_at w i); reflexivity.
Qed.

(** The loop never throws and makes at most [remaining] attempts. *)
Lemma pollFrom_normal (remaining i : nat) :
  exists t fetched,
    pollFrom w remaining i = (t, Normal fetched) /\ fetches t <= remaining.
Proof.
  revert i. induction remaining as [| n IH]; intros i.
  - exists [], None. split; [reflexivity | apply Nat.le_refl].
  - cbn [pollFrom]. rewrite pollOnce_cases.
    destruct (fetchAssessmentResult_at w i) as [r |].
    + exists [FetchAssessmentResult], (Some r).
      split; [reflexivity | cbn; lia].
    + destruct (IH (S i)) as (t & fetched & E & Hle).
      exists ([FetchAssessmentResult; Sleep 1000] ++ t), fetched.
      split.
      * cbn [ebind]. rewrite E. reflexivity.
      * cbn. unfold fetches in Hle. lia.
Qed.

(** When every remaining attempt fails, each is followed by its sleep and
    nothing is fetched. *)
Lemma pollFrom_all_fail (remaining i : nat) :
  (forall j, i <= j < i + remaining -> fetchAssessmentResult_at w j = None) ->
  pollFrom w remaining i = (failedAttempts remaining, Normal None).
Proof.
  revert i. induction remaining as [| n IH]; intros i Hfail.
  - reflexivity.
  - cbn [pollFrom]. rewrite pollOnce_cases, (Hfail i) by lia.
    cbn [ebind]. rewrite (IH (S i)) by (intros j Hj; apply Hfail; lia).
    reflexivity.
Qed.

(** The loop stops at the first attempt that succeeds. *)
Lemma pollFrom_first_success (remaining i k : nat)
    (r : AssessmentResult) :
  k < remaining ->
  (forall j, i <= j < i + k -> fetchAssessmentResult_at w j = None) ->
  fetchAssessmentResult_at w (i + k) = Some r ->
  pollFrom w remaining i
  = (failedAttempts k ++ [FetchAssessmentResult], Normal (Some r)).
Proof.
  revert remaining i. induction k as [| k IH]; intros remaining i Hlt Hfail Hok.
  - destruct remaining as [| n]; [lia |].
    cbn [pollFrom]. rewrite pollOnce_cases.
    replace (i + 0) with i in Hok by lia. rewrite Hok. reflexivity.
  - destruct remaining as [| n]; [lia |].
    cbn [pollFrom]. rewrite pollOnce_cases, (Hfail i) by lia.
    cbn [ebind].
    rewrite (IH n (S i) ltac:(lia)).
    + reflexivity.
    + intros j Hj. apply Hfail. lia.
    + replace (S i + k) with (i + S k) by lia. exact Hok.
Qed.

(** The trace of the handler on the remote path, from what the loop did. *)
Lemma remote_run (s : Session) (aid : string) (u : User)
    (scores : CognitiveScores) (speechDurations : gmap string Q)
    (t : list Event) (fetched : option AssessmentResult) :
  truthyString (session_assessmentId s) = Some aid ->
  session_user s = Some u ->
  pollFrom w 15 0 = (t, Normal fetched) ->
  handleCognitiveCompleteWith false w s scores speechDurations
  = (remotePrefix ++ t
       ++ match fetched with
          | Some r => SetResult r :: fst (persistResult w s u r)
          | None => [Toast "Prediction pending"]
          end
       ++ [SetIsResultPending false; SetIsLoading false],
     Normal tt).
Proof.
  intros Haid Hu Hpoll.
  unfold handleCognitiveCompleteWith. rewrite Haid, Hu.
  unfold remoteScoring. rewrite !swallowed_call, Hpoll.
  destruct fetched as [r |].
  - destruct (persistResult_normal s u r) as [Hn _].
    destruct (persistResult w s u r) as [tp rp] eqn:Ep.
    cbn in Hn. subst rp. cbn. rewrite Ep. cbn.
    rewrite <- !app_assoc. cbn. rewrite <- !app_assoc. reflexivity.
  - cbn. rewrite <- !app_assoc. reflexivity.
Qed.

End OneRun.

(** C7: with the local heuristic disabled and a session in place, the
    handler never throws and fetches the result at most 15 times.  When all
    15 attempts fail, each attempt is followed by a sleep of 1000 ms and
    the run ends with the "Prediction pending" toast, no result being set.
    When attempt [n] is the first to succeed, the [n] failed attempts
    before it are each followed by a sleep of 1000 ms, no attempt follows
    it, and its result is set. *)
Theorem remote_polling_bounded (w : World) (s : Session) (aid : string)
    (u : User) (scores : CognitiveScores) (speechDurations : gmap string Q) :
  truthyString (session_assessmentId s) = Some aid ->
  session_user s = Some u ->
  let run := handleCognitiveCompleteWith false w s scores speechDurations in
  snd run = Normal tt
  /\ fetches (fst run) <= 15
  /\ ((forall i, i < 15 -> fetchAssessmentResult_at w i = None) ->
      fst run
      = remotePrefix ++ failedAttempts 15
          ++ [Toast "Prediction pending"; SetIsResultPending false;
              SetIsLoading false])
  /\ (forall n r,
        n < 15 ->
        (forall i, i < n -> fetchAssessmentResult_at w i = None) ->
        fetchAssessmentResult_at w n = Some r ->
        fst run
        = remotePrefix ++ failedAttempts n
            ++ [FetchAssessmentResult; SetResult r]
            ++ fst (persistResult w s u r)
            ++ [SetIsResultPending false; SetIsLoading false]).
Proof.
  intros Haid Hu run.
  destruct (pollFrom_normal w 15 0) as (t & fetched & Hpoll & Hle).
  assert (Hrun := remote_run w s aid u scores speechDurations t fetched
                    Haid Hu Hpoll).
  fold run in Hrun. rewrite Hrun. cbn [fst snd].
  split; [reflexivity | split; [| split]].
  - rewrite !fetches_app.
    assert (fetches (match fetched with
                     | Some r => SetResult r :: fst (persistResult w s u r)
                     | None => [Toast "Prediction pending"]
                     end) = 0) as ->.
    { destruct fetched as [r |]; [| reflexivity].
      destruct (persistResult_normal w s u r) as [_ H0]. exact H0. }
    cbn. lia.
  - intros Hfail.
    rewrite (pollFrom_all_fail w 15 0) in Hpoll
      by (intros j Hj; apply Hfail; lia).
    injection Hpoll as <- <-. reflexivity.
  - intros n r Hn Hfail Hok.
    rewrite (pollFrom_first_success w 15 0 n r Hn) in Hpoll;
      [| intros j Hj; apply Hfail; lia | exact Hok].
    injection Hpoll as <- <-.
    rewrite <- !app_assoc. reflexivity.
Qed.

(** The bound at work: two failed attempts, then a result. *)
Lemma remote_polling_bounded_example :
  snd (handleCognitiveCompleteWith false sampleWorld sampleSession
         sampleScores ∅) = Normal tt
  /\ fst (handleCognitiveCompleteWith false sampleWorld sampleSession
            sampleScores ∅)
     = remotePrefix ++ failedAttempts 2
         ++ [FetchAssessmentResult; SetResult sampleResult]
         ++ fst (persistResult sampleWorld sampleSession sampleUser sampleResult)
         ++ [SetIsResultPending false; SetIsLoading false].
Proof.
  destruct (remote_polling_bounded sampleWorld sampleSession "assessment-1"
              sampleUser sampleScores ∅ eq_refl eq_refl)
    as (Hnormal & _ & _ & Hfirst).
  split; [exact Hnormal |].
  apply (Hfirst 2 sampleResult).
  - lia.
  - intros i Hi. destruct i as [| [| i]]; [reflexivity | reflexivity | lia].
  - reflexivity.
Defined.

End PollingFacts.
(** ** The chat widget *)

Module ChatbotFacts.
Import Chatbot.

(** *** The [i] flag: letters match in either case *)

Lemma canonicalize_idem (c : ascii) :
  canonicalize (canonicalize c) = canonicalize c.
Proof.
  destruct c as [[] [] [] [] [] [] [] []]; reflexivity.
Qed.

(** A byte that is no letter is met by a byte exactly when it is met by
    that byte's capital. *)
Lemma caseless_eqb (c b : ascii) :
  caseless c = true -> Ascii.eqb c (canonicalize b) = Ascii.eqb c b.
Proof.
  intros Hc. unfold canonicalize.
  destruct ((97 <=? nat_of_ascii b)%nat && (nat_of_ascii b <=? 122)%nat) eqn:E;
    [| reflexivity].
  apply andb_true_iff in E as [E1 E2].
  apply Nat.leb_le in E1, E2.
  assert (Hb : Ascii.eqb c b = false).
  { apply Ascii.eqb_neq. intros ->. unfold caseless in Hc.
    apply negb_true_iff, orb_false_iff in Hc as [_ Hc].
    apply andb_false_iff in Hc as [Hc | Hc]; apply Nat.leb_gt in Hc; lia. }
  rewrite Hb. apply Ascii.eqb_neq. intros ->.
  unfold caseless in Hc. rewrite nat_ascii_embedding in Hc by lia.
  apply negb_true_iff, orb_false_iff in Hc as [Hc _].
  apply andb_false_iff in Hc as [Hc | Hc]; apply Nat.leb_gt in Hc; lia.
Qed.

Lemma dropLiteral_upper (p s : string) :
  dropLiteral p (upper s) = upper <$> dropLiteral p s.
Proof.
  revert s. induction p as [| c p IH]; intros s; [reflexivity |].
  destruct s as [| b s]; [reflexivity |]. simpl.
  rewrite canonicalize_idem.
  destruct (Ascii.eqb (canonicalize c) (canonicalize b)); [apply IH | reflexivity].
Qed.

Lemma dropPrefix_upper (p s : string) :
  caselessText p = true ->
  dropPrefix p (upper s) = upper <$> dropPrefix p s.
Proof.
  revert s. induction p as [| c p IH]; intros s Hp; [reflexivity |].
  destruct s as [| b s]; [reflexivity |].
  unfold caselessText in Hp. simpl in Hp.
  apply andb_true_iff in Hp as [Hc Hp]. simpl.
  rewrite (caseless_eqb c b Hc).
  destruct (Ascii.eqb c b); [now apply IH | reflexivity].
Qed.

Lemma firstSome_fmap {A B : Type} (g : A -> B) (attempts : list (option A)) :
  firstSome (map (fmap g) attempts) = g <$> firstSome attempts.
Proof.
  induction attempts as [| [x |] rest IH]; simpl; auto.
Qed.

Lemma dropWhiteSpace_upper (s : string) :
  dropWhiteSpace (upper s) = upper <$> dropWhiteSpace s.
Proof.
  unfold dropWhiteSpace. rewrite <- firstSome_fmap, map_map.
  f_equal. apply map_ext_in. intros p Hp.
  apply dropPrefix_upper.
  assert (Hall : forallb caselessText whiteSpace = true) by reflexivity.
  rewrite forallb_forall in Hall. now apply Hall.
Qed.

Lemma length_upper (s : string) : String.length (upper s) = String.length s.
Proof.
  induction s as [| c s IH]; simpl; [reflexivity | now rewrite IH].
Qed.

Lemma whiteSpaces_upper (fuel : nat) (s : string) (k k' : string -> bool) :
  (forall t, k' (upper t) = k t) ->
  whiteSpaces fuel (upper s) k' = whiteSpaces fuel s k.
Proof.
  intros Hk. revert s. induction fuel as [| fuel IH]; intros s; simpl.
  - reflexivity.
  - rewrite dropWhiteSpace_upper.
    destruct (dropWhiteSpace s) as [s' |]; simpl; [| reflexivity].
    now rewrite IH, Hk.
Qed.

Lemma matchAt_upper (r : RegExp) (s : string) (k k' : string -> bool) :
  (forall t, k' (upper t) = k t) ->
  matchAt r (upper s) k' = matchAt r s k.
Proof.
  revert s k k'.
  induction r as [text | | r1 IH1 r2 IH2 | r1 IH1 r2 IH2 | r IH];
    intros s k k' Hk; simpl.
  - rewrite dropLiteral_upper.
    destruct (dropLiteral text s); simpl; [apply Hk | reflexivity].
  - rewrite length_upper. now apply whiteSpaces_upper.
  - apply IH1. intros t. now apply IH2.
  - now rewrite (IH1 s k k' Hk), (IH2 s k k' Hk).
  - now rewrite (IH s k k' Hk), Hk.
Qed.

(** Matching is blind to the case of the query's letters. *)
Lemma test_upper (r : RegExp) (s : string) : test r (upper s) = test r s.
Proof.
  induction s as [| c s IH].
  - reflexivity.
  - cbn [test upper]. rewrite IH.
    change (String (canonicalize c) (upper s)) with (upper (String c s)).
    now rewrite (matchAt_upper r (String c s) (fun _ => true) (fun _ => true)).
Qed.

Lemma fallbackOver_upper (kb : list KBItem) (query : string) :
  fallbackOver kb (upper query) = fallbackOver kb query.
Proof.
  induction kb as [| item kb IH]; simpl; [reflexivity |].
  now rewrite test_upper, IH.
Qed.

(** The loop over a knowledge base answers with the first item whose
    pattern matches. *)
Lemma fallbackOver_first_match (kb : list KBItem) (query : string) (i : nat)
    (item : KBItem) :
  kb !! i = Some item ->
  test (q item) query = true ->
  (forall j item', (j < i)%nat -> kb !! j = Some item' ->
                   test (q item') query = false) ->
  fallbackOver kb query = a item +:+ disclaimer.
Proof.
  revert i. induction kb as [| first kb IH]; intros i Hi Hmatch Hbefore.
  - discriminate Hi.
  - destruct i as [| i]; simpl in Hi |- *.
    + injection Hi as ->. now rewrite Hmatch.
    + rewrite (Hbefore 0%nat first ltac:(lia) eq_refl).
      apply (IH i Hi Hmatch).
      intros j item' Hj Hlook. apply (Hbefore (S j) item'); [lia | exact Hlook].
Qed.

Lemma fallbackOver_no_match (kb : list KBItem) (query : string) :
  (forall item, item ∈ kb -> test (q item) query = false) ->
  fallbackOver kb query = genericAnswer.
Proof.
  induction kb as [| first kb IH]; intros Hnone; simpl.
  - reflexivity.
  - rewrite (Hnone first) by apply list_elem_of_here.
    apply IH. intros item Hin. apply Hnone. now apply list_elem_of_further.
Qed.

(** C3, as stated, fails: the query "What causes dementia risk" does match
    the risk/cause pattern, but the dementia pattern stands first in the
    list and matches too, so the answer is not the risk/cause one. *)
Lemma dementia_risk_query_not_risk_answer :
  (q <$> KB !! 2%nat) = Some (Or (Lit "risk") (Lit "cause"))
  /\ (a <$> KB !! 2%nat) = Some riskAnswer
  /\ test (Or (Lit "risk") (Lit "cause")) "What causes dementia risk" = true
  /\ fallbackAnswer "What causes dementia risk" <> riskAnswer +:+ disclaimer.
Proof.
  repeat split; try reflexivity.
  intros H. vm_compute in H. discriminate H.
Qed.

(** C3 (amended): the fallback returns the canned answer of the first
    pattern of the list that matches the query, the disclaimer appended,
    and the generic response when none matches.  The query "What causes
    dementia risk" matches the first pattern (dementia) and returns the
    dementia answer with the disclaimer; "What causes risk" returns the
    risk/cause answer with the disclaimer; "hello" returns the generic
    response.  The answer does not depend on the case of the query's
    letters. *)
Theorem fallback_first_match (query : string) :
  (forall i item,
      KB !! i = Some item ->
      test (q item) query = true ->
      (forall j item', (j < i)%nat -> KB !! j = Some item' ->
                       test (q item') query = false) ->
      fallbackAnswer query = a item +:+ disclaimer)
  /\ ((forall item, item ∈ KB -> test (q item) query = false) ->
      fallbackAnswer query = genericAnswer)
  /\ fallbackAnswer (upper query) = fallbackAnswer query
  /\ (a <$> KB !! 0%nat) = Some dementiaAnswer
  /\ fallbackAnswer "What causes dementia risk" = dementiaAnswer +:+ disclaimer
  /\ fallbackAnswer "What causes risk" = riskAnswer +:+ disclaimer
  /\ fallbackAnswer "hello" = genericAnswer.
Proof.
  split; [| split; [| split]].
  - intros i item. apply fallbackOver_first_match.
  - apply fallbackOver_no_match.
  - apply fallbackOver_upper.
  - repeat split; vm_compute; reflexivity.
Qed.

(** The first-match rule at work on "What causes risk": the third pattern
    is the first that matches. *)
Lemma fallback_first_match_example :
  fallbackAnswer "What causes risk" = riskAnswer +:+ disclaimer.
Proof.
  destruct (fallback_first_match "What causes risk") as [Hfirst _].
  apply (Hfirst 2%nat {| q := Or (Lit "risk") (Lit "cause"); a := riskAnswer |}).
  - reflexivity.
  - vm_compute. reflexivity.
  - intros j item' Hj Hlook.
    destruct j as [| [| j]]; [| | lia];
      injection Hlook as <-; vm_compute; reflexivity.
Defined.

(** *** Sending *)

Lemma truthyText_false (s : string) : truthyText s = false <-> s = "".
Proof.
  destruct s; simpl; split; congruence.
Qed.

(** A completion call changes nothing of the state and is made at most
    once. *)
Lemma callDeepSeek_calls (w : ChatWorld) (history : list Msg) (question : string) :
  (length (snd (callDeepSeek w history question)) <= 1)%nat.
Proof.
  unfold callDeepSeek.
  destruct (VITE_DEEPSEEK_API_KEY w) as [key |]; [| simpl; lia].
  destruct (negb (truthyText key)); [simpl; lia |].
  match goal with |- context [chatDeepSeek w ?m ?n] =>
    destruct (chatDeepSeek w m n) end; simpl; lia.
Qed.

(** C10: sending is a no-op when the trimmed input is empty or a reply is
    loading: the state, the transcript with it, is unchanged and no remote
    call is made.  Otherwise the transcript grows by exactly the user's
    trimmed message followed by one bot message, the input is cleared,
    loading ends cleared, and at most one remote call is made. *)
Theorem handleSend_noop_or_one_exchange (w : ChatWorld) (st : ChatState) :
  (trim (input st) = "" \/ loading st = true -> handleSend w st = (st, []))
  /\ (trim (input st) <> "" -> loading st = false ->
      exists reply,
        messages (fst (handleSend w st))
        = messages st ++ [{| role := user; text := trim (input st) |};
                          {| role := bot; text := reply |}]
        /\ input (fst (handleSend w st)) = ""
        /\ loading (fst (handleSend w st)) = false
        /\ (length (snd (handleSend w st)) <= 1)%nat).
Proof.
  unfold handleSend. split.
  - intros [Hempty | Hloading].
    + apply truthyText_false in Hempty. now rewrite Hempty.
    + rewrite Hloading, orb_true_r. reflexivity.
  - intros Hne Hidle.
    assert (truthyText (trim (input st)) = true) as ->.
    { destruct (truthyText (trim (input st))) eqn:E; [reflexivity |].
      apply truthyText_false in E. contradiction. }
    rewrite Hidle. cbn [negb orb].
    pose proof (callDeepSeek_calls w (messages st) (trim (input st))) as Hcalls.
    destruct (callDeepSeek w (messages st) (trim (input st))) as [reply calls].
    exists reply. cbn. rewrite <- app_assoc. repeat split. exact Hcalls.
Qed.

(** A blank input sends nothing. *)
Lemma handleSend_noop_example :
  handleSend offlineWorld blankInput = (blankInput, []).
Proof.
  apply (handleSend_noop_or_one_exchange offlineWorld blankInput).
  left. reflexivity.
Defined.

End ChatbotFacts.
(** ** How the estimate moves with the performance *)

Module PerformanceFacts.
Import Num NumFacts Assessment HeuristicFacts Performance.

Lemma Qsum_le {A : Type} (f g : A -> Q) (l : list A) :
  (forall x, x ∈ l -> f x <= g x) -> Qsum (map f l) <= Qsum (map g l).
Proof.
  induction l as [| x l IH]; intros H; simpl; [lra |].
  assert (f x <= g x) by (apply H, list_elem_of_here).
  assert (Qsum (map f l) <= Qsum (map g l))
    by (apply IH; intros y Hy; apply H; now apply list_elem_of_further).
  lra.
Qed.

Lemma Math_min_le_compat (a a' b : Q) :
  a <= a' -> Math_min a b <= Math_min a' b.
Proof.
  intros H. extremum_cases; lra.
Qed.

(** Every task of the fixed table has a positive maximum. *)
Lemma SPEECH_TASKS_positive (t : SpeechTask) :
  t ∈ SPEECH_TASKS -> 0 < expectedOf t.
Proof.
  intros Ht. unfold SPEECH_TASKS in Ht.
  repeat (apply elem_of_cons in Ht as [-> | Ht]; [reflexivity |]).
  inversion Ht.
Qed.

(** The summand of a task with a positive maximum grows with the
    recording and lies between the recording's sign and 1. *)
Lemma coverageTerm_monotone (e d d' : Q) :
  0 < e -> d <= d' ->
  coverageTerm e (Math_min d e) <= coverageTerm e (Math_min d' e).
Proof.
  intros He Hd. unfold coverageTerm.
  assert (T : truthy e = true) by (apply truthy_true; lra).
  rewrite T.
  apply Qmult_le_compat_r; [now apply Math_min_le_compat |].
  apply Qlt_le_weak, Qinv_lt_0_compat, He.
Qed.

Lemma coverageTerm_upper (e d : Q) :
  0 < e -> coverageTerm e (Math_min d e) <= 1.
Proof.
  intros He. unfold coverageTerm.
  assert (T : truthy e = true) by (apply truthy_true; lra).
  rewrite T. apply Qle_shift_div_r; [exact He |].
  extremum_cases; lra.
Qed.

Lemma coverageTerm_lower (e d : Q) :
  0 < e -> 0 <= d -> 0 <= coverageTerm e (Math_min d e).
Proof.
  intros He Hd. unfold coverageTerm.
  assert (T : truthy e = true) by (apply truthy_true; lra).
  rewrite T. apply Qle_shift_div_l; [exact He |].
  extremum_cases; lra.
Qed.

(** The coverage of the fixed table as a third of the sum of its terms. *)
Lemma speechCoverage_fixed (speechDurations : gmap string Q) :
  speechCoverage SPEECH_TASKS speechDurations
  == Qsum (map (fun t => coverageTerm (expectedOf t)
                           (Math_min (durationOf speechDurations t) (expectedOf t)))
               SPEECH_TASKS) / 3.
Proof.
  rewrite speechCoverage_sum by discriminate. reflexivity.
Qed.

Lemma speechCoverage_monotone (d d' : gmap string Q) :
  recordingsLe d d' ->
  speechCoverage SPEECH_TASKS d <= speechCoverage SPEECH_TASKS d'.
Proof.
  intros Hle. rewrite !speechCoverage_fixed.
  apply Qmult_le_compat_r; [| discriminate].
  apply Qsum_le. intros t Ht.
  apply coverageTerm_monotone; [now apply SPEECH_TASKS_positive | now apply Hle].
Qed.

Lemma clampProbability_monotone (p p' : Q) :
  p <= p' -> clampProbability p <= clampProbability p'.
Proof.
  intros H. unfold clampProbability. extremum_cases; lra.
Qed.

Lemma riskLevelOf_monotone (p p' : Q) :
  p <= p' -> (rank (riskLevelOf p) <= rank (riskLevelOf p'))%nat.
Proof.
  intros H.
  destruct (riskLevelOf_cases p) as [[H1 ->] | [[H1 [H1' ->]] | [H1 ->]]];
    destruct (riskLevelOf_cases p') as [[H2 ->] | [[H2 [H2' ->]] | [H2 ->]]];
    simpl; try lia; exfalso; lra.
Qed.

Lemma normalized_monotone (s s' m : Q) :
  0 < m -> s <= s' -> Math_min 1 (s / m) <= Math_min 1 (s' / m).
Proof.
  intros Hm Hs.
  assert (s / m <= s' / m).
  { apply Qmult_le_compat_r; [exact Hs |].
    apply Qlt_le_weak, Qinv_lt_0_compat, Hm. }
  extremum_cases; lra.
Qed.

Lemma mean4_monotone (a b c d a' b' c' d' : Q) :
  a <= a' -> b <= b' -> c <= c' -> d <= d' ->
  (a + b + c + d) / 4 <= (a' + b' + c' + d') / 4.
Proof.
  intros. unfold Qdiv. apply Qmult_le_compat_r; [lra | discriminate].
Qed.

(** A performance that is at least as good in every sub-score and in every
    recording never gets a higher probability, nor a higher risk level. *)
Theorem better_performance_never_raises_risk (aid aid' now now' : string)
    (scores scores' : CognitiveScores) (d d' : gmap string Q) :
  scoresLe scores scores' ->
  recordingsLe d d' ->
  probability (heuristicResult aid' scores' d' now')
  <= probability (heuristicResult aid scores d now)
  /\ (rank (riskLevel (heuristicResult aid' scores' d' now'))
      <= rank (riskLevel (heuristicResult aid scores d now)))%nat.
Proof.
  intros (Hm & Ha & Hl & He) Hd.
  assert (Hp : probability (heuristicResult aid' scores' d' now')
               <= probability (heuristicResult aid scores d now)).
  { unfold heuristicResult; cbn [probability].
    apply clampProbability_monotone.
    pose proof (speechCoverage_monotone d d' Hd) as Hc.
    pose proof (normalized_monotone _ _ (memoryScore domainMax) eq_refl Hm).
    pose proof (normalized_monotone _ _ (attentionScore domainMax) eq_refl Ha).
    pose proof (normalized_monotone _ _ (languageScore domainMax) eq_refl Hl).
    pose proof (normalized_monotone _ _ (executiveScore domainMax) eq_refl He).
    match goal with
    | |- 1 - (0.7 * ?m' + _) <= 1 - (0.7 * ?m + _) =>
        assert (m <= m') by (apply mean4_monotone; assumption);
        generalize dependent m; generalize dependent m'
    end.
    intros. lra. }
  split; [exact Hp |].
  apply riskLevelOf_monotone. exact Hp.
Qed.

Lemma better_performance_never_raises_risk_example :
  probability (heuristicResult "a" domainMax fullRecordings "t")
  <= probability (heuristicResult "a" sampleScores halfStory "t")
  /\ (rank (riskLevel (heuristicResult "a" domainMax fullRecordings "t"))
      <= rank (riskLevel (heuristicResult "a" sampleScores halfStory "t")))%nat.
Proof.
  apply (better_performance_never_raises_risk "a" "a" "t" "t"
           sampleScores domainMax halfStory fullRecordings).
  - repeat split; vm_compute; discriminate.
  - intros t Ht. unfold SPEECH_TASKS in Ht.
    repeat (apply elem_of_cons in Ht as [-> | Ht]; [vm_compute; discriminate |]).
    inversion Ht.
Defined.

(** *** The coverage stays within [0, 1] *)

Lemma Qsum_const_table {A : Type} (l : list A) (c : Q) :
  Qsum (map (fun _ => c) l) == inject_Z (Z.of_nat (length l)) * c.
Proof.
  induction l as [| x l IH]; [simpl; ring |].
  cbn [map Qsum foldr length]. fold (Qsum (map (fun _ : A => c) l)).
  rewrite IH, Nat2Z.inj_succ. unfold Z.succ. rewrite inject_Z_plus. ring.
Qed.

Lemma speech_coverage_bounds_pre (d : gmap string Q) :
  speechCoverage SPEECH_TASKS d <= 1
  /\ Math_min 1 (speechCoverage SPEECH_TASKS d) == speechCoverage SPEECH_TASKS d.
Proof.
  assert (Hup : speechCoverage SPEECH_TASKS d <= 1).
  { rewrite speechCoverage_fixed. apply Qle_shift_div_r; [reflexivity |].
    eapply Qle_trans.
    - apply (Qsum_le _ (fun _ => 1)). intros t Ht.
      apply coverageTerm_upper. now apply SPEECH_TASKS_positive.
    - rewrite Qsum_const_table. vm_compute. discriminate. }
  split; [exact Hup |]. extremum_cases; lra.
Qed.

Lemma speech_coverage_nonneg (d : gmap string Q) :
  recordingsNonneg d -> 0 <= speechCoverage SPEECH_TASKS d.
Proof.
  intros Hnn. rewrite speechCoverage_fixed.
  apply Qle_shift_div_l; [reflexivity |].
  eapply Qle_trans.
  - assert (E : 0 * 3 <= Qsum (map (fun _ : SpeechTask => 0) SPEECH_TASKS))
      by (vm_compute; discriminate).
    exact E.
  - apply Qsum_le. intros t Ht.
    apply coverageTerm_lower; [now apply SPEECH_TASKS_positive | now apply Hnn].
Qed.

(** The coverage of the fixed table never exceeds 1, so the cap the
    estimator puts on it for the coverage feature changes nothing; it is
    not negative when no recording has a negative length. *)
Theorem speech_coverage_bounds (d : gmap string Q) :
  speechCoverage SPEECH_TASKS d <= 1
  /\ Math_min 1 (speechCoverage SPEECH_TASKS d) == speechCoverage SPEECH_TASKS d
  /\ (recordingsNonneg d -> 0 <= speechCoverage SPEECH_TASKS d).
Proof.
  destruct (speech_coverage_bounds_pre d) as [Hup Hmin].
  split; [exact Hup | split; [exact Hmin |]].
  apply speech_coverage_nonneg.
Qed.

Lemma speech_coverage_bounds_example :
  0 <= speechCoverage SPEECH_TASKS halfStory.
Proof.
  apply (speech_coverage_bounds halfStory).
  intros t Ht. unfold SPEECH_TASKS in Ht.
  repeat (apply elem_of_cons in Ht as [-> | Ht]; [vm_compute; discriminate |]).
  inversion Ht.
Defined.

(** *** Feature importances *)

Lemma directionOf_positive (x : Q) : directionOf x = positive <-> x < 0.5.
Proof.
  unfold directionOf. destruct (gtb 0.5 x) eqn:E.
  - apply gtb_lt in E. split; [intros _; exact E | reflexivity].
  - apply gtb_le in E. split; [discriminate | intros; exfalso; lra].
Qed.

Lemma normalized_nonneg (s m : Q) : 0 < m -> 0 <= s -> 0 <= Math_min 1 (s / m).
Proof.
  intros Hm Hs.
  assert (0 <= s / m) by (apply Qle_shift_div_l; [exact Hm | lra]).
  extremum_cases; lra.
Qed.

(** What one entry of the list must satisfy, [x] being the value its
    direction was decided on and [y] the value its contribution was
    computed from. *)
Lemma importance_entry (name : string) (x y : Q) :
  y <= 1 -> (x < 0.5 <-> y < 0.5) ->
  let f := {| feature := name; contribution := 0.5 - y;
              direction := directionOf x |} in
  (direction f = positive <-> 0 < contribution f)
  /\ - (1 # 2) <= contribution f.
Proof.
  intros Hy Hxy. cbn. rewrite directionOf_positive, Hxy.
  repeat split; intros; lra.
Qed.

Lemma Math_min_1_le (x : Q) : Math_min 1 x <= 1.
Proof.
  extremum_cases; lra.
Qed.

(** The result lists the five features in a fixed order; each entry is
    marked positive exactly when its contribution is above zero, and no
    contribution is below -0.5; with non-negative sub-scores and recordings
    none is above 0.5 either. *)
Theorem feature_importances_signed (aid now : string)
    (scores : CognitiveScores) (d : gmap string Q) :
  let fs := featureImportances (heuristicResult aid scores d now) in
  map feature fs = featureNames
  /\ Forall (fun f => (direction f = positive <-> 0 < contribution f)
                      /\ - (1 # 2) <= contribution f) fs
  /\ (scoresNonneg scores -> recordingsNonneg d ->
      Forall (fun f => contribution f <= 0.5) fs).
Proof.
  unfold heuristicResult; cbn [featureImportances].
  split; [reflexivity | split].
  - repeat (apply Forall_cons; split);
      try (apply Forall_nil; exact I);
      try (apply importance_entry; [apply Math_min_1_le | reflexivity]).
    apply importance_entry; [apply Math_min_1_le |].
    destruct (speech_coverage_bounds_pre d) as [Hup Hmin].
    rewrite Hmin. reflexivity.
  - intros (Hm & Ha & Hl & He) Hd.
    pose proof (normalized_nonneg _ (memoryScore domainMax) eq_refl Hm).
    pose proof (normalized_nonneg _ (attentionScore domainMax) eq_refl Ha).
    pose proof (normalized_nonneg _ (languageScore domainMax) eq_refl Hl).
    pose proof (normalized_nonneg _ (executiveScore domainMax) eq_refl He).
    destruct (speech_coverage_bounds_pre d) as [Hup Hmin].
    pose proof (speech_coverage_nonneg d Hd) as Hlow.
    repeat (apply Forall_cons; split);
      try (apply Forall_nil; exact I); cbn [contribution]; lra.
Qed.

Lemma feature_importances_signed_example :
  Forall (fun f => contribution f <= 0.5)
         (featureImportances (heuristicResult "a" sampleScores halfStory "t")).
Proof.
  apply (feature_importances_signed "a" "t" sampleScores halfStory).
  - repeat split; vm_compute; discriminate.
  - intros t Ht. unfold SPEECH_TASKS in Ht.
    repeat (apply elem_of_cons in Ht as [-> | Ht]; [vm_compute; discriminate |]).
    inversion Ht.
Defined.

(** *** Saturation *)

Lemma riskLevelOf_proper (p p' : Q) : p == p' -> riskLevelOf p = riskLevelOf p'.
Proof.
  intros E.
  assert (H1 : (rank (riskLevelOf p) <= rank (riskLevelOf p'))%nat)
    by (apply riskLevelOf_monotone; lra).
  assert (H2 : (rank (riskLevelOf p') <= rank (riskLevelOf p))%nat)
    by (apply riskLevelOf_monotone; lra).
  destruct (riskLevelOf p), (riskLevelOf p'); simpl in *; try reflexivity; lia.
Qed.

Lemma normalized_capped (s m : Q) :
  0 < m -> Math_min 1 (Math_min s m / m) == Math_min 1 (s / m).
Proof.
  intros Hm.
  assert (Hone : m / m == 1) by (field; lra).
  destruct (Math_min_cases s m) as [[H E] | [H E]]; rewrite E.
  - reflexivity.
  - rewrite Hone.
    assert (1 <= s / m) by (apply Qle_shift_div_l; [exact Hm | lra]).
    extremum_cases; lra.
Qed.

Lemma durationOf_capRecordings (d : gmap string Q) (t : SpeechTask) :
  t ∈ SPEECH_TASKS ->
  durationOf (capRecordings d) t = Math_min (durationOf d t) (expectedOf t).
Proof.
  intros Ht. unfold SPEECH_TASKS in Ht.
  repeat (apply elem_of_cons in Ht as [-> | Ht];
          [unfold durationOf at 1, capRecordings, SPEECH_TASKS;
           cbn [foldr st_id]; now simplify_map_eq |]).
  inversion Ht.
Qed.

Lemma Math_min_idem_r (x e : Q) : Math_min (Math_min x e) e == Math_min x e.
Proof.
  destruct (Math_min_cases x e) as [[H E] | [H E]]; rewrite E;
    extremum_cases; lra.
Qed.

Lemma speechCoverage_capRecordings (d : gmap string Q) :
  speechCoverage SPEECH_TASKS (capRecordings d) == speechCoverage SPEECH_TASKS d.
Proof.
  rewrite !speechCoverage_fixed.
  rewrite (Qsum_ext _ (fun t => coverageTerm (expectedOf t)
                         (Math_min (durationOf d t) (expectedOf t)))).
  - reflexivity.
  - intros t Ht. rewrite (durationOf_capRecordings d t Ht).
    unfold coverageTerm. destruct (truthy (expectedOf t)); [| reflexivity].
    now rewrite Math_min_idem_r.
Qed.

(** Sub-scores above their domain maxima and recordings longer than the
    maxima of their tasks earn nothing: cutting them down to the maxima
    leaves the probability and the risk level as they are. *)
Theorem capping_changes_nothing (aid now : string) (scores : CognitiveScores)
    (d : gmap string Q) :
  probability (heuristicResult aid (capScores scores) (capRecordings d) now)
  == probability (heuristicResult aid scores d now)
  /\ riskLevel (heuristicResult aid (capScores scores) (capRecordings d) now)
     = riskLevel (heuristicResult aid scores d now).
Proof.
  assert (E : probability (heuristicResult aid (capScores scores)
                             (capRecordings d) now)
              == probability (heuristicResult aid scores d now)).
  { unfold heuristicResult, capScores; cbn [probability memoryScore
      attentionScore languageScore executiveScore domainMax].
    apply clampProbability_proper.
    rewrite speechCoverage_capRecordings.
    rewrite !normalized_capped by reflexivity. reflexivity. }
  split; [exact E |].
  unfold heuristicResult in *; cbn [probability riskLevel] in *.
  apply riskLevelOf_proper. exact E.
Qed.

End PerformanceFacts.
(** ** The page *)

Module PageFacts.
Import Num NumFacts Assessment HeuristicFacts PollingFacts Performance PerformanceFacts Page.

Local Open Scope nat_scope.

(** *** Steps *)

Lemma nextStep_min (i : nat) : nextStep i = Nat.min (i + 1) 3.
Proof.
  reflexivity.
Qed.

Lemma iter_nextStep (k i : nat) :
  i <= 3 -> Nat.iter k nextStep i = Nat.min (i + k) 3.
Proof.
  intros Hi. induction k as [| k IH]; simpl.
  - lia.
  - rewrite IH, nextStep_min. lia.
Qed.

Lemma iter_advanceStep_fields (k : nat) (st : PageState) :
  Nat.iter k advanceStep st
  = setActiveStepIndex (fun i => Nat.iter k nextStep i) st.
Proof.
  induction k as [| k IH]; simpl.
  - destruct st; reflexivity.
  - rewrite IH. reflexivity.
Qed.

(** Advancing [k] times from a step of the table leads to step
    [min (i + k) 3]: the index never leaves the table, the results step is
    where every run of advances ends, and nothing but the index moves. *)
Theorem advanceStep_bounded (k : nat) (st : PageState) :
  activeStepIndex st <= 3 ->
  Nat.iter k advanceStep st
  = setActiveStepIndex (fun i => Nat.min (i + k) 3) st
  /\ activeStepIndex (Nat.iter k advanceStep st) <= 3
  /\ (3 <= activeStepIndex st + k ->
      fst <$> STEP_CONFIG !! activeStepIndex (Nat.iter k advanceStep st)
      = Some "results"%string).
Proof.
  intros Hi. rewrite iter_advanceStep_fields.
  unfold setActiveStepIndex; cbn [activeStepIndex].
  rewrite (iter_nextStep k _ Hi).
  split; [reflexivity | split; [lia |]].
  intros Hk. replace (Nat.min (activeStepIndex st + k) 3) with 3 by lia.
  reflexivity.
Qed.

Lemma advanceStep_bounded_example :
  Nat.iter 5 advanceStep signedInStart
  = setActiveStepIndex (fun i => Nat.min (i + 5) 3) signedInStart
  /\ activeStepIndex (Nat.iter 5 advanceStep signedInStart) <= 3
  /\ (3 <= activeStepIndex signedInStart + 5 ->
      fst <$> STEP_CONFIG !! activeStepIndex (Nat.iter 5 advanceStep signedInStart)
      = Some "results"%string).
Proof.
  apply (advanceStep_bounded 5 signedInStart). simpl. lia.
Defined.

(** *** Uploading speech *)

(** A recording is kept exactly when the visitor is signed in to the
    cloud, the session has an assessment and a user, and the upload
    succeeds: then the task's duration reads back as uploaded, replacing
    an earlier one, and the other tasks keep theirs.  Otherwise the
    durations stay as they were, and without sign-in or session no upload
    is attempted at all.  In every case the session, the step and the
    result are untouched, and the uploading flag, if clear before, is clear
    after. *)
Theorem speech_upload_records_duration (w : PageWorld) (taskId : string)
    (durationMs : Q) (st : PageState) :
  let st' := handleSpeechUpload w taskId durationMs st in
  (isCloudSignedIn st = true ->
   is_Some (truthyString (assessmentId st)) -> is_Some (user st) ->
   uploadSpeechSample w taskId durationMs = true ->
   speechDurations st' !! taskId = Some durationMs
   /\ forall other, other <> taskId ->
        speechDurations st' !! other = speechDurations st !! other)
  /\ (isCloudSignedIn st = false \/ truthyString (assessmentId st) = None
      \/ user st = None \/ uploadSpeechSample w taskId durationMs = false ->
      speechDurations st' = speechDurations st)
  /\ (isCloudSignedIn st = false \/ truthyString (assessmentId st) = None
      \/ user st = None ->
      exists title, st' = toast title st)
  /\ (user st' = user st /\ assessmentId st' = assessmentId st
      /\ auth st' = auth st /\ activeStepIndex st' = activeStepIndex st
      /\ result st' = result st /\ isLoading st' = isLoading st
      /\ isResultPending st' = isResultPending st)
  /\ (isSpeechUploading st = false -> isSpeechUploading st' = false).
Proof.
  cbv zeta. unfold handleSpeechUpload, requireCloudSignIn.
  destruct (isCloudSignedIn st) eqn:Hc;
    [destruct (truthyString (assessmentId st)) as [aid |] eqn:Ha;
     [destruct (user st) as [u |] eqn:Hu;
      [destruct (uploadSpeechSample w taskId durationMs) eqn:Hup |] |] |];
    (split; [| split; [| split; [| split]]]).
  all: try (intros H1 H2 H3 H4; first
              [ discriminate
              | destruct H2; discriminate
              | destruct H3; discriminate
              | idtac ]).
  all: try (intros [H | [H | [H | H]]]; first [discriminate | reflexivity]).
  all: try (intros [H | [H | H]]; first [discriminate | eexists; reflexivity]).
  all: try (repeat split; cbn; congruence).
  all: try (intros H; cbn; first [reflexivity | exact H]).
  cbn. split; [apply lookup_insert_eq |].
  intros other Hne. now apply lookup_insert_ne.
Qed.

Lemma speech_upload_records_duration_example :
  speechDurations (handleSpeechUpload kindWorld "story-recall" 60000
                     (handleOnboardingSubmit kindWorld sampleValues signedInStart))
    !! "story-recall"%string = Some 60000%Q.
Proof.
  apply (speech_upload_records_duration kindWorld "story-recall" 60000%Q
           (handleOnboardingSubmit kindWorld sampleValues signedInStart)).
  - reflexivity.
  - eexists; reflexivity.
  - eexists; reflexivity.
  - reflexivity.
Defined.

(** *** Onboarding *)

(** Submitting the onboarding form without cloud sign-in only raises the
    sign-in toast.  With sign-in, loading is cleared at the end whatever
    the collaborators answer; a failed registration leaves user,
    assessment, step and result as they were; a registration that succeeds
    while the start of the assessment fails leaves the registered user
    stored, but no new assessment and the step unchanged; when both
    succeed, user and assessment id are stored, the step advances by one,
    and a result shown for a different assessment is discarded. *)
Theorem onboarding_outcomes (w : PageWorld) (values : OnboardingFormValues)
    (st : PageState) :
  let st' := handleOnboardingSubmit w values st in
  (isCloudSignedIn st = false -> st' = toast "Sign in required" st)
  /\ (isCloudSignedIn st = true ->
      isLoading st' = false
      /\ auth st' = auth st
      /\ speechDurations st' = speechDurations st
      /\ (registerUser w values = None ->
          user st' = user st /\ assessmentId st' = assessmentId st
          /\ activeStepIndex st' = activeStepIndex st
          /\ result st' = result st)
      /\ (forall response,
            registerUser w values = Some response ->
            user st' = Some (storedUser response)
            /\ (startAssessment w (registrationToken response) = None ->
                assessmentId st' = assessmentId st
                /\ activeStepIndex st' = activeStepIndex st
                /\ result st' = result st)
            /\ (forall aid,
                  startAssessment w (registrationToken response) = Some aid ->
                  assessmentId st' = Some aid
                  /\ activeStepIndex st' = nextStep (activeStepIndex st)
                  /\ result st'
                     = if decide (Some aid = assessmentId st)
                       then result st else None))).
Proof.
  cbv zeta. unfold handleOnboardingSubmit, requireCloudSignIn.
  destruct (isCloudSignedIn st) eqn:Hc; (split; intros H);
    try discriminate H; try reflexivity.
  split; [| split; [| split; [| split]]].
  - destruct (registerUser w values) as [response |];
      [destruct (startAssessment w (registrationToken response)) |];
      reflexivity.
  - destruct (registerUser w values) as [response |];
      [destruct (startAssessment w (registrationToken response)) |];
      reflexivity.
  - destruct (registerUser w values) as [response |];
      [destruct (startAssessment w (registrationToken response)) |];
      reflexivity.
  - intros Hr. rewrite Hr. repeat split.
  - intros response Hr. rewrite Hr. split; [| split].
    + destruct (startAssessment w (registrationToken response)); reflexivity.
    + intros Hs. rewrite Hs. repeat split.
    + intros aid Hs. rewrite Hs. repeat split.
Qed.

(** A registration that succeeds while no assessment can be started: the
    user is stored, the page stays at the consent step, and an upload
    made from that state is refused for want of an assessment. *)
Lemma onboarding_outcomes_example :
  user (handleOnboardingSubmit noAssessmentWorld sampleValues signedInStart)
  = Some (storedUser sampleRegistration)
  /\ assessmentId (handleOnboardingSubmit noAssessmentWorld sampleValues
                     signedInStart) = None
  /\ activeStepIndex (handleOnboardingSubmit noAssessmentWorld sampleValues
                        signedInStart) = 0.
Proof.
  destruct (onboarding_outcomes noAssessmentWorld sampleValues signedInStart)
    as [_ H].
  destruct (H eq_refl) as (_ & _ & _ & _ & Hreg).
  destruct (Hreg sampleRegistration eq_refl) as (Hu & Hfail & _).
  destruct (Hfail eq_refl) as (Ha & Hi & _).
  repeat split; assumption.
Defined.

(** *** Completing the cognitive stage *)

Lemma log_foldl_applyEvent (t : list Event) (st : PageState) :
  log (foldl applyEvent st t) = log st ++ map Cognitive t.
Proof.
  revert st. induction t as [| e t IH]; intros st; simpl.
  - now rewrite app_nil_r.
  - rewrite IH. unfold applyEvent, record; cbn [log].
    rewrite <- app_assoc. f_equal.
    destruct e; reflexivity.
Qed.

(** Events that set neither a flag nor the step leave flags, step, session
    and recordings as they are. *)
Lemma foldl_flagFree (t : list Event) (st : PageState) :
  forallb flagFree t = true ->
  isLoading (foldl applyEvent st t) = isLoading st
  /\ isResultPending (foldl applyEvent st t) = isResultPending st
  /\ activeStepIndex (foldl applyEvent st t) = activeStepIndex st.
Proof.
  revert st. induction t as [| e t IH]; intros st Hall; simpl.
  - repeat split.
  - simpl in Hall. apply andb_true_iff in Hall as [He Ht].
    destruct (IH (applyEvent st e) Ht) as (H1 & H2 & H3).
    rewrite H1, H2, H3.
    destruct e; try discriminate He; repeat split.
Qed.

(** No event of the cognitive handler touches the session, the
    recordings or the uploading flag. *)
Lemma foldl_applyEvent_frame (t : list Event) (st : PageState) :
  user (foldl applyEvent st t) = user st
  /\ assessmentId (foldl applyEvent st t) = assessmentId st
  /\ auth (foldl applyEvent st t) = auth st
  /\ speechDurations (foldl applyEvent st t) = speechDurations st
  /\ isSpeechUploading (foldl applyEvent st t) = isSpeechUploading st.
Proof.
  revert st. induction t as [| e t IH]; intros st; simpl.
  - repeat split.
  - destruct (IH (applyEvent st e)) as (H1 & H2 & H3 & H4 & H5).
    rewrite H1, H2, H3, H4, H5.
    destruct e; repeat split.
Qed.

(** Neutral events leave the result as it is. *)
Lemma foldl_neutral_result (t : list Event) (st : PageState) :
  forallb neutral t = true -> result (foldl applyEvent st t) = result st.
Proof.
  revert st. induction t as [| e t IH]; intros st Hall; simpl.
  - reflexivity.
  - simpl in Hall. apply andb_true_iff in Hall as [He Ht].
    rewrite (IH _ Ht). destruct e; try discriminate He; reflexivity.
Qed.

Lemma persistResult_quiet (w : World) (s : Session) (u : User)
    (r : AssessmentResult) :
  forallb neutral (fst (persistResult w s u r)) = true
  /\ forallb (fun e => negb (contactsPrediction (Cognitive e)))
       (fst (persistResult w s u r)) = true.
Proof.
  unfold persistResult.
  destruct (session_auth s) as [[|] |], (save_ok w), (load_ok w);
    split; reflexivity.
Qed.

Lemma neutral_flagFree (t : list Event) :
  forallb neutral t = true -> forallb flagFree t = true.
Proof.
  induction t as [| e t IH]; simpl; [reflexivity |].
  intros H. apply andb_true_iff in H as [He Ht].
  rewrite (IH Ht), andb_true_r. destruct e; try discriminate He; reflexivity.
Qed.

Lemma pollFrom_quiet (w : World) (remaining i : nat) :
  forallb neutral (fst (pollFrom w remaining i)) = true.
Proof.
  revert i. induction remaining as [| n IH]; intros i; [reflexivity |].
  cbn [pollFrom]. rewrite pollOnce_cases.
  destruct (fetchAssessmentResult_at w i) as [r |]; [reflexivity |].
  specialize (IH (S i)).
  destruct (pollFrom w n (S i)) as [t [fetched | e]]; cbn in *; exact IH.
Qed.

(** The trace of the handler in heuristic mode. *)
Lemma local_run (w : World) (s : Session) (aid : string) (u : User)
    (scores : CognitiveScores) (d : gmap string Q) :
  truthyString (session_assessmentId s) = Some aid ->
  session_user s = Some u ->
  handleCognitiveCompleteWith true w s scores d
  = ([SetIsLoading true; AdvanceStep; SetIsResultPending true]
       ++ (SubmitCognitiveData
             :: SetResult (heuristicResult aid scores d (now w))
             :: fst (persistResult w s u (heuristicResult aid scores d (now w))))
       ++ [SetIsResultPending false; SetIsLoading false],
     Normal tt).
Proof.
  intros Haid Hu.
  unfold handleCognitiveCompleteWith. rewrite Haid, Hu.
  unfold localScoring. rewrite swallowed_call.
  set (h := heuristicResult aid scores d (now w)). clearbody h.
  destruct (persistResult_normal w s u h) as [Hn _].
  destruct (persistResult w s u h) as [tp rp] eqn:Ep.
  cbn in Hn. subst rp. cbn.
  rewrite <- !app_assoc. reflexivity.
Qed.

(** In either mode, with a session in place, the handler returns, and its
    trace is: loading set, step advanced, pending set; then events that
    set neither flag nor step; then pending cleared, loading cleared. *)
Lemma cognitive_run_shape (useLocalHeuristic : bool) (w : World) (s : Session)
    (aid : string) (u : User) (scores : CognitiveScores) (d : gmap string Q) :
  truthyString (session_assessmentId s) = Some aid ->
  session_user s = Some u ->
  exists middle,
    handleCognitiveCompleteWith useLocalHeuristic w s scores d
    = ([SetIsLoading true; AdvanceStep; SetIsResultPending true]
         ++ middle ++ [SetIsResultPending false; SetIsLoading false],
       Normal tt)
    /\ forallb flagFree middle = true.
Proof.
  intros Haid Hu. destruct useLocalHeuristic.
  - eexists. split; [apply (local_run w s aid u scores d Haid Hu) |].
    cbn [forallb flagFree andb].
    apply neutral_flagFree, persistResult_quiet.
  - destruct (pollFrom_normal w 15 0) as (t & fetched & Hpoll & _).
    pose proof (pollFrom_quiet w 15 0) as Hq. rewrite Hpoll in Hq.
    cbn [fst] in Hq.
    exists ([SubmitCognitiveData; RequestRiskPrediction] ++ t
              ++ match fetched with
                 | Some r => SetResult r :: fst (persistResult w s u r)
                 | None => [Toast "Prediction pending"]
                 end).
    split.
    + rewrite (remote_run w s aid u scores d t fetched Haid Hu Hpoll).
      unfold remotePrefix. cbn [app]. rewrite <- !app_assoc. reflexivity.
    + cbn [app forallb flagFree andb]. rewrite forallb_app.
      rewrite (neutral_flagFree t Hq). cbn [andb].
      destruct fetched as [r |]; [| reflexivity].
      cbn [forallb flagFree andb].
      apply neutral_flagFree, persistResult_quiet.
Qed.

Lemma sessionOf_present (st : PageState) (aid : string) (u : PageUser) :
  truthyString (assessmentId st) = Some aid -> user st = Some u ->
  truthyString (session_assessmentId (sessionOf st)) = Some aid
  /\ session_user (sessionOf st)
     = Some {| user_id := id u; accessToken := userAccessToken u |}.
Proof.
  intros Ha Hu. unfold sessionOf; cbn. rewrite Hu. split; [exact Ha | reflexivity].
Qed.

(** What a completed run of the handler leaves, in either mode. *)
Lemma cognitive_settles (useLocalHeuristic : bool) (w : PageWorld)
    (scores : CognitiveScores) (st : PageState) (aid : string) (u : PageUser) :
  truthyString (assessmentId st) = Some aid -> user st = Some u ->
  let st' := fst (cognitiveCompleteWith useLocalHeuristic w scores st) in
  snd (cognitiveCompleteWith useLocalHeuristic w scores st) = Normal tt
  /\ isLoading st' = false
  /\ isResultPending st' = false
  /\ activeStepIndex st' = nextStep (activeStepIndex st).
Proof.
  intros Ha Hu.
  destruct (sessionOf_present st aid u Ha Hu) as [Hs1 Hs2].
  destruct (cognitive_run_shape useLocalHeuristic (cognitiveWorld w)
              (sessionOf st) aid _ scores (speechDurations st) Hs1 Hs2)
    as (middle & Hrun & Hfree).
  cbv zeta. unfold cognitiveCompleteWith. rewrite Hrun. cbn [fst snd].
  split; [reflexivity |].
  rewrite !foldl_app. cbn [foldl].
  destruct (foldl_flagFree middle
              (applyEvent (applyEvent (applyEvent st (SetIsLoading true))
                             AdvanceStep) (SetIsResultPending true)) Hfree)
    as (_ & _ & H3).
  repeat split. cbn [applyEvent record setIsLoading setIsResultPending
                       activeStepIndex].
  rewrite H3. reflexivity.
Qed.

Lemma cognitive_without_session (useLocalHeuristic : bool) (w : PageWorld)
    (scores : CognitiveScores) (st : PageState) :
  truthyString (assessmentId st) = None \/ user st = None ->
  cognitiveCompleteWith useLocalHeuristic w scores st
  = (record (Cognitive (Toast "Assessment not started")) st, Normal tt).
Proof.
  intros H. unfold cognitiveCompleteWith, handleCognitiveCompleteWith.
  unfold sessionOf; cbn [session_assessmentId session_user].
  destruct H as [H | H]; rewrite H.
  - reflexivity.
  - destruct (truthyString (assessmentId st)); reflexivity.
Qed.

(** As shipped (heuristic mode), with a session in place the handler
    always returns and leaves the heuristic result of the session's scores
    and recordings on display, the step advanced by one, loading and
    pending cleared, whatever the collaborators answer; it never contacts
    the prediction service.  Without an assessment id or a user it only
    raises the "Assessment not started" toast. *)
Theorem heuristic_mode_shows_result (w : PageWorld) (scores : CognitiveScores)
    (st : PageState) :
  let st' := fst (cognitiveComplete w scores st) in
  snd (cognitiveComplete w scores st) = Normal tt
  /\ (forall aid u,
        truthyString (assessmentId st) = Some aid -> user st = Some u ->
        result st'
        = Some (heuristicResult aid scores (speechDurations st)
                  (now (cognitiveWorld w)))
        /\ activeStepIndex st' = nextStep (activeStepIndex st)
        /\ isLoading st' = false /\ isResultPending st' = false
        /\ (forall e, e ∈ log st' -> contactsPrediction e = true -> e ∈ log st))
  /\ (truthyString (assessmentId st) = None \/ user st = None ->
      st' = record (Cognitive (Toast "Assessment not started")) st).
Proof.
  cbv zeta. unfold cognitiveComplete, USE_LOCAL_HEURISTIC.
  split; [| split].
  - destruct (truthyString (assessmentId st)) as [aid |] eqn:Ha;
      [destruct (user st) as [u |] eqn:Hu |].
    + apply (cognitive_settles true w scores st aid u Ha Hu).
    + now rewrite cognitive_without_session by (right; exact Hu).
    + now rewrite cognitive_without_session by (left; exact Ha).
  - intros aid u Ha Hu.
    destruct (cognitive_settles true w scores st aid u Ha Hu)
      as (_ & Hl & Hp & Hi).
    split; [| split; [exact Hi | split; [exact Hl | split; [exact Hp |]]]].
    + destruct (sessionOf_present st aid u Ha Hu) as [Hs1 Hs2].
      unfold cognitiveCompleteWith.
      rewrite (local_run _ _ aid _ scores (speechDurations st) Hs1 Hs2).
      cbn [fst]. rewrite !foldl_app. cbn [foldl].
      match goal with
      | |- result (applyEvent (applyEvent (foldl applyEvent ?s ?t) _) _) = _ =>
          change (result (foldl applyEvent s t)
                  = Some (heuristicResult aid scores (speechDurations st)
                            (now (cognitiveWorld w))));
          rewrite (foldl_neutral_result t s) by apply persistResult_quiet
      end.
      reflexivity.
    + intros e He Hc.
      destruct (sessionOf_present st aid u Ha Hu) as [Hs1 Hs2].
      unfold cognitiveCompleteWith in He.
      rewrite (local_run _ _ aid _ scores (speechDurations st) Hs1 Hs2) in He.
      cbn [fst] in He. rewrite log_foldl_applyEvent in He.
      apply elem_of_app in He as [He | He]; [exact He | exfalso].
      apply list_elem_of_fmap in He as (ev & -> & Hev).
      rewrite !elem_of_app, !elem_of_cons in Hev.
      destruct (persistResult_quiet (cognitiveWorld w) (sessionOf st)
                  {| user_id := id u; accessToken := userAccessToken u |}
                  (heuristicResult aid scores (speechDurations st)
                     (now (cognitiveWorld w)))) as [_ Hq].
      rewrite forallb_forall in Hq.
      destruct Hev as [[-> | [-> | [-> | Hev]]]
                      | [[-> | [-> | Hev]] | [-> | [-> | Hev]]]];
        try discriminate Hc; try (now inversion Hev).
      apply list_elem_of_In, Hq in Hev. rewrite Hc in Hev. discriminate Hev.
  - intros H. now rewrite cognitive_without_session by exact H.
Qed.

Lemma heuristic_mode_shows_result_example :
  result (fst (cognitiveComplete kindWorld sampleScores
                 (handleOnboardingSubmit kindWorld sampleValues signedInStart)))
  = Some (heuristicResult "assessment-1" sampleScores ∅
            (now (cognitiveWorld kindWorld))).
Proof.
  destruct (heuristic_mode_shows_result kindWorld sampleScores
              (handleOnboardingSubmit kindWorld sampleValues signedInStart))
    as (_ & H & _).
  destruct (H "assessment-1"%string (storedUser sampleRegistration)
              eq_refl eq_refl) as [Hres _].
  exact Hres.
Defined.

(** *** Every handler hands the page back *)

Lemma nextStep_in_table (i : nat) : nextStep i < length STEP_CONFIG.
Proof.
  rewrite nextStep_min. simpl. lia.
Qed.

Lemma onboarding_settled (w : PageWorld) (values : OnboardingFormValues)
    (st : PageState) :
  settled st -> settled (handleOnboardingSubmit w values st).
Proof.
  intros (Hi & Hl & Hu & Hp).
  unfold handleOnboardingSubmit, requireCloudSignIn, settled.
  destruct (isCloudSignedIn st);
    [destruct (registerUser w values) as [response |];
     [destruct (startAssessment w (registrationToken response)) |] |];
    cbn; repeat split; try assumption.
  apply nextStep_in_table.
Qed.

Lemma upload_settled (w : PageWorld) (taskId : string) (durationMs : Q)
    (st : PageState) :
  settled st -> settled (handleSpeechUpload w taskId durationMs st).
Proof.
  intros (Hi & Hl & Hu & Hp).
  unfold handleSpeechUpload, requireCloudSignIn, settled.
  destruct (isCloudSignedIn st);
    [destruct (truthyString (assessmentId st));
     [destruct (user st);
      [destruct (uploadSpeechSample w taskId durationMs) |] |] |];
    cbn; repeat split; assumption.
Qed.

Lemma cognitive_settled (useLocalHeuristic : bool) (w : PageWorld)
    (scores : CognitiveScores) (st : PageState) :
  settled st ->
  settled (fst (cognitiveCompleteWith useLocalHeuristic w scores st)).
Proof.
  intros (Hi & Hl & Hu & Hp).
  destruct (truthyString (assessmentId st)) as [aid |] eqn:Ha;
    [destruct (user st) as [u |] eqn:Hus |].
  - destruct (cognitive_settles useLocalHeuristic w scores st aid u Ha Hus)
      as (_ & H1 & H2 & H3).
    unfold settled. rewrite H1, H2, H3.
    repeat split; [apply nextStep_in_table |].
    unfold cognitiveCompleteWith.
    destruct (handleCognitiveCompleteWith useLocalHeuristic (cognitiveWorld w)
                (sessionOf st) scores (speechDurations st)) as [t o].
    cbn [fst].
    destruct (foldl_applyEvent_frame t st) as (_ & _ & _ & _ & H5).
    now rewrite H5.
  - rewrite cognitive_without_session by (right; exact Hus).
    repeat split; assumption.
  - rewrite cognitive_without_session by (left; exact Ha).
    repeat split; assumption.
Qed.

(** Whatever the visitor does, in whatever order, and whatever the
    collaborators answer, in either scoring mode: a page that was at a
    step of the table with nothing loading, uploading or pending is so
    again after every handler has run. *)
Theorem handlers_hand_the_page_back (useLocalHeuristic : bool) (w : PageWorld)
    (actions : list Action) (st : PageState) :
  settled st -> settled (performAll useLocalHeuristic w actions st).
Proof.
  revert st. induction actions as [| a actions IH]; intros st Hs.
  - exact Hs.
  - cbn [performAll foldl]. apply IH.
    destruct a as [values | taskId durationMs | | scores]; cbn [perform].
    + now apply onboarding_settled.
    + now apply upload_settled.
    + destruct Hs as (Hi & Hl & Hu & Hp).
      repeat split; try assumption. apply nextStep_in_table.
    + now apply cognitive_settled.
Qed.

Lemma handlers_hand_the_page_back_example :
  settled (performAll false noAssessmentWorld
             [SubmitOnboarding sampleValues;
              UploadSpeech "story-recall" 60000%Q;
              CompleteCognitive sampleScores; CompleteSpeech]
             signedInStart).
Proof.
  apply (handlers_hand_the_page_back false noAssessmentWorld).
  repeat split. simpl. lia.
Defined.

(** *** The whole assessment *)

Lemma uploadAll_stores (w : PageWorld) (recordings : list (string * Q))
    (st : PageState) (aid : string) (u : PageUser) :
  isCloudSignedIn st = true ->
  truthyString (assessmentId st) = Some aid -> user st = Some u ->
  Forall (fun r => uploadSpeechSample w (fst r) (snd r) = true) recordings ->
  let st' := uploadAll w recordings st in
  speechDurations st' = recordAll recordings (speechDurations st)
  /\ user st' = user st /\ assessmentId st' = assessmentId st
  /\ auth st' = auth st /\ activeStepIndex st' = activeStepIndex st
  /\ result st' = result st.
Proof.
  revert st. induction recordings as [| [taskId durationMs] rs IH];
    intros st Hc Ha Hu Hall.
  - repeat split.
  - apply Forall_cons in Hall as [Hup Hall]. cbn [fst snd] in Hup.
    assert (E : handleSpeechUpload w taskId durationMs st
                = setIsSpeechUploading false
                    (setSpeechDurations (fun prev => <[taskId := durationMs]> prev)
                       (toast "Speech sample captured"
                          (record (UploadSpeechSampleCalled taskId durationMs)
                             (setIsSpeechUploading true st))))).
    { unfold handleSpeechUpload, requireCloudSignIn.
      now rewrite Hc, Ha, Hu, Hup. }
    cbv zeta. unfold uploadAll, recordAll. cbn [foldl fst snd]. rewrite E.
    match goal with
    | |- context [foldl _ ?s rs] =>
        destruct (IH s) as (H1 & H2 & H3 & H4 & H5 & H6);
        [exact Hc | cbn; rewrite Ha; reflexivity | cbn; exact Hu | exact Hall |]
    end.
    unfold uploadAll, recordAll in *.
    rewrite H1, H2, H3, H4, H5, H6. repeat split.
Qed.

Lemma uploadAll_settled (w : PageWorld) (recordings : list (string * Q))
    (st : PageState) :
  settled st -> settled (uploadAll w recordings st).
Proof.
  revert st. induction recordings as [| r rs IH]; intros st Hs; [exact Hs |].
  unfold uploadAll. cbn [foldl]. apply IH. now apply upload_settled.
Qed.

(** From the first render of a signed-in visitor: when registration and
    the start of the assessment succeed and every upload succeeds, going
    through onboarding, the uploads, the end of the speech stage and the
    end of the cognitive stage leaves the page at the results step,
    settled, showing the heuristic result of the given scores and of the
    recordings as uploaded, a later upload of a task replacing an earlier
    one. *)
Theorem whole_assessment_shows_result (w : PageWorld)
    (values : OnboardingFormValues) (recordings : list (string * Q))
    (scores : CognitiveScores) (response : Registration) (aid : string) :
  registerUser w values = Some response ->
  startAssessment w (registrationToken response) = Some aid ->
  aid <> ""%string ->
  Forall (fun r => uploadSpeechSample w (fst r) (snd r) = true) recordings ->
  let st := performAll true w (wholeAssessment values recordings scores)
              signedInStart in
  fst <$> STEP_CONFIG !! activeStepIndex st = Some "results"%string
  /\ result st
     = Some (heuristicResult aid scores (recordAll recordings ∅)
               (now (cognitiveWorld w)))
  /\ user st = Some (storedUser response)
  /\ assessmentId st = Some aid
  /\ settled st.
Proof.
  intros Hr Hs Hne Hall. cbv zeta.
  unfold wholeAssessment, performAll.
  rewrite !foldl_app. cbn [foldl perform].
  set (st1 := handleOnboardingSubmit w values signedInStart).
  assert (E1 : user st1 = Some (storedUser response)
               /\ assessmentId st1 = Some aid
               /\ activeStepIndex st1 = 1 /\ isCloudSignedIn st1 = true
               /\ speechDurations st1 = ∅ /\ settled st1).
  { unfold st1, handleOnboardingSubmit, requireCloudSignIn. cbn.
    rewrite Hr, Hs. cbn. repeat split. apply nextStep_in_table. }
  destruct E1 as (Hu1 & Ha1 & Hi1 & Hc1 & Hd1 & Hset1).
  assert (Ht : truthyString (assessmentId st1) = Some aid).
  { rewrite Ha1. destruct aid; [congruence | reflexivity]. }
  rewrite foldl_fmap.
  change (foldl (fun s r => perform true w s (UploadSpeech (fst r) (snd r)))
            st1 recordings) with (uploadAll w recordings st1).
  destruct (uploadAll_stores w recordings st1 aid _ Hc1 Ht Hu1 Hall)
    as (H1 & H2 & H3 & H4 & H5 & H6).
  set (st2 := uploadAll w recordings st1) in *.
  assert (Hset2 : settled st2) by (apply uploadAll_settled, Hset1).
  set (st3 := handleSpeechComplete st2).
  assert (E3 : truthyString (assessmentId st3) = Some aid
               /\ user st3 = Some (storedUser response)
               /\ activeStepIndex st3 = 2
               /\ speechDurations st3 = recordAll recordings ∅
               /\ settled st3).
  { unfold st3, handleSpeechComplete. cbn.
    rewrite H3, H2, H5, Hi1, H1, Hd1.
    repeat split; try assumption; try (cbn; lia); apply Hset2. }
  destruct E3 as (Ha3 & Hu3 & Hi3 & Hd3 & Hset3).
  destruct (cognitive_settles true w scores st3 aid _ Ha3 Hu3)
    as (_ & Hl & Hp & Hi).
  cbv zeta in Hl, Hp, Hi.
  split; [rewrite Hi, Hi3; reflexivity |].
  split.
  { destruct (sessionOf_present st3 aid _ Ha3 Hu3) as [Hs1 Hs2].
    unfold cognitiveCompleteWith.
    rewrite (local_run _ _ aid _ scores (speechDurations st3) Hs1 Hs2).
    cbn [fst]. rewrite Hd3, !foldl_app. cbn [foldl].
    match goal with
    | |- result (applyEvent (applyEvent (foldl applyEvent ?s ?t) _) _) = _ =>
        change (result (foldl applyEvent s t)
                = Some (heuristicResult aid scores (recordAll recordings ∅)
                          (now (cognitiveWorld w))));
        rewrite (foldl_neutral_result t s) by apply persistResult_quiet
    end.
    reflexivity. }
  unfold cognitiveCompleteWith.
  destruct (handleCognitiveCompleteWith true (cognitiveWorld w) (sessionOf st3)
              scores (speechDurations st3)) as [t o] eqn:Erun.
  cbn [fst].
  destruct (foldl_applyEvent_frame t st3) as (F1 & F2 & _ & _ & _).
  split; [now rewrite F1 |].
  split; [rewrite F2; unfold st3, handleSpeechComplete; cbn;
          now rewrite H3 |].
  pose proof (cognitive_settled true w scores st3 Hset3) as Hfin.
  unfold cognitiveCompleteWith in Hfin. rewrite Erun in Hfin. exact Hfin.
Qed.

Lemma whole_assessment_shows_result_example :
  result (performAll true kindWorld
            (wholeAssessment sampleValues
               [("story-recall"%string, 30000%Q);
                ("story-recall"%string, 60000%Q)] sampleScores)
            signedInStart)
  = Some (heuristicResult "assessment-1" sampleScores
            (recordAll [("story-recall"%string, 30000%Q);
                        ("story-recall"%string, 60000%Q)] ∅)
            (now (cognitiveWorld kindWorld))).
Proof.
  apply (whole_assessment_shows_result kindWorld sampleValues
           [("story-recall"%string, 30000%Q); ("story-recall"%string, 60000%Q)]
           sampleScores sampleRegistration "assessment-1").
  - reflexivity.
  - reflexivity.
  - discriminate.
  - repeat constructor.
Defined.

(** *** Saving the result *)

(** The save after a result is shown goes to exactly one store, the one of
    the sign-in in force (cloud, encrypted on the device, or the plain
    browser store when nobody is signed in); whatever the store throws is
    swallowed; and the history is set exactly when saving and loading both
    succeed. *)
Theorem result_saved_to_one_store (w : World) (s : Session) (u : User)
    (r : AssessmentResult) :
  snd (persistResult w s u r) = Normal tt
  /\ omap savesTo (fst (persistResult w s u r)) = [storeOf (session_auth s)]
  /\ existsb isSetHistory (fst (persistResult w s u r))
     = save_ok w && load_ok w
  /\ (save_ok w = false -> length (fst (persistResult w s u r)) = 1).
Proof.
  unfold persistResult.
  destruct (session_auth s) as [[|] |], (save_ok w), (load_ok w);
    repeat split; try reflexivity; discriminate.
Qed.

(** *** Recording more *)

Lemma upload_durations (w : PageWorld) (taskId : string) (durationMs : Q)
    (st : PageState) :
  speechDurations (handleSpeechUpload w taskId durationMs st)
  = speechDurations st
  \/ speechDurations (handleSpeechUpload w taskId durationMs st)
     = <[taskId := durationMs]> (speechDurations st).
Proof.
  unfold handleSpeechUpload, requireCloudSignIn.
  destruct (isCloudSignedIn st);
    [destruct (truthyString (assessmentId st));
     [destruct (user st);
      [destruct (uploadSpeechSample w taskId durationMs) |] |] |];
    cbn; auto.
Qed.

Lemma recordingsLe_refl (d : gmap string Q) : recordingsLe d d.
Proof.
  intros t _. apply Qle_refl.
Qed.

Lemma recordingsLe_insert (d : gmap string Q) (taskId : string) (v : Q) :
  (default 0 (d !! taskId) <= v)%Q -> recordingsLe d (<[taskId := v]> d).
Proof.
  intros Hv t _. unfold durationOf.
  destruct (decide (st_id t = taskId)) as [-> | Hne].
  - now rewrite lookup_insert_eq.
  - rewrite lookup_insert_ne by congruence. apply Qle_refl.
Qed.

(** An upload of a recording that is at least as long as what was stored
    for its task (0 when nothing was), successful or not, never raises the
    probability or the risk level the heuristic gives for any scores. *)
Theorem upload_never_raises_risk (w : PageWorld) (taskId : string)
    (durationMs : Q) (st : PageState) (aid now : string)
    (scores : CognitiveScores) :
  (default 0 (speechDurations st !! taskId) <= durationMs)%Q ->
  let st' := handleSpeechUpload w taskId durationMs st in
  (probability (heuristicResult aid scores (speechDurations st') now)
   <= probability (heuristicResult aid scores (speechDurations st) now))%Q
  /\ (rank (riskLevel (heuristicResult aid scores (speechDurations st') now))
      <= rank (riskLevel (heuristicResult aid scores (speechDurations st) now)))%nat.
Proof.
  intros Hlen. cbv zeta.
  assert (Hle : recordingsLe (speechDurations st)
                  (speechDurations (handleSpeechUpload w taskId durationMs st))).
  { destruct (upload_durations w taskId durationMs st) as [-> | ->];
      [apply recordingsLe_refl | now apply recordingsLe_insert]. }
  pose proof (speechCoverage_monotone _ _ Hle) as Hc.
  assert (Hp : (probability (heuristicResult aid scores
                 (speechDurations (handleSpeechUpload w taskId durationMs st)) now)
               <= probability (heuristicResult aid scores (speechDurations st) now))%Q).
  { unfold heuristicResult; cbn [probability].
    apply clampProbability_monotone. lra. }
  split; [exact Hp |].
  apply riskLevelOf_monotone. exact Hp.
Qed.

Lemma upload_never_raises_risk_example :
  (probability (heuristicResult "a" sampleScores
                 (speechDurations
                    (handleSpeechUpload kindWorld "story-recall" 60000
                       (handleOnboardingSubmit kindWorld sampleValues
                          signedInStart))) "t")
  <= probability (heuristicResult "a" sampleScores
                    (speechDurations
                       (handleOnboardingSubmit kindWorld sampleValues
                          signedInStart)) "t"))%Q.
Proof.
  apply (upload_never_raises_risk kindWorld "story-recall" 60000%Q
           (handleOnboardingSubmit kindWorld sampleValues signedInStart)
           "a" "t" sampleScores).
  vm_compute. discriminate.
Defined.

End PageFacts.
(** ** The words of the generated tasks *)

Module TaskSetFacts.
Import Assessment GeneratorFacts TaskSet.

Lemma lexiconOf_known (language : string) : lexiconOf language ∈ lexicons.
Proof.
  unfold lexiconOf, WORDS_BY_LANG, lexicons.
  destruct (decide (language = "en")) as [-> | Hen]; [set_solver |].
  destruct (decide (language = "hi")) as [-> | Hhi]; [set_solver |].
  destruct (decide (language = "bn")) as [-> | Hbn]; [set_solver |].
  destruct (decide (language = "ta")) as [-> | Hta]; [set_solver |].
  rewrite !lookup_insert_ne, lookup_singleton_ne by congruence. set_solver.
Qed.

(** Every lexicon has eleven words, no two alike. *)
Lemma lexicons_distinct (lex : list string) :
  lex ∈ lexicons -> NoDup lex /\ length lex = 11%nat.
Proof.
  intros H. unfold lexicons in H.
  repeat (apply elem_of_cons in H as [-> | H];
          [split; [apply (bool_decide_unpack _); vm_compute; exact I
                  | reflexivity] |]).
  inversion H.
Qed.

(** What is left of a list without repetitions when the words of a part of
    it are taken out. *)
Lemma length_filter_out (lex part : list string) :
  NoDup lex -> NoDup part -> (forall w, w ∈ part -> w ∈ lex) ->
  (length (filter (fun w => w ∉ part) lex) + length part = length lex)%nat.
Proof.
  intros Hlex Hpart Hsub.
  rewrite <- (length_app (filter (fun w => w ∉ part) lex) part).
  apply Permutation_length.
  rewrite <- (filter_app_complement (fun w => w ∈ part) lex) at 2.
  rewrite (Permutation_app_comm (filter (fun w => w ∈ part) lex)).
  apply Permutation_app_head.
  apply NoDup_Permutation; [exact Hpart | now apply NoDup_filter |].
  intros w. rewrite list_elem_of_filter. split; [| tauto].
  intros Hw. split; [exact Hw | now apply Hsub].
Qed.

(** The indices of distinct items in a rearrangement of them are the
    numbers below their count, each once. *)
Lemma indices_rearranged (opts items : list string) :
  NoDup items -> opts ≡ₚ items ->
  map (indexOf opts) items ≡ₚ seqZ 0 (Z.of_nat (length items)).
Proof.
  intros Hnd Hp.
  apply submseteq_length_Permutation.
  - apply NoDup_submseteq.
    + apply NoDup_fmap_2_strong; [| exact Hnd].
      intros x y Hx Hy E.
      assert (Hx' : x ∈ opts) by now rewrite Hp.
      assert (Hy' : y ∈ opts) by now rewrite Hp.
      destruct (indexOf_found opts x Hx') as [_ Gx].
      destruct (indexOf_found opts y Hy') as [_ Gy].
      rewrite E in Gx. congruence.
    + intros k Hk. apply list_elem_of_fmap in Hk as (x & -> & Hx).
      assert (Hx' : x ∈ opts) by now rewrite Hp.
      destruct (indexOf_found opts x Hx') as [Hr _].
      apply elem_of_seqZ. rewrite <- (Permutation_length Hp). lia.
  - rewrite length_seqZ, length_map. lia.
Qed.

(** The run of the generator with its draws named. *)
Lemma generateCognitiveTasks_draws (language : string) (lex : list string)
    (src : RandomSource) :
  nullish (getLexicon language) (getLexicon "en") = WordList lex ->
  exists sa sb o1 o2 digit1 digit2 src',
    sa ≡ₚ lex
    /\ sb ≡ₚ filter (fun w => w ∉ take 5 sa) lex
    /\ o1 ≡ₚ take 5 sa /\ o2 ≡ₚ take 5 sb
    /\ ct_id digit1 = "digit-span" /\ ct_id digit2 = "digit-span-reverse"
    /\ generateCognitiveTasks language src
       = (Normal
            [{| ct_id := "word-recall"; ct_type := word_recall;
                ct_title := "Word Recall";
                ct_description :=
                  "Remember the list of words and tap them in the same order after Begin.";
                ct_prompt :=
                  "Remember the words: " +:+ join ", " (take 5 sa) +:+ ".";
                options := Some o1; correctAnswer := None;
                sequenceAnswer := Some (map (indexOf o1) (take 5 sa)) |};
             digit1; attention1;
             {| ct_id := "word-recall-2"; ct_type := word_recall;
                ct_title := "Word Recall II";
                ct_description :=
                  "Remember the list of words and tap them in the same order after Begin.";
                ct_prompt :=
                  "Remember the words: " +:+ join ", " (take 5 sb) +:+ ".";
                options := Some o2; correctAnswer := None;
                sequenceAnswer := Some (map (indexOf o2) (take 5 sb)) |};
             digit2; visualSearch; clock], src').
Proof.
  intros Hlex. unfold generateCognitiveTasks. rewrite Hlex.
  destruct (shuffle_returns lex src) as (sa & s1 & E1 & P1).
  rewrite (bind_normal _ _ _ _ _ E1). cbv beta zeta.
  destruct (shuffle_returns (filter (fun w => w ∉ take 5 sa) lex) s1)
    as (sb & s2 & E2 & P2).
  rewrite (bind_normal _ _ _ _ _ E2). cbv beta zeta.
  destruct (makeWordRecallTask_returns "word-recall" "Word Recall"
              (take 5 sa) s2) as (o1 & s3 & Q1 & E3).
  rewrite (bind_normal _ _ _ _ _ E3). cbv beta zeta.
  destruct (makeWordRecallTask_returns "word-recall-2" "Word Recall II"
              (take 5 sb) s3) as (o2 & s4 & Q2 & E4).
  rewrite (bind_normal _ _ _ _ _ E4). cbv beta zeta.
  destruct (makeDigitSpanTask_returns "digit-span" "Digit Span"
              [3; 9; 1; 4; 7]%nat s4) as (d1 & p1 & s5 & _ & _ & E5).
  rewrite (bind_normal _ _ _ _ _ E5). cbv beta zeta.
  destruct (makeDigitSpanTask_returns "digit-span-reverse"
              "Digit Span (Reverse)" [7; 2; 9; 3]%nat s5)
    as (d2 & p2 & s6 & _ & _ & E6).
  rewrite (bind_normal _ _ _ _ _ E6). cbv beta zeta.
  eexists sa, sb, o1, o2, _, _, s6.
  split; [exact P1 |]. split; [exact P2 |].
  split; [exact Q1 |]. split; [exact Q2 |].
  split; [| split; [| reflexivity]]; reflexivity.
Qed.

(** For every language code other than the names [Object.prototype]
    defines: each of the two word-recall tasks offers exactly five words;
    the ten words are pairwise different and all come from the word list
    the language is served with; each task's correct sequence uses every
    option index 0 to 4 exactly once; and the seven tasks carry the seven
    fixed ids, in order. *)
Theorem word_recall_tasks_use_each_word_once (language : string)
    (src : RandomSource) :
  language ∉ Object_prototype_names ->
  exists tasks src' word1 word2 o1 o2 s1 s2,
    generateCognitiveTasks language src = (Normal tasks, src')
    /\ map ct_id tasks = taskIds
    /\ tasks !! 0%nat = Some word1 /\ tasks !! 3%nat = Some word2
    /\ options word1 = Some o1 /\ options word2 = Some o2
    /\ sequenceAnswer word1 = Some s1 /\ sequenceAnswer word2 = Some s2
    /\ length o1 = 5%nat /\ length o2 = 5%nat
    /\ NoDup (o1 ++ o2)
    /\ (forall w, w ∈ o1 ++ o2 -> w ∈ lexiconOf language)
    /\ s1 ≡ₚ [0; 1; 2; 3; 4]%Z /\ s2 ≡ₚ [0; 1; 2; 3; 4]%Z.
Proof.
  intros Hnot.
  destruct (getLexicon_resolves language Hnot) as (lex & Hlex & Edef).
  fold (lexiconOf language) in Edef.
  destruct (lexicons_distinct lex) as [Hnd Hlen];
    [rewrite Edef; apply lexiconOf_known |].
  destruct (generateCognitiveTasks_draws language lex src Hlex)
    as (sa & sb & o1 & o2 & d1 & d2 & src' & Pa & Pb & Q1 & Q2 & I1 & I2 & Hrun).
  assert (Hsa : length (take 5 sa) = 5%nat)
    by (rewrite length_take, (Permutation_length Pa), Hlen; reflexivity).
  assert (Hnda : NoDup (take 5 sa))
    by (apply (sublist_NoDup _ sa); [now rewrite Pa | apply sublist_take]).
  assert (Hsuba : forall w, w ∈ take 5 sa -> w ∈ lex)
    by (intros w Hw; apply subseteq_take in Hw; now rewrite Pa in Hw).
  pose proof (length_filter_out lex (take 5 sa) Hnd Hnda Hsuba) as Hrest.
  assert (Hsb : length (take 5 sb) = 5%nat)
    by (rewrite length_take, (Permutation_length Pb); lia).
  assert (Hndb : NoDup (take 5 sb)).
  { apply (sublist_NoDup _ sb); [| apply sublist_take].
    rewrite Pb. now apply NoDup_filter. }
  assert (Hsubb : forall w, w ∈ take 5 sb -> w ∈ lex /\ w ∉ take 5 sa).
  { intros w Hw. apply subseteq_take in Hw. rewrite Pb in Hw.
    apply list_elem_of_filter in Hw. tauto. }
  eexists _, src', _, _, o1, o2, _, _.
  split; [exact Hrun |].
  split; [cbn [map ct_id]; rewrite I1, I2; reflexivity |].
  repeat (split; [reflexivity |]).
  split; [now rewrite (Permutation_length Q1) |].
  split; [now rewrite (Permutation_length Q2) |].
  split; [| split; [| split]].
  - rewrite Q1, Q2. apply NoDup_app. repeat split; try assumption.
    intros w Hw1 Hw2. now apply (Hsubb w) in Hw2.
  - intros w Hw. rewrite Q1, Q2 in Hw. rewrite <- Edef.
    apply elem_of_app in Hw as [Hw | Hw]; [now apply Hsuba | now apply Hsubb].
  - rewrite (indices_rearranged o1 (take 5 sa) Hnda Q1), Hsa. reflexivity.
  - rewrite (indices_rearranged o2 (take 5 sb) Hndb Q2), Hsb. reflexivity.
Qed.

Lemma word_recall_tasks_use_each_word_once_example :
  exists tasks src' word1 word2 o1 o2 s1 s2,
    generateCognitiveTasks "ta" [[7; 0; 3; 1]%nat; [2; 2]%nat] = (Normal tasks, src')
    /\ map ct_id tasks = taskIds
    /\ tasks !! 0%nat = Some word1 /\ tasks !! 3%nat = Some word2
    /\ options word1 = Some o1 /\ options word2 = Some o2
    /\ sequenceAnswer word1 = Some s1 /\ sequenceAnswer word2 = Some s2
    /\ length o1 = 5%nat /\ length o2 = 5%nat
    /\ NoDup (o1 ++ o2)
    /\ (forall w, w ∈ o1 ++ o2 -> w ∈ lexiconOf "ta")
    /\ s1 ≡ₚ [0; 1; 2; 3; 4]%Z /\ s2 ≡ₚ [0; 1; 2; 3; 4]%Z.
Proof.
  apply (word_recall_tasks_use_each_word_once "ta").
  apply (bool_decide_unpack _). vm_compute. exact I.
Defined.

End TaskSetFacts.
(** ** The account card: error texts and sign-in *)

Module AccountFacts.
Import Assessment Chatbot Account.

Lemma dropPrefix_Some (p s r : string) :
  dropPrefix p s = Some r <-> s = p +:+ r.
Proof.
  revert s. induction p as [| a p IH]; intros s; cbn.
  - split; [now intros [= ->] | now intros ->].
  - destruct s as [| b s].
    + split; discriminate.
    + destruct (Ascii.eqb_spec a b) as [-> | Hab].
      * rewrite IH. split; [now intros -> | now intros [= ->]].
      * split; [discriminate | intros [= -> _]; now destruct Hab].
Qed.

Lemma includes_unfold (s marker : string) :
  includes s marker
  = match dropPrefix marker s with
    | Some _ => true
    | None =>
        match s with
        | EmptyString => false
        | String _ s' => includes s' marker
        end
    end.
Proof. destruct s; reflexivity. Qed.

(** [includes] finds exactly the markers that occur. *)
Lemma includes_occursIn (s marker : string) :
  includes s marker = true <-> occursIn marker s.
Proof.
  split.
  - induction s as [| c s IH]; cbn.
    + destruct (dropPrefix marker "") as [r |] eqn:E; [| discriminate].
      intros _. apply dropPrefix_Some in E. now exists "", r.
    + destruct (dropPrefix marker (String c s)) as [r |] eqn:E.
      * intros _. apply dropPrefix_Some in E. now exists "", r.
      * intros H. destruct (IH H) as (before & after & ->).
        now exists (String c before), after.
  - intros (before & after & ->).
    induction before as [| c before IH].
    + assert (E : dropPrefix marker ("" +:+ marker +:+ after) = Some after)
        by now apply dropPrefix_Some.
      now rewrite includes_unfold, E.
    + rewrite includes_unfold. cbn [String.append].
      destruct (dropPrefix marker _); [reflexivity | exact IH].
Qed.

Lemma includes_absent (s marker : string) :
  ~ occursIn marker s -> includes s marker = false.
Proof.
  intros H. destruct (includes s marker) eqn:E; [| reflexivity].
  now apply includes_occursIn in E.
Qed.

(** Whatever is thrown, the text shown is one of six fixed sentences. *)
Lemma formatAuthError_canned (error : ErrorValue) :
  formatAuthError error ∈ genericReply :: authReplies.*2.
Proof.
  unfold formatAuthError. cbv zeta.
  repeat match goal with
         | |- context [includes ?s ?m] => destruct (includes s m)
         end;
    apply (bool_decide_unpack _); vm_compute; exact I.
Qed.

Ltac marker_absent Hbefore j :=
  let F := fresh "F" in
  pose proof (Hbefore j _ _ ltac:(lia) eq_refl) as F;
  apply includes_absent in F.

Ltac rewrite_tests :=
  repeat match goal with
         | H : includes _ _ = _ |- _ => rewrite H; clear H
         end.

(** [formatAuthError] answers with the reply of the first marker, in the
    order of its tests, that occurs in the message of the error (the text
    of its [message] property for an object that has one, the error itself
    for a string, nothing otherwise); with the generic reply when no marker
    occurs, in particular for an error without message; and never with
    anything but one of these six sentences. *)
Theorem formatAuthError_first_marker (error : ErrorValue) :
  (forall i marker reply,
      authReplies !! i = Some (marker, reply) ->
      occursIn marker (messageOf error) ->
      (forall j m r, (j < i)%nat -> authReplies !! j = Some (m, r) ->
                     ~ occursIn m (messageOf error)) ->
      formatAuthError error = reply)
  /\ ((forall m r, (m, r) ∈ authReplies -> ~ occursIn m (messageOf error)) ->
      formatAuthError error = genericReply)
  /\ (messageOf error = "" -> formatAuthError error = genericReply)
  /\ formatAuthError error ∈ genericReply :: authReplies.*2.
Proof.
  split; [| split; [| split]].
  - intros i marker reply Hi Hocc Hbefore.
    apply includes_occursIn in Hocc.
    destruct i as [| [| [| [| [| i]]]]]; try discriminate Hi;
      injection Hi as <- <-.
    + unfold formatAuthError; cbv zeta. now rewrite_tests.
    + marker_absent Hbefore 0%nat.
      unfold formatAuthError; cbv zeta. now rewrite_tests.
    + marker_absent Hbefore 0%nat. marker_absent Hbefore 1%nat.
      unfold formatAuthError; cbv zeta. now rewrite_tests.
    + marker_absent Hbefore 0%nat. marker_absent Hbefore 1%nat.
      marker_absent Hbefore 2%nat.
      unfold formatAuthError; cbv zeta. now rewrite_tests.
    + marker_absent Hbefore 0%nat. marker_absent Hbefore 1%nat.
      marker_absent Hbefore 2%nat. marker_absent Hbefore 3%nat.
      unfold formatAuthError; cbv zeta. now rewrite_tests.
  - intros Hnone.
    assert (H : Forall (fun entry => includes (messageOf error) entry.1 = false)
                  authReplies).
    { apply Forall_forall. intros [m r] Hin.
      apply includes_absent. now apply (Hnone m r). }
    unfold authReplies in H.
    repeat (apply Forall_cons in H as [? H]). cbn [fst] in *.
    unfold formatAuthError; cbv zeta. now rewrite_tests.
  - intros H. unfold formatAuthError. rewrite H. reflexivity.
  - apply formatAuthError_canned.
Qed.

(** *** The sign-in buttons *)

Ltac settle_run :=
  repeat match goal with
         | |- context [match ?x with Fulfilled _ => _ | Rejected _ => _ end] =>
             let E := fresh "E" in destruct x eqn:E
         end.

(** Each of the three cloud buttons catches whatever its calls throw: the
    run is fulfilled and ends with its one toast.  The session is set
    exactly when the sign-in call itself succeeded; the toast carries no
    description exactly when a history was set as well, and otherwise one
    of the six fixed sentences.  So when signing in succeeds and loading the
    reports fails, the session is set although the toast reports a
    failure. *)
Theorem cloud_sign_in_outcomes (w : AccountWorld)
    (authEmail authPassword : string) (b : Button)
    (attempt : Settled CloudUser) :
  cloudAttempt w authEmail authPassword b = Some attempt ->
  exists earlier title description,
    press w authEmail authPassword b
    = (earlier ++ [Toasted title description], Fulfilled tt)
    /\ Forall (fun ev => isToast ev = false) earlier
    /\ sessionsSet earlier
       = match attempt with
         | Fulfilled u => [cloudSession u]
         | Rejected _ => []
         end
    /\ (description = None <-> historiesSet earlier <> [])
    /\ (forall text, description = Some text ->
                     text ∈ genericReply :: authReplies.*2)
    /\ (forall u reason,
           attempt = Fulfilled u -> b <> CloudSignUp ->
           loadReports w (uid u) = Rejected reason ->
           sessionsSet earlier = [cloudSession u]
           /\ description = Some (formatAuthError reason)).
Proof.
  intros H.
  destruct b; cbn in H; try discriminate H; injection H as <-;
    unfold press, continueWithGoogle, cloudLogIn, cloudSignUp, catching,
      andThen, await, fire;
    settle_run; cbn.
  all: match goal with
       | |- exists _ _ _, (?t, _) = _ /\ _ =>
           exists (removelast t);
           match eval cbn in (last t) with
           | Some (Toasted ?title ?d) => exists title, d
           end
       end; cbn.
  all: split; [reflexivity |].
  all: split; [repeat constructor |].
  all: split; [reflexivity |].
  all: split; [split; [discriminate || (intros _; discriminate) | ] |].
  all: try (intros Hh; first [reflexivity | now destruct Hh]).
  all: split; [intros text [= <-] || intros text [=];
               try apply formatAuthError_canned |].
  all: intros u' reason' Hu Hb Hl; try discriminate Hu; try (now destruct Hb).
  all: injection Hu as <-; split; [reflexivity |]; congruence.
Qed.

Lemma cloud_sign_in_outcomes_example :
  exists earlier title description,
    press offlineAccountWorld "a@b.c" "secret" ContinueWithGoogle
    = (earlier ++ [Toasted title description], Fulfilled tt)
    /\ Forall (fun ev => isToast ev = false) earlier
    /\ sessionsSet earlier = []
    /\ (description = None <-> historiesSet earlier <> [])
    /\ (forall text, description = Some text ->
                     text ∈ genericReply :: authReplies.*2)
    /\ (forall u reason,
           signInWithGoogle offlineAccountWorld = Fulfilled u ->
           ContinueWithGoogle <> CloudSignUp ->
           loadReports offlineAccountWorld (uid u) = Rejected reason ->
           sessionsSet earlier = [cloudSession u]
           /\ description = Some (formatAuthError reason)).
Proof.
  exact (cloud_sign_in_outcomes offlineAccountWorld "a@b.c" "secret"
           ContinueWithGoogle _ eq_refl).
Defined.

(** The two local buttons run the same handler.  With the email or the
    password empty it only asks for them.  Otherwise the one call that can
    make it fail is the fingerprint of the email, awaited outside the
    [try]: when that is rejected the handler is rejected with the same
    reason and nothing has been set.  Once the fingerprint is there the
    local session is set, with the password kept in it, and the handler
    ends with the toast that the user is signed in, whether or not the
    stored history could be read; the history is set only when it could. *)
Theorem local_login_outcomes (w : AccountWorld)
    (authEmail authPassword : string) (b : Button) :
  cloudAttempt w authEmail authPassword b = None ->
  (emptyText authEmail || emptyText authPassword = true ->
   press w authEmail authPassword b
   = ([Toasted "Enter email and password" None], Fulfilled tt))
  /\ (emptyText authEmail || emptyText authPassword = false ->
      (forall reason,
          fingerprintLowerCased w authEmail = Rejected reason ->
          press w authEmail authPassword b = ([], Rejected reason))
      /\ (forall anon,
             fingerprintLowerCased w authEmail = Fulfilled anon ->
             exists loaded,
               press w authEmail authPassword b
               = (AuthSet {| auth_provider := local; userId := anon;
                             auth_email := authEmail;
                             password := Some authPassword |}
                    :: loaded
                    ++ [Toasted "Signed in"
                          (Some "Your reports will be stored encrypted under this login.")],
                  Fulfilled tt)
               /\ sessionsSet loaded = []
               /\ Forall (fun ev => isToast ev = false) loaded
               /\ historiesSet loaded
                  = match loadEncryptedAssessmentHistory w anon authPassword with
                    | Fulfilled arr => [arr]
                    | Rejected _ => []
                    end)).
Proof.
  intros H.
  assert (E : press w authEmail authPassword b
              = handleAuthLogin w authEmail authPassword)
    by (destruct b; try discriminate H; reflexivity).
  rewrite E. clear E H. unfold handleAuthLogin.
  split; intros Hempty; rewrite Hempty; [reflexivity |].
  split.
  - intros reason Hf. rewrite Hf. reflexivity.
  - intros anon Hf. rewrite Hf.
    unfold catching, andThen, await, fire, finish.
    destruct (loadEncryptedAssessmentHistory w anon authPassword) as [arr | r];
      cbn.
    + exists [HistorySet arr]. repeat split; repeat constructor.
    + exists []. repeat split; repeat constructor.
Qed.

Lemma local_login_outcomes_example :
  (emptyText "a@b.c" || emptyText "secret" = true ->
   press offlineAccountWorld "a@b.c" "secret" LocalSignUp
   = ([Toasted "Enter email and password" None], Fulfilled tt))
  /\ (emptyText "a@b.c" || emptyText "secret" = false ->
      (forall reason,
          fingerprintLowerCased offlineAccountWorld "a@b.c" = Rejected reason ->
          press offlineAccountWorld "a@b.c" "secret" LocalSignUp
          = ([], Rejected reason))
      /\ (forall anon,
             fingerprintLowerCased offlineAccountWorld "a@b.c" = Fulfilled anon ->
             exists loaded,
               press offlineAccountWorld "a@b.c" "secret" LocalSignUp
               = (AuthSet {| auth_provider := local; userId := anon;
                             auth_email := "a@b.c";
                             password := Some "secret" |}
                    :: loaded
                    ++ [Toasted "Signed in"
                          (Some "Your reports will be stored encrypted under this login.")],
                  Fulfilled tt)
               /\ sessionsSet loaded = []
               /\ Forall (fun ev => isToast ev = false) loaded
               /\ historiesSet loaded
                  = match loadEncryptedAssessmentHistory offlineAccountWorld
                            anon "secret" with
                    | Fulfilled arr => [arr]
                    | Rejected _ => []
                    end)).
Proof.
  exact (local_login_outcomes offlineAccountWorld "a@b.c" "secret"
           LocalSignUp eq_refl).
Defined.

End AccountFacts.
(** ** The chat widget: what the fallback answers, and whole conversations *)

Module ConversationFacts.
Import Chatbot ChatbotFacts Account AccountFacts Conversation.

Lemma append_assoc (s1 s2 s3 : string) :
  (s1 +:+ s2) +:+ s3 = s1 +:+ s2 +:+ s3.
Proof.
  induction s1 as [| c s1 IH]; [reflexivity |].
  change (String c ((s1 +:+ s2) +:+ s3) = String c (s1 +:+ s2 +:+ s3)).
  now rewrite IH.
Qed.

(** *** What a match consumes *)

Lemma dropLiteral_Some (p s r : string) :
  dropLiteral p s = Some r -> exists w, s = w +:+ r /\ upper w = upper p.
Proof.
  revert s. induction p as [| c p IH]; intros s; cbn [dropLiteral].
  - intros [= ->]. now exists "".
  - destruct s as [| b s]; [discriminate |].
    destruct (Ascii.eqb_spec (canonicalize c) (canonicalize b)) as [E |];
      [| discriminate].
    intros H. destruct (IH s H) as (w & -> & Hw).
    exists (String b w). cbn [upper]. now rewrite Hw, E.
Qed.

Lemma dropLiteral_intro (p w r : string) :
  upper w = upper p -> dropLiteral p (w +:+ r) = Some r.
Proof.
  revert w. induction p as [| c p IH]; intros [| b w] H; cbn [upper] in H;
    try discriminate H; [reflexivity |].
  injection H as E Hw.
  change (String b w +:+ r) with (String b (w +:+ r)). cbn [dropLiteral].
  rewrite E, Ascii.eqb_refl. now apply IH.
Qed.

Lemma firstSome_map_Some {A B : Type} (f : A -> option B) (l : list A) (y : B) :
  firstSome (map f l) = Some y -> exists x, x ∈ l /\ f x = Some y.
Proof.
  induction l as [| x l IH]; cbn; [discriminate |].
  destruct (f x) as [y' |] eqn:E.
  - intros [= ->]. exists x. split; [apply list_elem_of_here | exact E].
  - intros H. destruct (IH H) as (x' & Hin & Hx').
    exists x'. split; [now apply list_elem_of_further | exact Hx'].
Qed.

Lemma dropWhiteSpace_Some (s s' : string) :
  dropWhiteSpace s = Some s' -> exists p, s = p +:+ s'.
Proof.
  intros H. apply firstSome_map_Some in H as (p & _ & Hp).
  exists p. now apply dropPrefix_Some.
Qed.

Lemma whiteSpaces_continues (fuel : nat) (s : string) (k : string -> bool) :
  whiteSpaces fuel s k = true ->
  exists consumed s', s = consumed +:+ s' /\ k s' = true.
Proof.
  revert s. induction fuel as [| fuel IH]; intros s; cbn [whiteSpaces];
    [discriminate |].
  destruct (dropWhiteSpace s) as [s1 |] eqn:E; [| discriminate].
  apply dropWhiteSpace_Some in E as (p & ->).
  intros H. apply orb_true_iff in H as [H | H].
  - destruct (IH s1 H) as (c & s' & -> & Hk).
    exists (p +:+ c), s'. now rewrite append_assoc.
  - now exists p, s1.
Qed.

(** A match goes on with what is left of the text after the part it
    consumed. *)
Lemma matchAt_continues (r : RegExp) (s : string) (k : string -> bool) :
  matchAt r s k = true ->
  exists consumed s', s = consumed +:+ s' /\ k s' = true.
Proof.
  revert s k.
  induction r as [lit | | r1 IH1 r2 IH2 | r1 IH1 r2 IH2 | r IH];
    intros s k; cbn [matchAt].
  - destruct (dropLiteral lit s) as [s' |] eqn:E; [| discriminate].
    apply dropLiteral_Some in E as (w & -> & _). intros Hk. now exists w, s'.
  - apply whiteSpaces_continues.
  - intros H. apply IH1 in H as (c1 & s1 & -> & H).
    apply IH2 in H as (c2 & s2 & -> & H).
    exists (c1 +:+ c2), s2. now rewrite append_assoc.
  - intros H. apply orb_true_iff in H as [H | H]; [now apply IH1 | now apply IH2].
  - intros H. apply orb_true_iff in H as [H | H]; [now apply IH |].
    now exists "", s.
Qed.

Lemma test_unfold (r : RegExp) (s : string) :
  test r s
  = matchAt r s (fun _ => true)
    || match s with
       | EmptyString => false
       | String _ s' => test r s'
       end.
Proof. destruct s; reflexivity. Qed.

(** [test] looks for a match at every position. *)
Lemma test_somewhere (r : RegExp) (s : string) :
  test r s = true
  <-> exists before rest,
        s = before +:+ rest /\ matchAt r rest (fun _ => true) = true.
Proof.
  split.
  - induction s as [| c s IH]; rewrite test_unfold; intros H;
      apply orb_true_iff in H as [H | H]; try discriminate H.
    + now exists "", "".
    + now exists "", (String c s).
    + destruct (IH H) as (before & rest & -> & Hm).
      now exists (String c before), rest.
  - intros (before & rest & -> & Hm).
    induction before as [| c before IH].
    + change ("" +:+ rest) with rest. rewrite test_unfold. now rewrite Hm.
    + change (String c before +:+ rest) with (String c (before +:+ rest)).
      rewrite test_unfold, IH. apply orb_true_r.
Qed.

(** The first pattern of the knowledge base finds exactly the queries that
    mention dementia. *)
Lemma dementia_pattern_mentions (item : KBItem) (kb : list KBItem)
    (query : string) :
  KB = item :: kb ->
  test (q item) query = true <-> mentions "dementia" query.
Proof.
  intros [= <- _]. cbn [q]. rewrite test_somewhere. split.
  - intros (before & rest & -> & Hm). cbn [matchAt] in Hm.
    apply orb_true_iff in Hm as [Hm | Hm].
    + apply (matchAt_continues (Lit "what")) in Hm as (c1 & s1 & -> & Hm).
      apply (matchAt_continues WhiteSpaces) in Hm as (c2 & s2 & -> & Hm).
      apply (matchAt_continues (Lit "is")) in Hm as (c3 & s3 & -> & Hm).
      apply (matchAt_continues WhiteSpaces) in Hm as (c4 & s4 & -> & Hm).
      destruct (dropLiteral "dementia" s4) as [after |] eqn:E;
        [| discriminate].
      apply dropLiteral_Some in E as (w & -> & Hw).
      exists (before +:+ c1 +:+ c2 +:+ c3 +:+ c4), w, after.
      split; [| exact Hw]. now rewrite !append_assoc.
    + destruct (dropLiteral "dementia" rest) as [after |] eqn:E;
        [| discriminate].
      apply dropLiteral_Some in E as (w & -> & Hw).
      now exists before, w, after.
  - intros (before & w & after & -> & Hw).
    exists before, (w +:+ after). split; [reflexivity |].
    cbn [matchAt]. rewrite (dropLiteral_intro "dementia" w after Hw).
    apply orb_true_r.
Qed.

(** The fallback answers with the definition of dementia exactly for the
    queries that mention dementia, in whatever letter case and whatever
    else they ask about: the first pattern shadows the five others. *)
Theorem dementia_definition_iff_mentioned (query : string) :
  fallbackAnswer query = dementiaAnswer +:+ disclaimer
  <-> mentions "dementia" query.
Proof.
  rewrite <- (dementia_pattern_mentions _ _ query eq_refl).
  unfold fallbackAnswer, KB. cbn [fallbackOver q a].
  match goal with
  | |- context [if test ?r query then _ else _] => destruct (test r query)
  end; [split; reflexivity |].
  split; [| discriminate].
  repeat match goal with
         | |- context [if test ?r query then _ else _] => destruct (test r query)
         end; discriminate.
Qed.

(** Whatever the query, the fallback answers with the generic sentence or
    with one of the six answers of the knowledge base followed by the
    disclaimer, and the answer says that it is not medical advice. *)
Theorem fallback_always_disclaims (query : string) :
  fallbackAnswer query ∈ cannedAnswers
  /\ occursIn "not medical advice" (fallbackAnswer query).
Proof.
  unfold fallbackAnswer, KB. cbn [fallbackOver q a].
  repeat match goal with
         | |- context [if test ?r query then _ else _] => destruct (test r query)
         end;
    (split;
     [apply (bool_decide_unpack _); vm_compute; exact I
     | apply includes_occursIn; vm_compute; reflexivity]).
Qed.

(** *** Whole conversations *)

Lemma truthyText_true (s : string) : truthyText s = true <-> s <> "".
Proof. destruct s; cbn; split; congruence. Qed.

(** Without an assistant to turn to, the reply is the fallback's. *)
Lemma callDeepSeek_unassisted (w : ChatWorld) (history : list Msg)
    (question : string) :
  unassisted w -> fst (callDeepSeek w history question) = fallbackAnswer question.
Proof.
  intros H. unfold callDeepSeek.
  destruct (VITE_DEEPSEEK_API_KEY w) as [key |] eqn:Ekey; [| reflexivity].
  destruct (truthyText key) eqn:Et; cbn [negb]; [| reflexivity].
  destruct H as [H | [H | H]]; [congruence | |].
  - assert (key = "") as -> by congruence. discriminate Et.
  - now rewrite H.
Qed.

(** The reply is the assistant's or the fallback's; what is sent, when
    something is sent, is the system prompt, the transcript so far and the
    question. *)
Lemma callDeepSeek_cases (w : ChatWorld) (history : list Msg)
    (question : string) :
  let request :=
    systemPrompt :: historyMsgs history
      ++ [{| cm_role := chat_user; content := question |}] in
  (callDeepSeek w history question = (fallbackAnswer question, [])
   \/ callDeepSeek w history question
      = (default (fallbackAnswer question) (chatDeepSeek w request 300),
         [ChatCompletion request 300])).
Proof.
  cbv zeta. unfold callDeepSeek, historyMsgs.
  destruct (VITE_DEEPSEEK_API_KEY w) as [key |]; [| now left].
  destruct (negb (truthyText key)); [now left |]. right.
  cbn [app]. now destruct (chatDeepSeek w _ 300).
Qed.

(** One exchange, from a state in which no reply is awaited. *)
Lemma typeAndSend_run (w : ChatWorld) (value : string) (st : ChatState) :
  loading st = false ->
  typeAndSend w value st
  = if truthyText (trim value)
    then ({| input := ""; loading := false;
             messages :=
               messages st
               ++ exchange (trim value)
                    (fst (callDeepSeek w (messages st) (trim value))) |},
          snd (callDeepSeek w (messages st) (trim value)))
    else (setInput value st, []).
Proof.
  intros Hidle. unfold typeAndSend, handleSend.
  cbn [input loading messages setInput]. rewrite Hidle, orb_false_r.
  destruct (truthyText (trim value)); cbn [negb]; [| reflexivity].
  destruct (callDeepSeek w (messages st) (trim value)) as [reply calls].
  unfold setLoading, appendMessage, setInput, exchange.
  cbn [input loading messages]. now rewrite <- app_assoc.
Qed.

(** In a conversation whose texts are typed and sent one after the other,
    the transcript grows by one exchange for each text that is not blank
    and by nothing else: the trimmed question, then one reply, in the order
    asked, after everything that was there.  No reply is awaited at the
    end, at most one request was made for each question, and every request
    starts with the system prompt and ends with a question of the user.
    When there is no assistant to turn to (no key, an empty key, or a
    client that fails), the replies are the fallback's answers to the
    questions, so the transcript is the same as without a key. *)
Theorem conversation_transcript (w : ChatWorld) (values : list string)
    (st : ChatState) :
  loading st = false ->
  exists replies,
    length replies = length (asked values)
    /\ messages (fst (converse w values st))
       = messages st ++ concat (zip_with exchange (asked values) replies)
    /\ loading (fst (converse w values st)) = false
    /\ (length (snd (converse w values st)) <= length (asked values))%nat
    /\ Forall (fun call =>
                 match call with
                 | ChatCompletion request max_tokens =>
                     max_tokens = 300%nat
                     /\ head request = Some systemPrompt
                     /\ exists question,
                          question ∈ asked values
                          /\ last request
                             = Some {| cm_role := chat_user;
                                       content := question |}
                 end) (snd (converse w values st))
    /\ (unassisted w ->
        replies = map fallbackAnswer (asked values)
        /\ messages (fst (converse w values st))
           = messages (fst (converse offlineWorld values st))).
Proof.
  revert st. induction values as [| value values IH]; intros st Hidle.
  - exists []. cbn. rewrite app_nil_r. repeat split; auto.
  - cbn [converse]. rewrite (typeAndSend_run w value st Hidle).
    rewrite (typeAndSend_run offlineWorld value st Hidle).
    unfold asked. cbn [map List.filter]. fold (asked values).
    destruct (truthyText (trim value)) eqn:Et.
    + set (reply := fst (callDeepSeek w (messages st) (trim value))).
      set (calls := snd (callDeepSeek w (messages st) (trim value))).
      set (st1 := {| input := ""; loading := false;
                     messages := messages st ++ exchange (trim value) reply |}).
      destruct (IH st1 eq_refl) as (replies & Hlen & Hmsgs & Hload & Hcalls & Hreq & Hoff).
      set (st1' := {| input := "";
                      messages := messages st ++ exchange (trim value)
                        (fst (callDeepSeek offlineWorld (messages st) (trim value))) |}).
      destruct (converse w values st1) as [st2 calls2] eqn:E2.
      destruct (converse offlineWorld values st1') as [st2' calls2'] eqn:E2'.
      cbn [fst snd] in *.
      exists (reply :: replies).
      split; [cbn; now rewrite Hlen |].
      split; [rewrite Hmsgs; cbn [zip_with concat messages st1];
              now rewrite <- !app_assoc |].
      split; [exact Hload |].
      split.
      { rewrite length_app. cbn [length].
        pose proof (callDeepSeek_calls w (messages st) (trim value)).
        fold calls in H. lia. }
      split.
      { apply Forall_app. split.
        - subst calls.
          destruct (callDeepSeek_cases w (messages st) (trim value)) as [-> | ->];
            cbn [snd]; [constructor |].
          repeat constructor.
          exists (trim value). split; [apply list_elem_of_here |].
          rewrite last_cons, last_snoc. now destruct (_ ++ _).
        - eapply Forall_impl; [exact Hreq |].
          intros [request n] (Hn & Hhead & question & Hin & Hlast).
          repeat (split; [assumption |]).
          exists question. split; [now apply list_elem_of_further | exact Hlast]. }
      intros Hun. destruct (Hoff Hun) as [-> Hsame].
      assert (Hreply : reply = fallbackAnswer (trim value))
        by now apply callDeepSeek_unassisted.
      split; [cbn [map]; now rewrite Hreply |].
      assert (Est : st1' = st1).
      { subst st1 st1'. f_equal. now rewrite Hreply. }
      rewrite Est in E2'. rewrite E2' in Hsame. exact Hsame.
    + destruct (IH (setInput value st) Hidle)
        as (replies & Hlen & Hmsgs & Hload & Hcalls & Hreq & Hoff).
      destruct (converse w values (setInput value st)) as [st2 calls2].
      destruct (converse offlineWorld values (setInput value st)) as [st2' calls2'].
      cbn [fst snd app] in *.
      exists replies. repeat (split; [assumption |]). exact Hoff.
Qed.

Lemma conversation_transcript_example :
  exists replies,
    length replies = length (asked ["  what is Dementia? "; "   "; "hello"])
    /\ messages (fst (converse unreachableWorld
                        ["  what is Dementia? "; "   "; "hello"] initialState))
       = messages initialState
         ++ concat (zip_with exchange
                      (asked ["  what is Dementia? "; "   "; "hello"]) replies)
    /\ loading (fst (converse unreachableWorld
                       ["  what is Dementia? "; "   "; "hello"] initialState))
       = false
    /\ (length (snd (converse unreachableWorld
                       ["  what is Dementia? "; "   "; "hello"] initialState))
        <= length (asked ["  what is Dementia? "; "   "; "hello"]))%nat
    /\ Forall (fun call =>
                 match call with
                 | ChatCompletion request max_tokens =>
                     max_tokens = 300%nat
                     /\ head request = Some systemPrompt
                     /\ exists question,
                          question ∈ asked ["  what is Dementia? "; "   "; "hello"]
                          /\ last request
                             = Some {| cm_role := chat_user;
                                       content := question |}
                 end)
         (snd (converse unreachableWorld
                 ["  what is Dementia? "; "   "; "hello"] initialState))
    /\ (unassisted unreachableWorld ->
        replies = map fallbackAnswer (asked ["  what is Dementia? "; "   "; "hello"])
        /\ messages (fst (converse unreachableWorld
                            ["  what is Dementia? "; "   "; "hello"] initialState))
           = messages (fst (converse offlineWorld
                              ["  what is Dementia? "; "   "; "hello"] initialState))).
Proof.
  apply (conversation_transcript unreachableWorld
           ["  what is Dementia? "; "   "; "hello"] initialState).
  reflexivity.
Defined.

End ConversationFacts.
